(** * The PCE moment engine of [utils.py], embedded in Rocq

    The functions of [utils.py] that the specification is about are
    translated here one by one: the PCE coefficient function, the
    analytic moment engine ([mean_gauss_pce], [_sigma0_matrix],
    [cov_gauss_pce]), the quadrature moment engine
    ([mean_cov_pce_quad] with its two nested helpers), the multi-index
    generator and the portfolio loss simulator.  The helpers of the
    module that stand beside them are translated as well: the
    Gauss-Legendre rule on an interval ([gauss_legendre]), the factor
    obtained from a singular value decomposition
    ([cholesky_from_svd]) and the exposure weights
    ([lambda_lgd_ead]).

    Floating-point numbers are idealised as real numbers, with two
    exceptions where a float decides a discrete outcome.  The division
    of [cov_gauss_pce] by [(i + 1) * a**2] yields an infinity or a NaN
    when the divisor is zero, so the entries of its array are reals
    extended by the IEEE 754 special values; rounding, underflow and
    overflow are not modelled.  The float of [scipy.special.comb] that
    [compute_multi_index] truncates to an integer is a parameter of
    the model, as the library routines are.  NumPy arrays are a shape
    together with an indexing function, so that broadcasting, slicing,
    [np.triu]/[np.tril] and in-place row assignment read as they do in
    NumPy's documentation.  Exceptions are a [result] type; the global
    random generator is threaded explicitly. *)

From Stdlib Require Import Reals Lra Lia List Arith Bool ZArith.
Import ListNotations.
Local Open Scope R_scope.

(** ** Library functions called by the source *)

(** [scipy.stats.norm.pdf]: the standard normal density
    [exp(-x**2/2) / sqrt(2*pi)]. *)
Definition norm_pdf (x : R) : R := exp (- (x ^ 2) / 2) / sqrt (2 * PI).

Lemma norm_pdf_continuity : continuity norm_pdf.
Proof. unfold norm_pdf. reg. Qed.

Lemma norm_pdf_even (x : R) : norm_pdf (- x) = norm_pdf x.
Proof.
  unfold norm_pdf. replace ((- x) ^ 2) with (x ^ 2) by ring. reflexivity.
Qed.

Lemma norm_pdf_integrable (u v : R) : Riemann_integrable norm_pdf u v.
Proof.
  destruct (Rle_dec u v) as [Huv | Huv].
  - apply continuity_implies_RiemannInt;
      [exact Huv | intros; apply norm_pdf_continuity].
  - apply RiemannInt_P1, continuity_implies_RiemannInt;
      [lra | intros; apply norm_pdf_continuity].
Defined.

(** The integral of the density from [0] to [x]. *)
Definition gauss_int (x : R) : R := RiemannInt (norm_pdf_integrable 0 x).

(** [scipy.stats.norm.cdf]: the standard normal distribution function,
    one half (the mass left of the origin) plus the integral of the
    density from the origin. *)
Definition norm_cdf (x : R) : R := 1 / 2 + gauss_int x.

(** [scipy.special.hermitenorm(n)]: the probabilist's Hermite
    polynomial [He_n], by its three-term recurrence. *)
Fixpoint hermitenorm (n : nat) (x : R) : R :=
  match n with
  | O => 1
  | S m =>
      match m with
      | O => x
      | S k => x * hermitenorm m x - INR m * hermitenorm k x
      end
  end.

(** The binomial coefficient by Pascal's rule: the exact integer that
    [scipy.special.comb(n, k)] approximates in floating point. *)
Fixpoint comb (n k : nat) : nat :=
  match n, k with
  | _, O => 1%nat
  | O, S _ => 0%nat
  | S n', S k' => (comb n' k' + comb n' (S k'))%nat
  end.

(** ** Exceptions *)

(** The exceptions the modelled code can raise.  [ShapeMismatch] is the
    [ValueError] of the explicit length checks of the analytic engine;
    [BroadcastError] is NumPy's [ValueError] for shapes that cannot be
    broadcast together (or assigned into a slice); [QuadratureDegree]
    is the [ValueError] of [hermgauss] for a degree that is not
    positive; [IndexError] is an index out of bounds;
    [UnboundLocalError] is the use of a local variable that was never
    assigned. *)
Inductive exn : Type :=
| ShapeMismatch
| BroadcastError
| QuadratureDegree
| IndexError
| UnboundLocalError.

Inductive result (A : Type) : Type :=
| Ok (a : A)
| Raise (e : exn).
Arguments Ok {A} a.
Arguments Raise {A} e.

Definition bind {A B : Type} (c : result A) (k : A -> result B) : result B :=
  match c with
  | Ok a => k a
  | Raise e => Raise e
  end.

Notation "'let*' x ':=' c 'in' k" := (bind c (fun x => k))
  (at level 10, x pattern, c at level 100, k at level 200).

(** A [for] loop over a list of indices whose body may raise. *)
Fixpoint for_each {S : Type} (l : list nat) (body : nat -> S -> result S)
  (s : S) : result S :=
  match l with
  | [] => Ok s
  | i :: l' => let* s' := body i s in for_each l' body s'
  end.

(** ** NumPy arrays *)

(** One-, two- and three-dimensional arrays: a shape and an indexing
    function (only indices inside the shape are meaningful). *)
Record vec : Type := mkvec { vlen : nat; vat : nat -> R }.
Record mat : Type := mkmat { rows : nat; cols : nat; at2 : nat -> nat -> R }.
Record ten : Type :=
  mkten { dim0 : nat; dim1 : nat; dim2 : nat; at3 : nat -> nat -> nat -> R }.

(** [np.array] of a Python list of floats. *)
Definition array (l : list R) : vec := mkvec (length l) (fun k => nth k l 0).

Definition zeros1 (n : nat) : vec := mkvec n (fun _ => 0).
Definition zeros2 (r c : nat) : mat := mkmat r c (fun _ _ => 0).
Definition zeros3 (d0 d1 d2 : nat) : ten := mkten d0 d1 d2 (fun _ _ _ => 0).

(** Elementwise application of a function. *)
Definition vmap (f : R -> R) (v : vec) : vec :=
  mkvec (vlen v) (fun k => f (vat v k)).
Definition mmap (f : R -> R) (m : mat) : mat :=
  mkmat (rows m) (cols m) (fun q k => f (at2 m q k)).

(** Elementwise binary operation on two one-dimensional arrays that
    are known to have the same shape (the left one's). *)
Definition vmap2 (f : R -> R -> R) (u v : vec) : vec :=
  mkvec (vlen u) (fun k => f (vat u k) (vat v k)).

(** Broadcasting of one axis: equal extents, or one of them is 1. *)
Definition bdim (m n : nat) : result nat :=
  if (m =? n)%nat then Ok m
  else if (m =? 1)%nat then Ok n
  else if (n =? 1)%nat then Ok m
  else Raise BroadcastError.

(** The index an operand of extent [d] is read at for result index [i]:
    an axis of extent 1 is stretched. *)
Definition bidx (d i : nat) : nat := if (d =? 1)%nat then 0%nat else i.

(** Elementwise binary operation with broadcasting, 1-D with 1-D. *)
Definition vzip (f : R -> R -> R) (u v : vec) : result vec :=
  let* d := bdim (vlen u) (vlen v) in
  Ok (mkvec d (fun k => f (vat u (bidx (vlen u) k)) (vat v (bidx (vlen v) k)))).

(** Elementwise binary operation with broadcasting, 2-D with 2-D. *)
Definition mzip (f : R -> R -> R) (x y : mat) : result mat :=
  let* r := bdim (rows x) (rows y) in
  let* c := bdim (cols x) (cols y) in
  Ok (mkmat r c (fun q k =>
        f (at2 x (bidx (rows x) q) (bidx (cols x) k))
          (at2 y (bidx (rows y) q) (bidx (cols y) k)))).

(** Two extents that broadcast: the second is the first or 1. *)
Definition fits (d K : nat) : Prop := d = K \/ d = 1%nat.

(** [v[None, :]] and [v[:, None]]. *)
Definition as_row (v : vec) : mat := mkmat 1 (vlen v) (fun _ k => vat v k).
Definition as_col (v : vec) : mat := mkmat (vlen v) 1 (fun q _ => vat v q).

(** [m[i, :]] for an index inside the array. *)
Definition row (m : mat) (i : nat) : vec := mkvec (cols m) (fun k => at2 m i k).

(** The sum of [f 0 .. f (n-1)]. *)
Fixpoint sum_n (n : nat) (f : nat -> R) : R :=
  match n with
  | O => 0
  | S n' => sum_n n' f + f n'
  end.

(** [np.sum(m, axis=0)]. *)
Definition sum_axis0 (m : mat) : vec :=
  mkvec (cols m) (fun k => sum_n (rows m) (fun q => at2 m q k)).

(** [np.sum(m, axis=1)]. *)
Definition sum_axis1 (m : mat) : vec :=
  mkvec (rows m) (fun q => sum_n (cols m) (fun k => at2 m q k)).

(** [m[i, :] = v] for [i] inside the array: the value is broadcast to
    the row's shape, so its length is the row's or 1. *)
Definition assign_row (m : mat) (i : nat) (v : vec) : result mat :=
  if ((vlen v =? cols m) || (vlen v =? 1))%nat then
    Ok (mkmat (rows m) (cols m)
          (fun i' k => if (i' =? i)%nat then vat v (bidx (vlen v) k) else at2 m i' k))
  else Raise BroadcastError.

(** [t[i, j, :] = v] for [(i, j)] inside the array. *)
Definition assign_fibre (t : ten) (i j : nat) (v : vec) : result ten :=
  if ((vlen v =? dim2 t) || (vlen v =? 1))%nat then
    Ok (mkten (dim0 t) (dim1 t) (dim2 t)
          (fun i' j' k =>
             if ((i' =? i) && (j' =? j))%nat then vat v (bidx (vlen v) k)
             else at3 t i' j' k))
  else Raise BroadcastError.

(** [t[i, j, :]] for [(i, j)] inside the array. *)
Definition fibre (t : ten) (i j : nat) : vec :=
  mkvec (dim2 t) (fun k => at3 t i j k).

(** [np.tri(N, M, k)[r, c]]: true where [c <= r + k]. *)
Definition np_tri (k : Z) (r c : nat) : bool :=
  (Z.of_nat c <=? Z.of_nat r + k)%Z.

(** [np.triu(t, k)] and [np.tril(t, k)].  For an array of more than two
    dimensions NumPy applies them to the final two axes: the mask is
    [np.tri] of the last two extents, broadcast over the leading axis. *)
Definition np_triu (t : ten) (k : Z) : ten :=
  mkten (dim0 t) (dim1 t) (dim2 t)
    (fun i j l => if np_tri (k - 1) j l then 0 else at3 t i j l).
Definition np_tril (t : ten) (k : Z) : ten :=
  mkten (dim0 t) (dim1 t) (dim2 t)
    (fun i j l => if np_tri k j l then at3 t i j l else 0).

(** [t.transpose(1, 0, 2)]. *)
Definition transpose_102 (t : ten) : ten :=
  mkten (dim1 t) (dim0 t) (dim2 t) (fun i j k => at3 t j i k).

(** Elementwise sum of two three-dimensional arrays of one shape. *)
Definition tadd (s t : ten) : ten :=
  mkten (dim0 s) (dim1 s) (dim2 s) (fun i j k => at3 s i j k + at3 t i j k).

(** [m[i, :] = f] where the right-hand side is known to have the row's
    shape. *)
Definition set_row (m : mat) (i : nat) (f : nat -> R) : mat :=
  mkmat (rows m) (cols m)
    (fun i' k => if (i' =? i)%nat then f k else at2 m i' k).

(** [t[i, j, :] = f] where the right-hand side is known to have the
    fibre's shape. *)
Definition set_fibre (t : ten) (i j : nat) (f : nat -> R) : ten :=
  mkten (dim0 t) (dim1 t) (dim2 t)
    (fun i' j' k =>
       if ((i' =? i) && (j' =? j))%nat then f k else at3 t i' j' k).

(** ** The PCE coefficient function ([coef_gauss_pce]) *)

(** The source applies it to arrays elementwise; this is the function
    of one entry, lifted with [vmap] and [mmap] where it is called. *)
Definition coef_gauss_pce (n : nat) (x : R) : R :=
  if (n =? 0)%nat then norm_cdf (- x)
  else norm_pdf x * hermitenorm (n - 1) x / INR (fact n).

(** ** The analytic moment engine *)

(** The body of the loop of [mean_gauss_pce] for order [i].  After the
    length check every operand has the shape of [a], so the
    elementwise operations are written entry by entry.  [x ** 0.5] is
    the square root. *)
Definition mean_gauss_pce_step (a b x : vec) (mean_pce : mat) (i : nat) : mat :=
  match i with
  | 0%nat => set_row mean_pce 0 (fun k => norm_cdf (- vat x k))
  | 1%nat =>
      set_row mean_pce 1
        (fun k => exp (- (vat x k ^ 2) / 2) / sqrt (2 * PI) / sqrt (1 + vat a k ^ 2))
  | 2%nat =>
      set_row mean_pce 2
        (fun k => vat b k / 2 * at2 mean_pce 1 k / (1 + vat a k ^ 2))
  | _ =>
      let mean_pce' :=
        set_row mean_pce i
          (fun k =>
             vat b k / INR i * at2 mean_pce (i - 1) k
             - (INR i - 2) / (INR i * (INR i - 1)) * at2 mean_pce (i - 2) k) in
      set_row mean_pce' i (fun k => at2 mean_pce' i k / (1 + vat a k ^ 2))
  end.

Definition mean_gauss_pce (n : nat) (a b : vec) : result mat :=
  if negb (vlen a =? vlen b)%nat then Raise ShapeMismatch
  else
    let mean_pce := zeros2 (n + 1) (vlen a) in
    let x := vmap2 (fun bk ak => bk / sqrt (1 + ak ^ 2)) b a in
    Ok (fold_left (mean_gauss_pce_step a b x) (seq 0 (n + 1)) mean_pce).

(** ** Infinities and NaN

    NumPy does not raise on a floating-point division by zero: the
    quotient is an infinity (a NaN for [0 / 0]), a [RuntimeWarning] is
    reported, and the computation goes on with IEEE 754 arithmetic.
    The entries of the array of [cov_gauss_pce], whose recursion
    divides by [(i + 1) * a**2], are therefore reals extended by
    [inf], [-inf] and [nan]. *)
Inductive xfloat : Type :=
| Fin (x : R)
| PInf
| NInf
| XNaN.

Definition is_finite (x : xfloat) : bool :=
  match x with
  | Fin _ => true
  | _ => false
  end.

(** The real number a finite entry holds. *)
Definition real_part (x : xfloat) : R :=
  match x with
  | Fin r => r
  | _ => 0
  end.

(** An infinity times a finite factor: the sign follows the factor,
    and [inf * 0] is [nan]. *)
Definition scale_inf (positive : bool) (r : R) : xfloat :=
  if Rlt_dec 0 r then (if positive then PInf else NInf)
  else if Rlt_dec r 0 then (if positive then NInf else PInf)
  else XNaN.

Definition xopp (x : xfloat) : xfloat :=
  match x with
  | Fin r => Fin (- r)
  | PInf => NInf
  | NInf => PInf
  | XNaN => XNaN
  end.

Definition xadd (x y : xfloat) : xfloat :=
  match x, y with
  | Fin r, Fin s => Fin (r + s)
  | XNaN, _ | _, XNaN => XNaN
  | PInf, NInf | NInf, PInf => XNaN
  | PInf, _ | _, PInf => PInf
  | NInf, _ | _, NInf => NInf
  end.

Definition xsub (x y : xfloat) : xfloat := xadd x (xopp y).

Definition xmul (x y : xfloat) : xfloat :=
  match x, y with
  | Fin r, Fin s => Fin (r * s)
  | XNaN, _ | _, XNaN => XNaN
  | PInf, Fin r | Fin r, PInf => scale_inf true r
  | NInf, Fin r | Fin r, NInf => scale_inf false r
  | PInf, PInf | NInf, NInf => PInf
  | PInf, NInf | NInf, PInf => NInf
  end.

(** [x / d] for finite [x] and a finite divisor [d >= 0], whose zero is
    [+0.0]: [x / 0] is [inf], [-inf] or, for [0 / 0], [nan]. *)
Definition xdiv (x d : R) : xfloat :=
  if Req_EM_T d 0 then scale_inf true x else Fin (x / d).

(** A three-dimensional array of such entries. *)
Record xten : Type :=
  mkxten { xdim0 : nat; xdim1 : nat; xdim2 : nat;
           xat3 : nat -> nat -> nat -> xfloat }.

(** [t[i, j, :] = f]. *)
Definition set_xfibre (t : xten) (i j : nat) (f : nat -> xfloat) : xten :=
  mkxten (xdim0 t) (xdim1 t) (xdim2 t)
    (fun i' j' k =>
       if ((i' =? i) && (j' =? j))%nat then f k else xat3 t i' j' k).

Section AnalyticCovariance.

(** [scipy.stats.multivariate_normal.cdf(x, mean, cov)] for two
    variables: the bivariate normal distribution function, computed by
    the library by numerical integration. *)
Variable mvn_cdf : R * R -> R * R -> (R * R) * (R * R) -> R.

(** The body of the loop of [_sigma0_matrix] for order [i >= 2]. *)
Definition sigma0_step (a b : vec) (mu_n mu_n2 : mat) (sigma0_n : mat) (i : nat)
  : mat :=
  let tmp := fun k =>
    vat b k * at2 sigma0_n (i - 1) k
    - (INR i - 2) / (INR i - 1) * at2 sigma0_n (i - 2) k in
  let tmp' := fun k =>
    tmp k - vat a k ^ 2 * at2 mu_n 1 k * at2 mu_n2 (i - 1) k in
  set_row sigma0_n i (fun k => tmp' k / (INR i * (1 + vat a k ^ 2))).

Definition _sigma0_matrix (n : nat) (a b : vec) : result mat :=
  let size_a := vlen a in
  let sigma0_n := zeros2 (n + 1) size_a in
  let* mu_n := mean_gauss_pce n a b in
  let* mu_n2 :=
    mean_gauss_pce n
      (vmap (fun ak => ak / sqrt (1 + ak ^ 2)) a)
      (vmap2 (fun bk ak => bk / (1 + ak ^ 2)) b a) in
  let tmp := fun k =>
    mvn_cdf (- vat b k, - vat b k) (0, 0)
      ((1 + vat a k ^ 2, vat a k ^ 2), (vat a k ^ 2, 1 + vat a k ^ 2)) in
  let sigma0_n := set_row sigma0_n 0 (fun k => tmp k - at2 mu_n 0 k ^ 2) in
  if (n =? 0)%nat then Ok sigma0_n
  else
    let sigma0_n :=
      set_row sigma0_n 1
        (fun k => at2 mu_n 1 k * (at2 mu_n2 0 k - at2 mu_n 0 k)) in
    if (n =? 1)%nat then Ok sigma0_n
    else Ok (fold_left (sigma0_step a b mu_n mu_n2) (seq 2 (n - 1)) sigma0_n).

(** The body of the interior recursion of [cov_gauss_pce] for [(i, j)]:
    the entry [(i+1, j+1)] is written from row [i].  The factor
    [1 / ((i + 1) * (a**2))] is the one division of the engine whose
    divisor can vanish; [a], [b] and the means are finite, the entries
    read from the array need not be. *)
Definition cov_gauss_pce_step (a b : vec) (mean_vector : mat)
  (i j : nat) (cov_matrix : xten) : xten :=
  set_xfibre cov_matrix (i + 1) (j + 1)
    (fun k =>
       xsub
         (xmul (xdiv 1 (INR (i + 1) * vat a k ^ 2))
            (xsub
               (xadd
                  (xmul (Fin (- (1 + vat a k ^ 2) * INR (j + 2)))
                     (xat3 cov_matrix i (j + 2) k))
                  (xmul (Fin (vat b k)) (xat3 cov_matrix i (j + 1) k)))
               (xmul (Fin (INR j / INR (j + 1))) (xat3 cov_matrix i j k))))
         (Fin (at2 mean_vector (i + 1) k * at2 mean_vector (j + 1) k))).

Definition cov_gauss_pce (n : nat) (a b : vec) : result xten :=
  if negb (vlen a =? vlen b)%nat then Raise ShapeMismatch
  else
    let* mean_vector := mean_gauss_pce n a b in
    let cov_matrix := mkxten (n + 1) (n + 1) (vlen a) (fun _ _ _ => Fin 0) in
    let* sigma0 := _sigma0_matrix n a b in
    (* cov_matrix[0, :, :] = _sigma0_matrix(...) *)
    let cov_matrix :=
      mkxten (n + 1) (n + 1) (vlen a)
        (fun i j k =>
           if (i =? 0)%nat then Fin (at2 sigma0 j k) else xat3 cov_matrix i j k) in
    (* cov_matrix[:, 0, :] = cov_matrix[0, :, :] *)
    let cov_matrix :=
      mkxten (n + 1) (n + 1) (vlen a)
        (fun i j k =>
           if (j =? 0)%nat then xat3 cov_matrix 0 i k else xat3 cov_matrix i j k) in
    Ok (fold_left
          (fun cov_matrix i =>
             fold_left
               (fun cov_matrix j => cov_gauss_pce_step a b mean_vector i j cov_matrix)
               (seq 0 (n - 1)) cov_matrix)
          (seq 0 n) cov_matrix).

End AnalyticCovariance.

(** The value the interior recursion writes at [(i+1, j+1)], read
    from row [i] of [M]. *)
Definition cov_interior (a b : vec) (mean_vector : mat) (M : xten)
  (i j k : nat) : xfloat :=
  xsub
    (xmul (xdiv 1 (INR (i + 1) * vat a k ^ 2))
       (xsub
          (xadd
             (xmul (Fin (- (1 + vat a k ^ 2) * INR (j + 2))) (xat3 M i (j + 2) k))
             (xmul (Fin (vat b k)) (xat3 M i (j + 1) k)))
          (xmul (Fin (INR j / INR (j + 1))) (xat3 M i j k))))
    (Fin (at2 mean_vector (i + 1) k * at2 mean_vector (j + 1) k)).

(** The same value over the reals, for finite entries and a nonzero
    divisor. *)
Definition cov_interior_value (a b : vec) (mean_vector : mat) (M : xten)
  (i j k : nat) : R :=
  1 / (INR (i + 1) * vat a k ^ 2)
  * (- (1 + vat a k ^ 2) * INR (j + 2) * real_part (xat3 M i (j + 2) k)
     + vat b k * real_part (xat3 M i (j + 1) k)
     - INR j / INR (j + 1) * real_part (xat3 M i j k))
  - at2 mean_vector (i + 1) k * at2 mean_vector (j + 1) k.

(** The inner and outer loops over arbitrary index lists. *)
Definition inner_loop (a b : vec) (mean_vector : mat) (js : list nat) (i : nat)
  (st : xten) : xten :=
  fold_left (fun st j => cov_gauss_pce_step a b mean_vector i j st) js st.
Definition outer_loop (a b : vec) (mean_vector : mat) (js ix : list nat)
  (st : xten) : xten :=
  fold_left (fun st i => inner_loop a b mean_vector js i st) ix st.

(** The covariance array before the interior recursion: row 0 and
    column 0 hold [sigma0], the rest is zero. *)
Definition cov_init (n K : nat) (sigma0 : mat) : xten :=
  mkxten (n + 1) (n + 1) K
    (fun i j k =>
       if (j =? 0)%nat then Fin (at2 sigma0 i k)
       else if (i =? 0)%nat then Fin (at2 sigma0 j k) else Fin 0).

(** ** The quadrature moment engine *)

(** What the public interface of [mean_cov_pce_quad] accepts for [a]
    and [b]: a Python scalar or a one-dimensional array. *)
Inductive array_like : Type :=
| Scalar (x : R)
| Array (v : vec).

(** [np.atleast_1d]: a scalar becomes an array of one entry. *)
Definition atleast_1d (x : array_like) : vec :=
  match x with
  | Scalar x => array [x]
  | Array v => v
  end.

(** [m * v], [m / v] and the like for a two-dimensional [m] and a
    one-dimensional [v]: NumPy reads [v] as a row. *)
Definition mzip_row (f : R -> R -> R) (m : mat) (v : vec) : result mat :=
  mzip f m (as_row v).

Section QuadratureEngine.

(** [np.polynomial.hermite.hermgauss(deg)] for a positive [deg]: the
    nodes and weights of the physicist's Gauss-Hermite rule. *)
Variable hermgauss : nat -> vec * vec.

(** [gauss_hermite].  The library call raises a [ValueError] unless
    the degree is a positive integer. *)
Definition gauss_hermite (n : nat) : result (vec * vec) :=
  if (n =? 0)%nat then Raise QuadratureDegree
  else
    let '(knots, weights) := hermgauss n in
    Ok (vmap (fun x => x * sqrt 2) knots, vmap (fun w => w / sqrt PI) weights).

(** [np.exp(-0.5 * b**2 / (a**2 + 1.0))]. *)
Definition density_correction (a b : vec) : result vec :=
  let* e := vzip Rdiv (vmap (fun bk => - (1 / 2) * bk ^ 2) b)
                      (vmap (fun ak => ak ^ 2 + 1) a) in
  Ok (vmap exp e).

(** The nested function [compute_mean_pce]; [a], [b] and [n_pce] are
    the variables of the enclosing call. *)
Definition compute_mean_pce_step (a b : vec) (w_he : vec) (y_he_ab : mat)
  (sig : vec) (m : nat) (mean_pce_quad : mat) : result mat :=
  let root := vmap (fun ak => sqrt (1 + ak ^ 2)) a in
  if (m =? 0)%nat then
    let* v := vzip Rdiv (vmap Ropp b) root in
    assign_row mean_pce_quad m (vmap norm_cdf v)
  else if (m =? 1)%nat then
    let* v := vzip Rdiv b root in
    let* w := vzip Rdiv (vmap norm_pdf v) root in
    assign_row mean_pce_quad m w
  else
    let* p := mzip Rmult (as_col w_he) (mmap (hermitenorm (m - 1)) y_he_ab) in
    let* s := vzip Rmult (sum_axis0 p) sig in
    let* c := density_correction a b in
    let* s' := vzip Rmult s c in
    assign_row mean_pce_quad m
      (vmap (fun v => v / (sqrt (2 * PI) * INR (fact m))) s').

Definition compute_mean_pce (a b : vec) (n_pce : nat) (w_he : vec)
  (y_he_ab : mat) (sig : vec) : result mat :=
  let mean_pce_quad := zeros2 (n_pce + 1) (vlen a) in
  for_each (seq 0 (n_pce + 1)) (compute_mean_pce_step a b w_he y_he_ab sig)
    mean_pce_quad.

(** The integrand of order [m] in [compute_cov_pce]; the source writes
    the same expression once for [m1] and once for [m2]. *)
Definition cov_integrand (a b : vec) (x_he_ab y_he_ab : mat) (sig : vec)
  (m : nat) : result mat :=
  if (m =? 0)%nat then Ok (mmap (coef_gauss_pce 0) x_he_ab)
  else
    let* h := mzip_row Rmult (mmap (hermitenorm (m - 1)) y_he_ab) sig in
    let* c := density_correction a b in
    let* h' := mzip_row Rmult h c in
    Ok (mmap (fun v => v / (sqrt (2 * PI) * INR (fact m))) h').

(** The body of the inner loop of [compute_cov_pce] for [(m1, m2)]. *)
Definition compute_cov_pce_step (a b : vec) (x_he_ab y_he_ab : mat)
  (w_he sig : vec) (mean_pce_quad : mat) (integrand_m1 : mat)
  (m1 m2 : nat) (cov_pce_quad : ten) : result ten :=
  let* integrand_m2 := cov_integrand a b x_he_ab y_he_ab sig m2 in
  let* p := mzip Rmult (as_col w_he) integrand_m1 in
  let* p' := mzip Rmult p integrand_m2 in
  let* cov_pce_quad := assign_fibre cov_pce_quad m1 m2 (sum_axis0 p') in
  (* cov_pce_quad[m1, m2, :] -= mean_pce_quad[m1, :] * mean_pce_quad[m2, :] *)
  let* mm := vzip Rmult (row mean_pce_quad m1) (row mean_pce_quad m2) in
  let* d := vzip Rminus (fibre cov_pce_quad m1 m2) mm in
  assign_fibre cov_pce_quad m1 m2 d.

(** The nested function [compute_cov_pce]. *)
Definition compute_cov_pce (a b : vec) (n_pce : nat) (x_he_ab y_he_ab : mat)
  (w_he sig : vec) (mean_pce_quad : mat) : result ten :=
  let cov_pce_quad := zeros3 (n_pce + 1) (n_pce + 1) (vlen a) in
  let* cov_pce_quad :=
    for_each (seq 0 (n_pce + 1))
      (fun m1 cov_pce_quad =>
         let* integrand_m1 := cov_integrand a b x_he_ab y_he_ab sig m1 in
         for_each (seq m1 (n_pce + 1 - m1))
           (compute_cov_pce_step a b x_he_ab y_he_ab w_he sig mean_pce_quad
              integrand_m1 m1)
           cov_pce_quad)
      cov_pce_quad in
  (* Fill in the lower triangular part of the covariance matrix *)
  Ok (tadd (np_triu cov_pce_quad 0)
           (np_tril (transpose_102 cov_pce_quad) (-1))).

Definition mean_cov_pce_quad (a b : array_like) (n_pce n_quad : nat)
  : result (mat * ten) :=
  let a := atleast_1d a in
  let b := atleast_1d b in
  let* (x_he, w_he) := gauss_hermite n_quad in
  let* ax := mzip Rmult (as_row a) (as_col x_he) in
  let* x_he_ab := mzip Rplus ax (as_row b) in
  let* ab := vzip Rmult (vmap Ropp a) b in
  let* mu := vzip Rdiv ab (vmap (fun ak => 1 + ak ^ 2) a) in
  let sig := vmap (fun ak => 1 / sqrt (1 + ak ^ 2)) a in
  let* sx := mzip Rmult (as_row sig) (as_col x_he) in
  let* sxm := mzip Rplus sx (as_row mu) in
  let* asxm := mzip Rmult (as_row a) sxm in
  let* y_he_ab := mzip Rplus asxm (as_row b) in
  let* mean_pce_quad := compute_mean_pce a b n_pce w_he y_he_ab sig in
  let* cov_pce_quad :=
    compute_cov_pce a b n_pce x_he_ab y_he_ab w_he sig mean_pce_quad in
  Ok (mean_pce_quad, cov_pce_quad).

End QuadratureEngine.

(** The array of [compute_cov_pce] before the last line: its lower
    triangle is never written. *)
Definition upper_only (n_pce K : nat) (C : ten) : Prop :=
  (dim0 C = (n_pce + 1)%nat /\ dim1 C = (n_pce + 1)%nat /\ dim2 C = K)
  /\ forall r c k, (c < r)%nat -> at3 C r c k = 0.

(** The point the quadrature node [x] is moved to for entry [k], and
    the entry of the integrand of order [m] at the node [x], for
    vectors [a] and [b] of one length. *)
Definition quad_shifted_node (a b : vec) (x : R) (k : nat) : R :=
  vat a k
  * (1 / sqrt (1 + vat a k ^ 2) * x + - vat a k * vat b k / (1 + vat a k ^ 2))
  + vat b k.
Definition quad_integrand (a b : vec) (x : R) (m k : nat) : R :=
  if (m =? 0)%nat then coef_gauss_pce 0 (vat a k * x + vat b k)
  else hermitenorm (m - 1) (quad_shifted_node a b x k)
       * (1 / sqrt (1 + vat a k ^ 2))
       * exp (- (1 / 2) * vat b k ^ 2 / (vat a k ^ 2 + 1))
       / (sqrt (2 * PI) * INR (fact m)).

(** The entry of order [m] of the integrand, by its formula. *)
Definition integrand_entry (a b : vec) (x_he_ab y_he_ab : mat) (sig : vec)
  (m q k : nat) : R :=
  if (m =? 0)%nat then coef_gauss_pce 0 (at2 x_he_ab q k)
  else hermitenorm (m - 1) (at2 y_he_ab q k) * vat sig k
       * exp (- (1 / 2) * vat b k ^ 2 / (vat a k ^ 2 + 1))
       / (sqrt (2 * PI) * INR (fact m)).

(** ** The multi-index generator ([compute_multi_index]) *)

(** Python's [int(x)] of a finite float: truncation towards zero. *)
Definition python_int (x : R) : Z :=
  if Rle_dec 0 x then (up x - 1)%Z else (1 - up (- x))%Z.



Section MultiIndex.

(** [scipy.special.comb(n, k)] with its default [exact=False]: the
    float64 the library computes for the binomial coefficient. *)
Variable special_comb : nat -> nat -> R.

(** The rows [[int(m1), int(m - m1), int(special.comb(m, m1))]] of the
    list comprehension. *)
Definition multi_index_rows (n_pce : nat) : list (nat * nat * Z) :=
  flat_map
    (fun m =>
       map (fun m1 => (m1, (m - m1)%nat, python_int (special_comb m m1)))
         (seq 0 (m + 1)))
    (seq 0 (n_pce + 1)).

(** The table transposed by [zip] into its three columns. *)
Definition compute_multi_index (n_pce : nat)
  : list nat * list nat * list Z :=
  let tab_multi_idx := multi_index_rows n_pce in
  let m1 := map (fun t => fst (fst t)) tab_multi_idx in
  let m2 := map (fun t => snd (fst t)) tab_multi_idx in
  let m_comb := map snd tab_multi_idx in
  (m1, m2, m_comb).

End MultiIndex.

(** [special.comb] where the float is the exact coefficient. *)
Definition special_comb_exact (n k : nat) : R := INR (comb n k).

(** The number of pairs of total degree below [n]. *)
Definition triangle (n : nat) : nat := (n * (n + 1) / 2)%nat.

(** The triples [(m1, m - m1, g m m1)] in the order of the list
    comprehension, for any third entry [g]. *)
Definition enumeration {C : Type} (g : nat -> nat -> C) (n_pce : nat)
  : list (nat * nat * C) :=
  flat_map
    (fun m => map (fun m1 => (m1, (m - m1)%nat, g m m1)) (seq 0 (m + 1)))
    (seq 0 (n_pce + 1)).

(** The rows contributed by total degree [m]. *)
Definition degree_block {C : Type} (g : nat -> nat -> C) (m : nat)
  : list (nat * nat * C) :=
  map (fun m1 => (m1, (m - m1)%nat, g m m1)) (seq 0 (m + 1)).





(** Row [n] of Pascal's triangle, in integers. *)
Fixpoint pascal_row (n : nat) : list Z :=
  match n with
  | O => [1%Z]
  | S n' =>
      let r := pascal_row n' in
      map (fun p => (fst p + snd p)%Z) (combine (0%Z :: r) (r ++ [0%Z]))
  end.

(** The three parallel sequences read as one sequence of triples. *)
Fixpoint zip3 {C : Type} (xs ys : list nat) (zs : list C)
  : list (nat * nat * C) :=
  match xs, ys, zs with
  | x :: xs', y :: ys', z :: zs' => (x, y, z) :: zip3 xs' ys' zs'
  | _, _, _ => []
  end.

(** ** The portfolio loss simulator ([compute_loss_pca_pce]) *)

(** The portfolio record [params]: per firm, the normalised exposures
    and the conditional mean and standard deviation of the factor
    loading, and the weight [tab_lambda].  The record is taken to be
    well formed: each array has one entry per firm. *)
Record params : Type := mkparams {
  l1_normalized : vec;
  l2_normalized : vec;
  mean_a_normalized : vec;
  std_a_normalized : vec;
  tab_lambda : vec
}.

Definition well_formed (n_firms : nat) (p : params) : Prop :=
  vlen (l1_normalized p) = n_firms /\ vlen (l2_normalized p) = n_firms /\
  vlen (mean_a_normalized p) = n_firms /\ vlen (std_a_normalized p) = n_firms /\
  vlen (tab_lambda p) = n_firms.

(** The optional keyword arguments; [None] is an absent key. *)
Record kwargs : Type := mkkwargs {
  return_mean_cov_eps : option bool;
  return_eps_full : option bool;
  return_loss_full : option bool;
  n_quad : option nat;
  seed : option nat
}.

(** [kwargs.get(key, False)] read as a condition. *)
Definition flag (o : option bool) : bool :=
  match o with
  | Some b => b
  | None => false
  end.

(** What a call returns, by return path. *)
Inductive loss_output : Type :=
| EpsFull (vec_eps_full : mat)
| Loss (loss : vec)
| MeanCovEps (mean_eps : vec) (cov_eps : mat).

(** The stages of a call that draw random numbers or compute moments,
    recorded in the order they are performed. *)
Inductive stage : Type :=
| SeedGenerator
| SimulateEpsFull
| SampleHermiteProducts
| ComputeMoments
| SampleEps.

(** [x @ y]. *)
Definition matmul (x y : mat) : result mat :=
  if (cols x =? rows y)%nat then
    Ok (mkmat (rows x) (cols y)
          (fun i j => sum_n (cols x) (fun l => at2 x i l * at2 y l j)))
  else Raise BroadcastError.

(** [x += y] on two-dimensional arrays: [y] is broadcast to the shape
    of [x]. *)
Definition iadd (x y : mat) : result mat :=
  if (((rows y =? rows x) || (rows y =? 1))
      && ((cols y =? cols x) || (cols y =? 1)))%nat then
    Ok (mkmat (rows x) (cols x)
          (fun i j => at2 x i j + at2 y (bidx (rows y) i) (bidx (cols y) j)))
  else Raise BroadcastError.

(** [v[i]] and [m[:, j]] with their bounds checks. *)
Definition getitem (v : vec) (i : nat) : result R :=
  if (i <? vlen v)%nat then Ok (vat v i) else Raise IndexError.
Definition getcol (m : mat) (j : nat) : result vec :=
  if (j <? cols m)%nat then Ok (mkvec (rows m) (fun i => at2 m i j))
  else Raise IndexError.

(** [np.array] of a list of rows of length [c]. *)
Definition stack (c : nat) (l : list vec) : mat :=
  mkmat (length l) c (fun p s => vat (nth p l (zeros1 c)) s).

Section LossSimulator.

Variable special_comb : nat -> nat -> R.
Variable hermgauss : nat -> vec * vec.

(** The state of NumPy's global generator, [np.random.seed] and one
    standard-normal draw. *)
Variable rng : Type.
Variable seed_rng : nat -> rng.
Variable next_normal : rng -> R * rng.

(** [np.linalg.cholesky] ([None] when it raises [LinAlgError], which
    it does for a matrix that is not positive definite) and
    [np.linalg.svd]. *)
Variable np_linalg_cholesky : mat -> option mat.
Variable np_linalg_svd : mat -> mat * vec * mat.

(** The generator and the record of the stages performed so far. *)
Record world : Type := mkworld { gen : rng; performed : list stage }.

Definition note (s : stage) (g : rng) (w : world) : world :=
  mkworld g (performed w ++ [s]).

(** [n] successive draws. *)
Fixpoint draws (n : nat) (g : rng) : list R * rng :=
  match n with
  | O => ([], g)
  | S n' =>
      let (z, g1) := next_normal g in
      let (zs, g2) := draws n' g1 in
      (z :: zs, g2)
  end.

(** The [i]-th number the generator yields from the state [g]. *)
Definition stream (g : rng) (i : nat) : R := nth i (fst (draws (S i) g)) 0.

(** The world after the optional seeding. *)
Definition seeded (kw : kwargs) (w : world) : world :=
  match seed kw with
  | Some s => note SeedGenerator (seed_rng s) w
  | None => w
  end.

(** [np.random.randn(n)] and [np.random.randn(r, c)] (filled row by
    row). *)
Definition randn1 (n : nat) (g : rng) : vec * rng :=
  let (zs, g') := draws n g in (array zs, g').
Definition randn2 (r c : nat) (g : rng) : mat * rng :=
  let (zs, g') := draws (r * c) g in
  (mkmat r c (fun i j => nth (i * c + j) zs 0), g').

(** The rows of [he_m1_m2]: for each multi-index two fresh vectors of
    draws, pushed through the two Hermite polynomials and multiplied. *)
Fixpoint hermite_products (tab_m1 tab_m2 : list nat) (n_mc : nat)
  (ps : list nat) (g : rng) : list vec * rng :=
  match ps with
  | [] => ([], g)
  | p :: ps' =>
      let (z1, g1) := randn1 n_mc g in
      let (z2, g2) := randn1 n_mc g1 in
      let he :=
        vmap2 Rmult (vmap (hermitenorm (nth p tab_m1 0%nat)) z1)
                    (vmap (hermitenorm (nth p tab_m2 0%nat)) z2) in
      let (rest, g3) := hermite_products tab_m1 tab_m2 n_mc ps' g2 in
      (he :: rest, g3)
  end.

(** The nested function [simulate_vec_eps]. *)
Definition simulate_vec_eps_pca_step (n_mc : nat) (u_cov_eps : mat)
  (eigs_cov_eps : vec) (idx : nat) (st : mat * rng) : result (mat * rng) :=
  let (vec_eps, g) := st in
  let (z, g') := randn1 n_mc g in
  let* u_idx := getcol u_cov_eps idx in
  let* u_z := mzip Rmult (as_col u_idx) (as_row z) in
  let* eig := getitem eigs_cov_eps idx in
  let* vec_eps := iadd vec_eps (mmap (fun v => sqrt eig * v) u_z) in
  Ok (vec_eps, g').

Definition simulate_vec_eps (n_eps n_mc : nat) (mean_eps : vec) (cov_eps : mat)
  (g : rng) : result (mat * rng) :=
  match np_linalg_cholesky cov_eps with
  | Some chol_cov_eps =>
      (* Cholesky *)
      let (z, g') := randn2 n_eps n_mc g in
      let* cz := matmul chol_cov_eps z in
      let* vec_eps := mzip Rplus (as_col mean_eps) cz in
      Ok (vec_eps, g')
  | None =>
      (* except np.linalg.LinAlgError: PCA decomposition *)
      let '(u_cov_eps, eigs_cov_eps, _) := np_linalg_svd cov_eps in
      let vec_eps := zeros2 (vlen eigs_cov_eps) n_mc in
      let* (vec_eps, g') :=
        for_each (seq 0 n_eps)
          (simulate_vec_eps_pca_step n_mc u_cov_eps eigs_cov_eps)
          (vec_eps, g) in
      let* vec_eps := iadd vec_eps (as_col mean_eps) in
      Ok (vec_eps, g')
  end.

Section Call.

Variables n_pce n_firms n_mc : nat.
Variable p : params.
Variable kw : kwargs.

(** The tables of [compute_multi_index] and the number of entries of
    the eps vector, [int((n_pce + 1) * (n_pce + 2) / 2)]. *)
Definition tab_m1 : list nat :=
  fst (fst (compute_multi_index special_comb n_pce)).
Definition tab_m2 : list nat :=
  snd (fst (compute_multi_index special_comb n_pce)).
Definition tab_multi : list Z := snd (compute_multi_index special_comb n_pce).
Definition eps_size : nat := ((n_pce + 1) * (n_pce + 2) / 2)%nat.

(** [l1_normalized_m1[q, i]] and [l2_normalized_m2[q, i]]. *)
Definition l1_normalized_m1 (q i : nat) : R :=
  vat (l1_normalized p) i ^ nth q tab_m1 0%nat.
Definition l2_normalized_m2 (q i : nat) : R :=
  vat (l2_normalized p) i ^ nth q tab_m2 0%nat.

(** The nested function [simulate_vec_eps_full]. *)
Definition simulate_vec_eps_full (g : rng) : mat * rng :=
  let (z, g') := randn2 n_firms n_mc g in
  let vec_a := fun i s =>
    vat (mean_a_normalized p) i + vat (std_a_normalized p) i * at2 z i s in
  let tau_vec_a_m1_m2 := fun q i s =>
    coef_gauss_pce (nth q tab_m1 0 + nth q tab_m2 0)%nat (vec_a i s) in
  (mkmat (length tab_m1) n_mc
     (fun q s =>
        sum_n n_firms
          (fun i =>
             vat (tab_lambda p) i * IZR (nth q tab_multi 0%Z)
             * tau_vec_a_m1_m2 q i s
             * l1_normalized_m1 q i * l2_normalized_m2 q i)),
   g').

(** The nested function [get_cov_eps]. *)
Definition get_cov_eps : result (vec * mat) :=
  let* (_mean_a_pce, _cov_a_pce) :=
    mean_cov_pce_quad hermgauss
      (Array (std_a_normalized p)) (Array (mean_a_normalized p)) n_pce
      (match n_quad kw with Some q => q | None => 40%nat end) in
  let order := fun q => (nth q tab_m1 0 + nth q tab_m2 0)%nat in
  let mean_eps :=
    mkvec (length tab_multi)
      (fun q =>
         sum_n n_firms
           (fun i =>
              IZR (nth q tab_multi 0%Z) * vat (tab_lambda p) i
              * at2 _mean_a_pce (order q) i
              * l1_normalized_m1 q i * l2_normalized_m2 q i)) in
  let n_eps := eps_size in
  let cov_eps :=
    mkmat n_eps n_eps
      (fun q r =>
         IZR (nth r tab_multi 0%Z) * IZR (nth q tab_multi 0%Z)
         * sum_n n_firms
             (fun i =>
                vat (tab_lambda p) i ^ 2
                * at3 _cov_a_pce (order r) (order q) i
                * l1_normalized_m1 q i * l2_normalized_m2 q i
                * l1_normalized_m1 r i * l2_normalized_m2 r i)) in
  Ok (mean_eps, cov_eps).

(** [np.sum(eps * he_m1_m2, axis=0)]. *)
Definition loss_of (eps he_m1_m2 : mat) : result vec :=
  let* prod := mzip Rmult eps he_m1_m2 in
  Ok (sum_axis0 prod).

(** The part of the call after the first early return: the Hermite
    products are drawn, then the remaining flags are consulted in
    turn.  [vec_eps_full] is [None] when it was never assigned. *)
Definition after_eps_full (vec_eps_full : option mat) (w : world)
  : result (loss_output * world) :=
  (* Product of Hermite polynomials *)
  let (he_rows, g) :=
    hermite_products tab_m1 tab_m2 n_mc (seq 0 eps_size) (gen w) in
  let he_m1_m2 := stack n_mc he_rows in
  let w := note SampleHermiteProducts g w in
  if flag (return_loss_full kw) then
    match vec_eps_full with
    | Some vec_eps_full =>
        let* loss := loss_of vec_eps_full he_m1_m2 in
        Ok (Loss loss, w)
    | None => Raise UnboundLocalError
    end
  else if flag (return_mean_cov_eps kw) then
    let* (mean_eps, cov_eps) := get_cov_eps in
    Ok (MeanCovEps mean_eps cov_eps, note ComputeMoments (gen w) w)
  else
    let* (mean_eps, cov_eps) := get_cov_eps in
    let w := note ComputeMoments (gen w) w in
    let* (vec_eps, g) :=
      simulate_vec_eps eps_size n_mc mean_eps cov_eps (gen w) in
    let w := note SampleEps g w in
    let* loss := loss_of vec_eps he_m1_m2 in
    Ok (Loss loss, w).

Definition compute_loss_pca_pce (w : world) : result (loss_output * world) :=
  let w :=
    match seed kw with
    | Some s => note SeedGenerator (seed_rng s) w
    | None => w
    end in
  if flag (return_eps_full kw) || flag (return_loss_full kw) then
    let (vec_eps_full, g) := simulate_vec_eps_full (gen w) in
    let w := note SimulateEpsFull g w in
    if flag (return_eps_full kw) then Ok (EpsFull vec_eps_full, w)
    else after_eps_full (Some vec_eps_full) w
  else after_eps_full None w.

End Call.

End LossSimulator.

(** ** Quadrature rules on an interval ([gauss_legendre]) *)

(** How the source uses a rule [(knots, weights)]:
    [np.sum(weights * f(knots))]. *)
Definition quadrature (rule : vec * vec) (f : R -> R) : R :=
  sum_n (vlen (snd rule)) (fun i => vat (snd rule) i * f (vat (fst rule) i)).

Section GaussLegendre.

(** [np.polynomial.legendre.leggauss(deg)] for a positive [deg]: the
    nodes and weights of the Gauss-Legendre rule on [[-1, 1]]. *)
Variable leggauss : nat -> vec * vec.

(** [gauss_legendre].  As [hermgauss] does, the library call raises a
    [ValueError] unless the degree is a positive integer. *)
Definition gauss_legendre (a b : R) (n : nat) : result (vec * vec) :=
  if (n =? 0)%nat then Raise QuadratureDegree
  else
    let '(knots, weights) := leggauss n in
    let knots_a_b := vmap (fun x => 1 / 2 * (b - a) * x + 1 / 2 * (b + a)) knots in
    let weights_a_b := vmap (fun w => 1 / 2 * (b - a) * w) weights in
    Ok (knots_a_b, weights_a_b).

End GaussLegendre.

(** ** The factor from the singular value decomposition ([cholesky_from_svd]) *)

(** [np.diag(v)] of a one-dimensional array and [m.T]. *)
Definition np_diag (v : vec) : mat :=
  mkmat (vlen v) (vlen v) (fun i j => if (i =? j)%nat then vat v i else 0).
Definition transpose (m : mat) : mat :=
  mkmat (cols m) (rows m) (fun i j => at2 m j i).

Section CholeskyFromSvd.

(** [np.linalg.svd] and [np.linalg.qr] (in its default reduced mode). *)
Variable np_linalg_svd : mat -> mat * vec * mat.
Variable np_linalg_qr : mat -> mat * mat.

Definition cholesky_from_svd (a : mat) : result mat :=
  let '(u, s, _) := np_linalg_svd a in
  let* b := matmul (np_diag (vmap sqrt s)) (transpose u) in
  let '(_, r) := np_linalg_qr b in
  Ok (transpose r).

End CholeskyFromSvd.

(** ** The exposure weights ([lambda_lgd_ead]) *)

(** A NumPy float that may have left the real line. *)
Inductive np_float : Type :=
| Finite (x : R)
| Inf
| NaN.

(** The two ways a call of [lambda_lgd_ead] on Python integers ends in
    an exception: the [ValueError] of the check of [opt], and Python's
    [ZeroDivisionError] of [5 * idx / n_firms]. *)
Inductive lambda_exn : Type :=
| CheckValueForOpt
| ZeroDivisionError.

(** [np.ceil] of a finite float, as an integer. *)
Definition np_ceil (x : R) : Z := (1 - up (- x))%Z.

(** [1 / np.sqrt(idx)] for an integer [idx]: [np.sqrt] of a negative
    number is NaN and the quotient by the zero it returns for 0 is an
    infinity, both with a [RuntimeWarning] and no exception. *)
Definition inv_sqrt (idx : Z) : np_float :=
  if (idx <? 0)%Z then NaN
  else if (idx =? 0)%Z then Inf
  else Finite (1 / sqrt (IZR idx)).

(** [lambda_lgd_ead] for an integer index [idx] and an integer number
    of firms. *)
Definition lambda_lgd_ead (idx n_firms : Z) (opt : Z) : lambda_exn + np_float :=
  if negb ((opt =? 1)%Z || (opt =? 2)%Z) then inl CheckValueForOpt
  else if (opt =? 1)%Z then inr (inv_sqrt idx)
  else if (n_firms =? 0)%Z then inl ZeroDivisionError
  else inr (Finite (IZR (np_ceil (IZR (5 * idx) / IZR n_firms)) ^ 2)).

(** The class [ceil(5 idx / n_firms)] of an obligor. *)
Definition bucket (idx n_firms : Z) : Z := ((5 * idx + n_firms - 1) / n_firms)%Z.

(** ** Return values *)

(** What the caller of a stateful function receives: the returned
    value or the exception, without the state of the world. *)
Definition returned {A W : Type} (r : result (A * W)) : result A :=
  match r with
  | Ok (o, _) => Ok o
  | Raise e => Raise e
  end.

(** ** Reference values of the external routines

    The external routines are parameters of the engines.  Where a
    closed example needs them, these tabulated values are used. *)

(** The Gauss-Hermite rules of degree 1 and 2 in the physicist's
    convention of [hermgauss]: the node 0 with weight [sqrt pi], and
    the nodes [-1/sqrt 2], [1/sqrt 2] with weights [sqrt pi / 2].
    Other degrees are not tabulated. *)
Definition hermgauss_table (deg : nat) : vec * vec :=
  match deg with
  | 1%nat => (array [0], array [sqrt PI])
  | 2%nat => (array [- / sqrt 2; / sqrt 2], array [sqrt PI / 2; sqrt PI / 2])
  | _ => (array [], array [])
  end.

(** The bivariate normal distribution function at its own mean: the
    orthant probability [1/4 + asin(rho) / (2 pi)], with [rho] the
    correlation of the covariance matrix.  It is the library's value
    whenever [x = mean], which is the case for [b = 0] in
    [_sigma0_matrix]. *)
Definition mvn_cdf_at_mean (x mean : R * R) (cov : (R * R) * (R * R)) : R :=
  1 / 4
  + asin (snd (fst cov) / sqrt (fst (fst cov) * snd (snd cov))) / (2 * PI).

(** A stand-in for NumPy's global generator in closed examples: the
    state is a position in the recorded stream 0, 1, 2, ... of draws,
    and seeding jumps to a position. *)
Definition replay_next (g : nat) : R * nat := (INR g, S g).
Definition replay_seed (s : nat) : nat := s.

(** [np.linalg.cholesky] and [np.linalg.svd] on a matrix of one entry
    [c >= 0]: the factor [sqrt c] exists exactly when [c > 0], and the
    decomposition is [1 * c * 1]. *)
Definition cholesky_1x1 (m : mat) : option mat :=
  if Rlt_dec 0 (at2 m 0 0)
  then Some (mkmat 1 1 (fun _ _ => sqrt (at2 m 0 0)))
  else None.
Definition svd_1x1 (m : mat) : mat * vec * mat :=
  (mkmat 1 1 (fun _ _ => 1), mkvec 1 (fun _ => at2 m 0 0),
   mkmat 1 1 (fun _ _ => 1)).

(** The Gauss-Legendre rules of degree 1 and 2: the node 0 with weight
    2, and the nodes [-1/sqrt 3], [1/sqrt 3] with weights 1.  Other
    degrees are not tabulated. *)
Definition leggauss_table (deg : nat) : vec * vec :=
  match deg with
  | 1%nat => (array [0], array [2])
  | 2%nat => (array [- / sqrt 3; / sqrt 3], array [1; 1])
  | _ => (array [], array [])
  end.

(** [np.linalg.qr] on a matrix of one entry: [1 * b]. *)
Definition qr_1x1 (b : mat) : mat * mat :=
  (mkmat 1 1 (fun _ _ => 1), mkmat 1 1 (fun _ _ => at2 b 0 0)).

(** * Properties *)

(** ** The standard normal distribution function *)

Lemma norm_cdf_0 : norm_cdf 0 = 1 / 2.
Proof. unfold norm_cdf, gauss_int. rewrite RiemannInt_P9. lra. Qed.

(** The integral of the (even) density from the origin is odd: the
    primitive [F] of the density on [[-x, x]] and [t |-> - F (- t)] are
    two antiderivatives of it, so they differ by a constant. *)
Lemma gauss_int_odd_nonneg (x : R) :
  0 <= x -> gauss_int (- x) = - gauss_int x.
Proof.
  intros Hx. unfold gauss_int.
  assert (h : - x <= x) by lra.
  assert (C0 : forall t, - x <= t <= x -> continuity_pt norm_pdf t)
    by (intros; apply norm_pdf_continuity).
  pose (F := primitive h (FTC_P1 h C0)).
  assert (HF : antiderivative norm_pdf F (- x) x) by apply RiemannInt_P29.
  pose (G := fun t => - F (- t)).
  assert (HG : antiderivative norm_pdf G (- x) x).
  { split; [| exact h]. intros t Ht.
    destruct HF as [HF _].
    destruct (HF (- t)) as [pr Hpr]; [lra |].
    assert (Hlim : derivable_pt_lim G t (norm_pdf t)).
    { unfold G.
      replace (norm_pdf t) with (- (derive_pt F (- t) pr * -1)).
      2:{ rewrite <- Hpr, norm_pdf_even. ring. }
      apply (derivable_pt_lim_opp (fun u => F (- u))).
      apply (derivable_pt_lim_comp (fun u => - u) F).
      - replace (-1) with (- 1) by ring.
        apply (derivable_pt_lim_opp id). apply derivable_pt_lim_id.
      - destruct pr as [l Hl]. simpl. exact Hl. }
    exists (exist _ _ Hlim). simpl. reflexivity. }
  destruct (antiderivative_Ucte _ _ _ _ _ HF HG) as [c Hc].
  assert (Fa : F (- x) = 0).
  { unfold F, primitive.
    destruct (Rle_dec (- x) (- x)) as [? | n]; [| exfalso; clear - n; lra].
    destruct (Rle_dec (- x) x) as [? | n]; [| exfalso; clear - n Hx; lra].
    apply RiemannInt_P9. }
  assert (Fb : F x = RiemannInt (norm_pdf_integrable (- x) x)).
  { unfold F, primitive.
    destruct (Rle_dec (- x) x) as [? | n]; [| exfalso; clear - n Hx; lra].
    destruct (Rle_dec x x) as [? | n]; [| exfalso; clear - n; lra].
    apply RiemannInt_P5. }
  assert (F0 : F 0 = RiemannInt (norm_pdf_integrable (- x) 0)).
  { unfold F, primitive.
    destruct (Rle_dec (- x) 0) as [? | n]; [| exfalso; clear - n Hx; lra].
    destruct (Rle_dec 0 x) as [? | n]; [| exfalso; clear - n Hx; lra].
    apply RiemannInt_P5. }
  assert (E1 := Hc (- x) ltac:(lra)).
  assert (E2 := Hc 0 ltac:(lra)).
  unfold G in E1, E2. rewrite Ropp_involutive in E1. rewrite Ropp_0 in E2.
  assert (Ch := RiemannInt_P26 (norm_pdf_integrable (- x) 0)
                  (norm_pdf_integrable 0 x) (norm_pdf_integrable (- x) x)).
  rewrite (RiemannInt_P8 (norm_pdf_integrable 0 (- x))
             (norm_pdf_integrable (- x) 0)).
  lra.
Qed.

(** The survival function: [Phi (- x) = 1 - Phi x]. *)
Lemma norm_cdf_neg (x : R) : norm_cdf (- x) = 1 - norm_cdf x.
Proof.
  unfold norm_cdf.
  destruct (Rle_dec 0 x) as [Hx | Hx].
  - rewrite gauss_int_odd_nonneg by exact Hx. lra.
  - assert (H := gauss_int_odd_nonneg (- x) ltac:(lra)).
    rewrite Ropp_involutive in H. lra.
Qed.

Lemma norm_pdf_pos (x : R) : 0 < norm_pdf x.
Proof.
  unfold norm_pdf. apply Rdiv_lt_0_compat; [apply exp_pos |].
  apply sqrt_lt_R0. assert (H := PI_RGT_0). lra.
Qed.

(** The distribution function is strictly increasing. *)
Lemma norm_cdf_increasing (x y : R) : x < y -> norm_cdf x < norm_cdf y.
Proof.
  intros Hxy. unfold norm_cdf, gauss_int.
  pose proof (RiemannInt_P26 (norm_pdf_integrable 0 x) (norm_pdf_integrable x y)
                (norm_pdf_integrable 0 y)) as Ch.
  set (m := exp (- (x ^ 2 + y ^ 2) / 2) / sqrt (2 * PI)).
  assert (Hs : 0 < sqrt (2 * PI)).
  { apply sqrt_lt_R0. assert (H := PI_RGT_0). lra. }
  assert (Hm : 0 < m).
  { unfold m. apply Rdiv_lt_0_compat; [apply exp_pos | exact Hs]. }
  assert (Hlow : RiemannInt (RiemannInt_P14 x y m)
                 <= RiemannInt (norm_pdf_integrable x y)).
  { apply RiemannInt_P19; [lra |]. intros t Ht.
    unfold fct_cte, norm_pdf, m.
    apply Rmult_le_compat_r; [left; apply Rinv_0_lt_compat; exact Hs |].
    destruct (Rle_lt_or_eq_dec (- (x ^ 2 + y ^ 2) / 2) (- t ^ 2 / 2)) as [H | H].
    - assert (t ^ 2 <= x ^ 2 + y ^ 2); [| lra].
      destruct (Rle_dec 0 t); nra.
    - left. apply exp_increasing. exact H.
    - rewrite H. right. reflexivity. }
  rewrite RiemannInt_P15 in Hlow.
  assert (0 < m * (y - x)) by (apply Rmult_lt_0_compat; lra).
  lra.
Qed.

(** The first Hermite polynomials and the recurrence, as a check of
    [hermitenorm] against the usual tables. *)
Lemma hermitenorm_low (x : R) :
  hermitenorm 0 x = 1 /\ hermitenorm 1 x = x /\
  hermitenorm 2 x = x ^ 2 - 1 /\ hermitenorm 3 x = x ^ 3 - 3 * x.
Proof. repeat split; simpl; ring. Qed.

Lemma hermitenorm_rec (n : nat) (x : R) :
  hermitenorm (S (S n)) x
  = x * hermitenorm (S n) x - INR (S n) * hermitenorm n x.
Proof. reflexivity. Qed.

(** ** The PCE coefficient function *)

(** C4.  For every real [x], [coef_gauss_pce 0 x] is the standard
    normal survival function [1 - Phi x], and for every order
    [n >= 1] (written [S n]) [coef_gauss_pce n x] is
    [phi x * He_(n-1) x / n!]. *)
Theorem coef_gauss_pce_closed_form (x : R) :
  coef_gauss_pce 0 x = 1 - norm_cdf x
  /\ forall n : nat,
       coef_gauss_pce (S n) x
       = norm_pdf x * hermitenorm n x / INR (fact (S n)).
Proof.
  split.
  - unfold coef_gauss_pce. simpl. apply norm_cdf_neg.
  - intros n. unfold coef_gauss_pce.
    replace (S n - 1)%nat with n by lia. reflexivity.
Qed.

(** ** The multi-index generator *)

Lemma nth_map_in {A B : Type} (f : A -> B) (l : list A) (n : nat) (d : A) (d' : B) :
  (n < length l)%nat -> nth n (map f l) d' = f (nth n l d).
Proof.
  intros H. rewrite (nth_indep _ d' (f d)) by (rewrite length_map; exact H).
  apply map_nth.
Qed.

Lemma triangle_S (n : nat) : triangle (S n) = (triangle n + S n)%nat.
Proof.
  unfold triangle.
  replace (S n * (S n + 1))%nat with (n * (n + 1) + S n * 2)%nat by lia.
  rewrite Nat.div_add by lia. reflexivity.
Qed.

Lemma eps_size_triangle (n : nat) :
  ((n + 1) * (n + 2) / 2)%nat = triangle (S n).
Proof. unfold triangle. f_equal. lia. Qed.


Section Enumeration.

Context {C : Type}.
Variable g : nat -> nat -> C.

Lemma enumeration_S (n : nat) :
  enumeration g (S n) = enumeration g n ++ degree_block g (S n).
Proof.
  unfold enumeration.
  replace (S n + 1)%nat with (S (n + 1)) by lia.
  rewrite seq_S, flat_map_app. simpl. rewrite app_nil_r.
  f_equal. unfold degree_block.
  replace (n + 1)%nat with (S n) by lia. reflexivity.
Qed.

Lemma degree_block_length (m : nat) : length (degree_block g m) = S m.
Proof.
  unfold degree_block. rewrite length_map, length_seq. lia.
Qed.

Lemma enumeration_length (n : nat) :
  length (enumeration g n) = triangle (S n).
Proof.
  induction n as [| n IH].
  - reflexivity.
  - rewrite enumeration_S, length_app, IH, degree_block_length.
    rewrite (triangle_S (S n)). reflexivity.
Qed.



Lemma enumeration_In (n i j : nat) (c : C) :
  In (i, j, c) (enumeration g n)
  <-> (i + j <= n)%nat /\ c = g (i + j)%nat i.
Proof.
  unfold enumeration. rewrite in_flat_map. split.
  - intros (m & Hm & Hin). apply in_seq in Hm.
    apply in_map_iff in Hin. destruct Hin as (m1 & E & Hm1).
    apply in_seq in Hm1. injection E as E1 E2 E3. subst i j c.
    replace (m1 + (m - m1))%nat with m by lia. split; [lia | reflexivity].
  - intros [Hn ->]. exists (i + j)%nat. split; [apply in_seq; lia |].
    apply in_map_iff. exists i. split; [| apply in_seq; lia].
    replace (i + j - i)%nat with j by lia. reflexivity.
Qed.

End Enumeration.


Lemma zip3_columns {C : Type} (tab : list (nat * nat * C)) :
  zip3 (map (fun t => fst (fst t)) tab) (map (fun t => snd (fst t)) tab)
    (map snd tab)
  = tab.
Proof.
  induction tab as [| [[x y] z] tab IH]; simpl; [reflexivity |].
  rewrite IH. reflexivity.
Qed.




(** Python's [int] of a float in [[c, c + 1)], [c >= 0], is [c]. *)
Lemma python_int_trunc (x : R) (c : Z) :
  (0 <= c)%Z -> IZR c <= x < IZR c + 1 -> python_int x = c.
Proof.
  intros Hc [H1 H2]. unfold python_int.
  assert (H0 : 0 <= IZR c) by (apply IZR_le; exact Hc).
  destruct (Rle_dec 0 x) as [_ | Hn]; [| lra].
  assert (E : up x = (c + 1)%Z).
  { symmetry. apply tech_up; rewrite plus_IZR; simpl; lra. }
  rewrite E. lia.
Qed.

Lemma python_int_INR (n : nat) : python_int (INR n) = Z.of_nat n.
Proof.
  apply python_int_trunc; [lia |]. rewrite <- INR_IZR_INZ. lra.
Qed.





Lemma pascal_row_length (n : nat) : length (pascal_row n) = S n.
Proof.
  induction n as [| n IH]; [reflexivity |].
  cbn [pascal_row]. rewrite length_map, length_combine.
  cbn [length]. rewrite length_app. cbn [length]. rewrite IH. lia.
Qed.



Lemma multi_index_rows_enumeration (special_comb : nat -> nat -> R) (n : nat) :
  multi_index_rows special_comb n
  = enumeration (fun m k => python_int (special_comb m k)) n.
Proof. reflexivity. Qed.









(** ** The analytic mean engine *)

(** Reading an entry of an updated array, without unfolding the real
    operations. *)
Ltac read_entry :=
  cbn [at2 at3 vat vlen rows cols dim0 dim1 dim2 set_row set_fibre
       vmap vmap2 mmap zeros1 zeros2 zeros3 array
       xat3 xdim0 xdim1 xdim2 set_xfibre
       Nat.eqb andb orb negb].

Lemma one_plus_sq_pos (x : R) : 0 < 1 + x ^ 2.
Proof. nra. Qed.

Lemma sqrt_one_plus_sq_pos (x : R) : 0 < sqrt (1 + x ^ 2).
Proof. apply sqrt_lt_R0, one_plus_sq_pos. Qed.

Lemma sqrt_2PI_pos : 0 < sqrt (2 * PI).
Proof. apply sqrt_lt_R0. assert (H := PI_RGT_0). lra. Qed.

(** The loop body for order [i] writes row [i] and nothing else. *)
Lemma mean_gauss_pce_step_other (a b x : vec) (M : mat) (i r k : nat) :
  r <> i -> at2 (mean_gauss_pce_step a b x M i) r k = at2 M r k.
Proof.
  intros Hr. apply Nat.eqb_neq in Hr.
  destruct i as [| [| [| i]]]; simpl; rewrite ?Hr; reflexivity.
Qed.

Lemma mean_gauss_pce_step_shape (a b x : vec) (M : mat) (i : nat) :
  rows (mean_gauss_pce_step a b x M i) = rows M
  /\ cols (mean_gauss_pce_step a b x M i) = cols M.
Proof. destruct i as [| [| [| i]]]; simpl; auto. Qed.

Lemma mean_gauss_pce_loop_other (a b x : vec) (l : list nat) (M : mat) (r k : nat) :
  ~ In r l ->
  at2 (fold_left (mean_gauss_pce_step a b x) l M) r k = at2 M r k.
Proof.
  revert M. induction l as [| i l IH]; intros M Hr; simpl; [reflexivity |].
  rewrite IH by (intros H; apply Hr; right; exact H).
  apply mean_gauss_pce_step_other. intros ->. apply Hr. left. reflexivity.
Qed.

Lemma mean_gauss_pce_loop_shape (a b x : vec) (l : list nat) (M : mat) :
  rows (fold_left (mean_gauss_pce_step a b x) l M) = rows M
  /\ cols (fold_left (mean_gauss_pce_step a b x) l M) = cols M.
Proof.
  revert M. induction l as [| i l IH]; intros M; simpl; [auto |].
  destruct (IH (mean_gauss_pce_step a b x M i)) as [Hr Hc].
  destruct (mean_gauss_pce_step_shape a b x M i) as [Hr' Hc'].
  split; congruence.
Qed.

(** The range [0 .. n] split at [i]. *)
Lemma seq_split_at (n i : nat) :
  (i <= n)%nat -> seq 0 (n + 1) = seq 0 i ++ i :: seq (S i) (n - i).
Proof.
  intros Hi. replace (n + 1)%nat with (i + S (n - i))%nat by lia.
  rewrite seq_app. reflexivity.
Qed.

(** In the finished array, row [i] is what the loop body for [i]
    wrote, and the rows below [i] are what the loop body read. *)
Lemma mean_gauss_pce_loop_row (a b x : vec) (n i : nat) (M0 : mat) :
  (i <= n)%nat ->
  let final := fold_left (mean_gauss_pce_step a b x) (seq 0 (n + 1)) M0 in
  let before := fold_left (mean_gauss_pce_step a b x) (seq 0 i) M0 in
  (forall k, at2 final i k = at2 (mean_gauss_pce_step a b x before i) i k)
  /\ (forall r k, (r < i)%nat -> at2 final r k = at2 before r k).
Proof.
  intros Hi final before. unfold final.
  rewrite (seq_split_at n i Hi), fold_left_app. simpl. fold before.
  split.
  - intros k. apply mean_gauss_pce_loop_other.
    intros H. apply in_seq in H. lia.
  - intros r k Hr.
    rewrite mean_gauss_pce_loop_other by (intros H; apply in_seq in H; lia).
    apply mean_gauss_pce_step_other. lia.
Qed.

(** [mean_gauss_pce] on vectors of one length: the value returned. *)
Lemma mean_gauss_pce_ok (n : nat) (a b : vec) :
  vlen a = vlen b ->
  mean_gauss_pce n a b
  = Ok (fold_left
          (mean_gauss_pce_step a b (vmap2 (fun bk ak => bk / sqrt (1 + ak ^ 2)) b a))
          (seq 0 (n + 1)) (zeros2 (n + 1) (vlen a))).
Proof.
  intros H. unfold mean_gauss_pce. rewrite H, Nat.eqb_refl. reflexivity.
Qed.

(** The entries of the mean array, order by order. *)
Lemma mean_gauss_pce_entries (n : nat) (a b : vec) (mean : mat) :
  mean_gauss_pce n a b = Ok mean ->
  rows mean = (n + 1)%nat /\ cols mean = vlen a
  /\ forall k : nat,
      at2 mean 0 k = norm_cdf (- (vat b k / sqrt (1 + vat a k ^ 2)))
      /\ ((1 <= n)%nat ->
          at2 mean 1 k
          = exp (- ((vat b k / sqrt (1 + vat a k ^ 2)) ^ 2) / 2)
            / (sqrt (2 * PI) * sqrt (1 + vat a k ^ 2)))
      /\ ((2 <= n)%nat ->
          at2 mean 2 k = vat b k / 2 * at2 mean 1 k / (1 + vat a k ^ 2))
      /\ (forall i : nat, (3 <= i)%nat -> (i <= n)%nat ->
          at2 mean i k
          = (vat b k / INR i * at2 mean (i - 1) k
             - (INR i - 2) / (INR i * (INR i - 1)) * at2 mean (i - 2) k)
            / (1 + vat a k ^ 2)).
Proof.
  intros H.
  assert (Hlen : vlen a = vlen b).
  { unfold mean_gauss_pce in H.
    destruct (vlen a =? vlen b)%nat eqn:E; [apply Nat.eqb_eq, E | discriminate]. }
  rewrite (mean_gauss_pce_ok n a b Hlen) in H.
  set (x := vmap2 (fun bk ak => bk / sqrt (1 + ak ^ 2)) b a) in *.
  set (M0 := zeros2 (n + 1) (vlen a)) in *.
  assert (Hm : mean = fold_left (mean_gauss_pce_step a b x) (seq 0 (n + 1)) M0)
    by congruence.
  rewrite Hm. clear H Hm.
  destruct (mean_gauss_pce_loop_shape a b x (seq 0 (n + 1)) M0) as [Hr Hc].
  split; [exact Hr |]. split; [exact Hc |].
  intros k.
  assert (Spos := sqrt_one_plus_sq_pos (vat a k)).
  assert (Ppos := sqrt_2PI_pos).
  split; [| split; [| split]].
  - destruct (mean_gauss_pce_loop_row a b x n 0 M0 ltac:(lia)) as [H0 _].
    rewrite H0. reflexivity.
  - intros Hn.
    destruct (mean_gauss_pce_loop_row a b x n 1 M0 Hn) as [H1 _].
    rewrite H1. unfold x. cbn [mean_gauss_pce_step]. read_entry.
    field. split; lra.
  - intros Hn.
    destruct (mean_gauss_pce_loop_row a b x n 2 M0 Hn) as [H2 H2'].
    rewrite H2, (H2' 1%nat k ltac:(lia)). reflexivity.
  - intros i Hi Hn.
    destruct (mean_gauss_pce_loop_row a b x n i M0 Hn) as [Hi1 Hi2].
    rewrite Hi1, (Hi2 (i - 1)%nat k ltac:(lia)), (Hi2 (i - 2)%nat k ltac:(lia)).
    destruct i as [| [| [| i]]]; try lia.
    cbn [mean_gauss_pce_step set_row at2]. rewrite !Nat.eqb_refl. reflexivity.
Qed.

(** C3.  For every [n] and every pair [(a, b)] of one length,
    [mean_gauss_pce] returns an [(n+1) x K] array whose entries of
    orders 0, 1 and 2 are the closed forms
    [Phi(-b/sqrt(1+a^2))],
    [exp(-(b/sqrt(1+a^2))^2/2) / (sqrt(2 pi) sqrt(1+a^2))] and
    [(b/2) mean[1] / (1+a^2)], and whose entries of every order
    [3 <= i <= n] satisfy
    [mean[i] = ((b/i) mean[i-1] - ((i-2)/(i (i-1))) mean[i-2]) / (1+a^2)]. *)
Theorem mean_gauss_pce_recurrence (n : nat) (a b : vec) :
  vlen a = vlen b ->
  exists mean : mat,
    mean_gauss_pce n a b = Ok mean
    /\ rows mean = (n + 1)%nat /\ cols mean = vlen a
    /\ forall k : nat, (k < vlen a)%nat ->
        at2 mean 0 k = norm_cdf (- (vat b k / sqrt (1 + vat a k ^ 2)))
        /\ ((1 <= n)%nat ->
            at2 mean 1 k
            = exp (- ((vat b k / sqrt (1 + vat a k ^ 2)) ^ 2) / 2)
              / (sqrt (2 * PI) * sqrt (1 + vat a k ^ 2)))
        /\ ((2 <= n)%nat ->
            at2 mean 2 k = vat b k / 2 * at2 mean 1 k / (1 + vat a k ^ 2))
        /\ (forall i : nat, (3 <= i)%nat -> (i <= n)%nat ->
            at2 mean i k
            = (vat b k / INR i * at2 mean (i - 1) k
               - (INR i - 2) / (INR i * (INR i - 1)) * at2 mean (i - 2) k)
              / (1 + vat a k ^ 2)).
Proof.
  intros Hlen. eexists. split; [apply mean_gauss_pce_ok, Hlen |].
  destruct (mean_gauss_pce_entries n a b _ (mean_gauss_pce_ok n a b Hlen))
    as (Hr & Hc & Hk).
  split; [exact Hr |]. split; [exact Hc |].
  intros k _. apply Hk.
Qed.

(** C3 at [n = 4], [a = [1, 2]], [b = [0, 3]]. *)
Lemma mean_gauss_pce_recurrence_witness :
  vlen (array [1; 2]) = vlen (array [0; 3])
  /\ exists mean : mat,
       mean_gauss_pce 4 (array [1; 2]) (array [0; 3]) = Ok mean
       /\ rows mean = 5%nat /\ cols mean = 2%nat
       /\ at2 mean 4 1
          = (3 / INR 4 * at2 mean 3 1
             - (INR 4 - 2) / (INR 4 * (INR 4 - 1)) * at2 mean 2 1)
            / (1 + 2 ^ 2).
Proof.
  split; [reflexivity |].
  destruct (mean_gauss_pce_recurrence 4 (array [1; 2]) (array [0; 3]) eq_refl)
    as (mean & Hm & Hr & Hc & Hk).
  exists mean. split; [exact Hm |]. split; [exact Hr |]. split; [exact Hc |].
  destruct (Hk 1%nat ltac:(simpl; lia)) as (_ & _ & _ & H4).
  apply (H4 4%nat); lia.
Defined.

(** ** The analytic covariance engine *)

Lemma Ok_inj {A : Type} (x y : A) : Ok x = Ok y -> x = y.
Proof. intros H. congruence. Qed.

(** A loop whose body for index [i] writes row [i] only leaves every
    other row as it was. *)
Lemma fold_row_local (step : mat -> nat -> mat) :
  (forall M i r k, r <> i -> at2 (step M i) r k = at2 M r k) ->
  forall (l : list nat) (M : mat) (r k : nat),
    ~ In r l -> at2 (fold_left step l M) r k = at2 M r k.
Proof.
  intros Hstep l. induction l as [| i l IH]; intros M r k Hr; simpl;
    [reflexivity |].
  rewrite IH by (intros H; apply Hr; right; exact H).
  apply Hstep. intros ->. apply Hr. left. reflexivity.
Qed.

Section AnalyticCovarianceProperties.

Variable mvn_cdf : R * R -> R * R -> (R * R) * (R * R) -> R.

Lemma sigma0_step_other (a b : vec) (mu_n mu_n2 M : mat) (i r k : nat) :
  r <> i -> at2 (sigma0_step a b mu_n mu_n2 M i) r k = at2 M r k.
Proof.
  intros Hr. apply Nat.eqb_neq in Hr. unfold sigma0_step. read_entry.
  rewrite Hr. reflexivity.
Qed.

Lemma sigma0_matrix_ok (n : nat) (a b : vec) :
  vlen a = vlen b -> exists sigma0, _sigma0_matrix mvn_cdf n a b = Ok sigma0.
Proof.
  intros Hlen.
  assert (Hlen2 : vlen (vmap (fun ak => ak / sqrt (1 + ak ^ 2)) a)
                  = vlen (vmap2 (fun bk ak => bk / (1 + ak ^ 2)) b a))
    by exact Hlen.
  unfold _sigma0_matrix.
  rewrite (mean_gauss_pce_ok n a b Hlen), (mean_gauss_pce_ok n _ _ Hlen2).
  cbn [bind].
  destruct (n =? 0)%nat; [eexists; reflexivity |].
  destruct (n =? 1)%nat; eexists; reflexivity.
Qed.

(** The entries of the first row of the covariance, order by order. *)
Lemma sigma0_matrix_entries (n : nat) (a b : vec) (mu_n mu_n2 sigma0 : mat) :
  mean_gauss_pce n a b = Ok mu_n ->
  mean_gauss_pce n (vmap (fun ak => ak / sqrt (1 + ak ^ 2)) a)
    (vmap2 (fun bk ak => bk / (1 + ak ^ 2)) b a) = Ok mu_n2 ->
  _sigma0_matrix mvn_cdf n a b = Ok sigma0 ->
  forall k : nat,
    at2 sigma0 0 k
    = mvn_cdf (- vat b k, - vat b k) (0, 0)
        ((1 + vat a k ^ 2, vat a k ^ 2), (vat a k ^ 2, 1 + vat a k ^ 2))
      - at2 mu_n 0 k ^ 2
    /\ ((1 <= n)%nat ->
        at2 sigma0 1 k = at2 mu_n 1 k * (at2 mu_n2 0 k - at2 mu_n 0 k))
    /\ (forall i : nat, (2 <= i)%nat -> (i <= n)%nat ->
        at2 sigma0 i k
        = (vat b k * at2 sigma0 (i - 1) k
           - (INR i - 2) / (INR i - 1) * at2 sigma0 (i - 2) k
           - vat a k ^ 2 * at2 mu_n 1 k * at2 mu_n2 (i - 1) k)
          / (INR i * (1 + vat a k ^ 2))).
Proof.
  intros E1 E2 Hs k.
  unfold _sigma0_matrix in Hs. rewrite E1, E2 in Hs. cbn [bind] in Hs.
  set (S0 := set_row (zeros2 (n + 1) (vlen a)) 0 _) in Hs.
  set (S1 := set_row S0 1 _) in Hs.
  destruct n as [| [| n]]; cbn [Nat.eqb] in Hs; apply Ok_inj in Hs; subst sigma0.
  - split; [reflexivity |]. split; [lia |]. intros i H2 H0. lia.
  - split; [reflexivity |]. split; [reflexivity |]. intros i H2 H1. lia.
  - set (step := sigma0_step a b mu_n mu_n2).
    assert (Hother : forall l M r q, ~ In r l ->
              at2 (fold_left step l M) r q = at2 M r q).
    { apply fold_row_local. intros. apply sigma0_step_other. assumption. }
    split; [| split].
    + rewrite Hother by (intros H; apply in_seq in H; lia). reflexivity.
    + intros _. rewrite Hother by (intros H; apply in_seq in H; lia).
      reflexivity.
    + intros i H2 Hn.
      replace (S (S n) - 1)%nat with ((i - 2) + S (S (S n) - i))%nat by lia.
      rewrite seq_app, fold_left_app.
      replace (2 + (i - 2))%nat with i by lia. cbn [seq fold_left].
      set (before := fold_left step (seq 2 (i - 2)) S1).
      rewrite !(Hother (seq (S i) _)) by (intros H; apply in_seq in H; lia).
      subst step.
      rewrite (sigma0_step_other a b mu_n mu_n2 before i (i - 1) k) by lia.
      rewrite (sigma0_step_other a b mu_n mu_n2 before i (i - 2) k) by lia.
      unfold sigma0_step at 1. read_entry. rewrite Nat.eqb_refl.
      assert (Hi : 2 <= INR i)
        by (replace 2 with (INR 2) by (simpl; lra); apply le_INR; lia).
      assert (Ha := one_plus_sq_pos (vat a k)).
      field. repeat split; lra.
Qed.

(** Arithmetic with an infinity or a NaN. *)
Lemma scale_inf_not_finite (positive : bool) (r : R) :
  is_finite (scale_inf positive r) = false.
Proof.
  unfold scale_inf.
  destruct (Rlt_dec 0 r); [destruct positive; reflexivity |].
  destruct (Rlt_dec r 0); [destruct positive; reflexivity | reflexivity].
Qed.

Lemma xmul_not_finite (x y : xfloat) :
  is_finite x = false -> is_finite (xmul x y) = false.
Proof.
  destruct x as [r | | |]; [discriminate | | |]; intros _;
    destruct y as [s | | |]; try reflexivity; apply scale_inf_not_finite.
Qed.

Lemma xsub_not_finite (x y : xfloat) :
  is_finite x = false -> is_finite (xsub x y) = false.
Proof.
  destruct x as [r | | |]; [discriminate | | |]; intros _;
    destruct y as [s | | |]; reflexivity.
Qed.

Lemma xdiv_by_zero : xdiv 1 0 = PInf.
Proof.
  unfold xdiv. destruct (Req_EM_T 0 0) as [_ | H]; [| contradiction].
  unfold scale_inf. destruct (Rlt_dec 0 1) as [_ | H]; [reflexivity | lra].
Qed.

Lemma xdiv_finite (x d : R) : d <> 0 -> xdiv x d = Fin (x / d).
Proof.
  intros H. unfold xdiv. destruct (Req_EM_T d 0); [contradiction | reflexivity].
Qed.

Lemma is_finite_real_part (x : xfloat) :
  is_finite x = true -> x = Fin (real_part x).
Proof. destruct x; [reflexivity | discriminate ..]. Qed.

(** The divisor [(i+1) a_k^2] vanishes exactly where [a_k] does. *)
Lemma divisor_zero (a : vec) (i k : nat) :
  INR (i + 1) * vat a k ^ 2 = 0 <-> vat a k = 0.
Proof.
  assert (Hi : INR (i + 1) <> 0) by (apply not_0_INR; lia).
  split; intros H; [| rewrite H; ring].
  apply Rmult_integral in H. destruct H as [H | H]; [contradiction |].
  apply Rmult_integral in H. destruct H as [H | H]; [exact H |].
  apply Rmult_integral in H. destruct H as [H | H]; [exact H | lra].
Qed.

Lemma cov_interior_ext (a b : vec) (mean_vector : mat) (M M' : xten) (i j k : nat) :
  (forall c, xat3 M i c k = xat3 M' i c k) ->
  cov_interior a b mean_vector M i j k = cov_interior a b mean_vector M' i j k.
Proof. intros H. unfold cov_interior. rewrite !H. reflexivity. Qed.

(** Where [a_k] is zero the value written is an infinity or a NaN,
    whatever the entries read. *)
Lemma cov_interior_not_finite (a b : vec) (mean_vector : mat) (M : xten)
  (i j k : nat) :
  vat a k = 0 -> is_finite (cov_interior a b mean_vector M i j k) = false.
Proof.
  intros Hz. unfold cov_interior.
  replace (INR (i + 1) * vat a k ^ 2) with 0 by (rewrite Hz; ring).
  rewrite xdiv_by_zero. apply xsub_not_finite, xmul_not_finite. reflexivity.
Qed.

(** Where [a_k] is not zero and the entries read are finite, the value
    written is the real number of the recursion. *)
Lemma cov_interior_finite (a b : vec) (mean_vector : mat) (M : xten)
  (i j k : nat) :
  vat a k <> 0 ->
  is_finite (xat3 M i (j + 2) k) = true ->
  is_finite (xat3 M i (j + 1) k) = true ->
  is_finite (xat3 M i j k) = true ->
  cov_interior a b mean_vector M i j k
  = Fin (cov_interior_value a b mean_vector M i j k).
Proof.
  intros Ha H2 H1 H0. unfold cov_interior, cov_interior_value.
  rewrite xdiv_finite by (intros E; apply divisor_zero in E; contradiction).
  rewrite (is_finite_real_part _ H2), (is_finite_real_part _ H1),
    (is_finite_real_part _ H0).
  cbn [xmul xadd xsub xopp real_part]. f_equal; ring.
Qed.

Section InteriorLoops.

Variables a b : vec.
Variable mean_vector : mat.

Lemma inner_loop_cons (j0 : nat) (js : list nat) (i : nat) (st : xten) :
  inner_loop a b mean_vector (j0 :: js) i st
  = inner_loop a b mean_vector js i (cov_gauss_pce_step a b mean_vector i j0 st).
Proof. reflexivity. Qed.

Lemma outer_loop_cons (js : list nat) (i0 : nat) (ix : list nat) (st : xten) :
  outer_loop a b mean_vector js (i0 :: ix) st
  = outer_loop a b mean_vector js ix (inner_loop a b mean_vector js i0 st).
Proof. reflexivity. Qed.

Lemma outer_loop_app (js ix ix' : list nat) (st : xten) :
  outer_loop a b mean_vector js (ix ++ ix') st
  = outer_loop a b mean_vector js ix' (outer_loop a b mean_vector js ix st).
Proof. unfold outer_loop. apply fold_left_app. Qed.

Lemma step_read (i j r c k : nat) (st : xten) :
  xat3 (cov_gauss_pce_step a b mean_vector i j st) r c k
  = if ((r =? i + 1) && (c =? j + 1))%nat
    then cov_interior a b mean_vector st i j k
    else xat3 st r c k.
Proof. reflexivity. Qed.

Lemma step_shape (i j : nat) (st : xten) :
  xdim0 (cov_gauss_pce_step a b mean_vector i j st) = xdim0 st
  /\ xdim1 (cov_gauss_pce_step a b mean_vector i j st) = xdim1 st
  /\ xdim2 (cov_gauss_pce_step a b mean_vector i j st) = xdim2 st.
Proof. repeat split. Qed.

(** A property that every step preserves holds after the loops. *)
Lemma outer_loop_invariant (P : xten -> Prop) (js ix : list nat) (st : xten) :
  (forall i j st, P st -> P (cov_gauss_pce_step a b mean_vector i j st)) ->
  P st -> P (outer_loop a b mean_vector js ix st).
Proof.
  intros Hstep. revert st. induction ix as [| i ix IH]; intros st H; [exact H |].
  rewrite outer_loop_cons. apply IH. clear IH.
  revert st H. induction js as [| j js IHj]; intros st H; [exact H |].
  rewrite inner_loop_cons. apply IHj, Hstep, H.
Qed.

Lemma inner_loop_other (js : list nat) (i r c k : nat) (st : xten) :
  r <> (i + 1)%nat \/ (forall j, In j js -> c <> (j + 1)%nat) ->
  xat3 (inner_loop a b mean_vector js i st) r c k = xat3 st r c k.
Proof.
  revert st. induction js as [| j0 js IH]; intros st H; [reflexivity |].
  rewrite inner_loop_cons.
  rewrite IH.
  - rewrite step_read.
    destruct ((r =? i + 1) && (c =? j0 + 1))%nat eqn:E; [| reflexivity].
    apply andb_prop in E. destruct E as [E1 E2].
    apply Nat.eqb_eq in E1, E2. exfalso.
    destruct H as [H | H]; [apply H, E1 | apply (H j0); [left; reflexivity | exact E2]].
  - destruct H as [H | H]; [left; exact H |].
    right. intros j Hj. apply H. right. exact Hj.
Qed.

Lemma inner_loop_written (js : list nat) (i j k : nat) (st : xten) :
  NoDup js -> In j js ->
  xat3 (inner_loop a b mean_vector js i st) (i + 1) (j + 1) k
  = cov_interior a b mean_vector st i j k.
Proof.
  revert st. induction js as [| j0 js IH]; intros st Hnd Hin; [destruct Hin |].
  inversion Hnd as [| ? ? Hnot Hnd']; subst.
  rewrite inner_loop_cons.
  destruct (Nat.eq_dec j j0) as [-> | Hne].
  - rewrite inner_loop_other.
    + rewrite step_read, !Nat.eqb_refl. reflexivity.
    + right. intros j Hj E. apply Hnot.
      replace j0 with j by lia. exact Hj.
  - destruct Hin as [E | Hin]; [congruence |].
    rewrite (IH _ Hnd' Hin). apply cov_interior_ext.
    intros c. rewrite step_read.
    replace (i =? i + 1)%nat with false by (symmetry; apply Nat.eqb_neq; lia).
    reflexivity.
Qed.

Lemma outer_loop_other (js ix : list nat) (r c k : nat) (st : xten) :
  (forall i, In i ix -> r <> (i + 1)%nat) \/ (forall j, In j js -> c <> (j + 1)%nat) ->
  xat3 (outer_loop a b mean_vector js ix st) r c k = xat3 st r c k.
Proof.
  revert st. induction ix as [| i0 ix IH]; intros st H; [reflexivity |].
  rewrite outer_loop_cons.
  rewrite IH.
  - apply inner_loop_other.
    destruct H as [H | H]; [left; apply H; left; reflexivity | right; exact H].
  - destruct H as [H | H]; [left | right; exact H].
    intros i Hi. apply H. right. exact Hi.
Qed.

(** In the finished array the entry [(i+1, j+1)] is the interior value
    read from row [i] of the finished array itself: row [i] is complete
    before the outer iteration [i] starts and is not written again. *)
Lemma outer_loop_written (js : list nat) (n i j k : nat) (st : xten) :
  NoDup js -> In j js -> (i < n)%nat ->
  xat3 (outer_loop a b mean_vector js (seq 0 n) st) (i + 1) (j + 1) k
  = cov_interior a b mean_vector (outer_loop a b mean_vector js (seq 0 n) st) i j k.
Proof.
  intros Hnd Hj Hi.
  replace n with (i + S (n - S i))%nat by lia.
  rewrite seq_app, outer_loop_app. cbn [seq Nat.add].
  rewrite outer_loop_cons.
  set (before := outer_loop a b mean_vector js (seq 0 i) st).
  rewrite outer_loop_other
    by (left; intros i' Hi'; apply in_seq in Hi'; lia).
  rewrite (inner_loop_written js i j k before Hnd Hj).
  apply cov_interior_ext. intros c.
  rewrite outer_loop_other
    by (left; intros i' Hi'; apply in_seq in Hi'; lia).
  rewrite inner_loop_other by (left; lia). reflexivity.
Qed.

Lemma outer_loop_shape (js ix : list nat) (st : xten) :
  xdim0 (outer_loop a b mean_vector js ix st) = xdim0 st
  /\ xdim1 (outer_loop a b mean_vector js ix st) = xdim1 st
  /\ xdim2 (outer_loop a b mean_vector js ix st) = xdim2 st.
Proof.
  apply (outer_loop_invariant
           (fun t => xdim0 t = xdim0 st /\ xdim1 t = xdim1 st
                     /\ xdim2 t = xdim2 st)); [| auto].
  intros i j t H. exact H.
Qed.

(** A column [k] with [a_k <> 0] stays finite: no step divides by
    zero there. *)
Lemma outer_loop_finite (js ix : list nat) (k : nat) (st : xten) :
  vat a k <> 0 ->
  (forall r c, is_finite (xat3 st r c k) = true) ->
  forall r c, is_finite (xat3 (outer_loop a b mean_vector js ix st) r c k) = true.
Proof.
  intros Ha.
  apply (outer_loop_invariant
           (fun t => forall r c, is_finite (xat3 t r c k) = true)).
  intros i j t H r c. rewrite step_read.
  destruct ((r =? i + 1) && (c =? j + 1))%nat; [| apply H].
  rewrite cov_interior_finite by (try exact Ha; apply H). reflexivity.
Qed.

End InteriorLoops.

Lemma cov_gauss_pce_ok (n : nat) (a b : vec) (mean sigma0 : mat) :
  vlen a = vlen b ->
  mean_gauss_pce n a b = Ok mean ->
  _sigma0_matrix mvn_cdf n a b = Ok sigma0 ->
  cov_gauss_pce mvn_cdf n a b
  = Ok (outer_loop a b mean (seq 0 (n - 1)) (seq 0 n)
          (cov_init n (vlen a) sigma0)).
Proof.
  intros Hlen Em Es. unfold cov_gauss_pce.
  rewrite Hlen, Nat.eqb_refl. cbn [negb]. rewrite <- Hlen, Em, Es.
  reflexivity.
Qed.

(** The entries of the covariance array: row 0 and column 0 are
    [sigma0]; an interior entry [(i+1, j+1)] with [j + 1 < n] is the
    recursion's value read from row [i]; the entries of the rows
    [i >= 1] in the columns [c >= max n 1] are never written; a column
    [k] with [a_k <> 0] holds finite entries only. *)
Lemma cov_gauss_pce_entries (n : nat) (a b : vec) :
  vlen a = vlen b ->
  exists (mean sigma0 : mat) (cov : xten),
    mean_gauss_pce n a b = Ok mean
    /\ _sigma0_matrix mvn_cdf n a b = Ok sigma0
    /\ cov_gauss_pce mvn_cdf n a b = Ok cov
    /\ (xdim0 cov = (n + 1)%nat /\ xdim1 cov = (n + 1)%nat
        /\ xdim2 cov = vlen a)
    /\ (forall j k, xat3 cov 0 j k = Fin (at2 sigma0 j k))
    /\ (forall i k, xat3 cov i 0 k = Fin (at2 sigma0 i k))
    /\ (forall i j k, (i < n)%nat -> (j + 1 < n)%nat ->
          xat3 cov (i + 1) (j + 1) k = cov_interior a b mean cov i j k)
    /\ (forall i c k, (1 <= i)%nat -> (1 <= c)%nat -> (n <= c)%nat ->
          xat3 cov i c k = Fin 0)
    /\ (forall k, vat a k <> 0 ->
          forall i j, is_finite (xat3 cov i j k) = true).
Proof.
  intros Hlen.
  pose proof (mean_gauss_pce_ok n a b Hlen) as Em.
  destruct (sigma0_matrix_ok n a b Hlen) as [sigma0 Es].
  pose proof (cov_gauss_pce_ok n a b _ sigma0 Hlen Em Es) as Ec.
  eexists. exists sigma0. eexists.
  split; [exact Em |]. split; [exact Es |]. split; [exact Ec |].
  set (mean := fold_left _ _ _) in *.
  set (init := cov_init n (vlen a) sigma0) in *.
  split; [| split; [| split; [| split; [| split]]]].
  - destruct (outer_loop_shape a b mean (seq 0 (n - 1)) (seq 0 n) init)
      as (H0 & H1 & H2).
    rewrite H0, H1, H2. auto.
  - intros j k. rewrite outer_loop_other
      by (left; intros i Hi; lia).
    unfold init, cov_init. read_entry. destruct j; reflexivity.
  - intros i k. rewrite outer_loop_other
      by (right; intros j Hj; lia).
    reflexivity.
  - intros i j k Hi Hj.
    apply (outer_loop_written a b mean (seq 0 (n - 1)) n i j k init);
      [apply seq_NoDup | apply in_seq; lia | exact Hi].
  - intros i c k Hi Hc Hn. rewrite outer_loop_other
      by (right; intros j Hj; apply in_seq in Hj; lia).
    unfold init, cov_init. read_entry.
    destruct c; [lia |]. destruct i; [lia |]. reflexivity.
  - intros k Ha. apply outer_loop_finite; [exact Ha |].
    intros r c. unfold init, cov_init. read_entry.
    destruct (c =? 0)%nat; [reflexivity |].
    destruct (r =? 0)%nat; reflexivity.
Qed.

(** The interior of a column with [a_k <> 0], over the reals. *)
Lemma cov_gauss_pce_finite_column (n : nat) (a b : vec) (mean : mat) (cov : xten)
  (k : nat) :
  vlen a = vlen b ->
  mean_gauss_pce n a b = Ok mean ->
  cov_gauss_pce mvn_cdf n a b = Ok cov ->
  vat a k <> 0 ->
  (forall i j, xat3 cov i j k = Fin (real_part (xat3 cov i j k)))
  /\ forall i j, (i < n)%nat -> (j + 1 < n)%nat ->
       real_part (xat3 cov (i + 1) (j + 1) k)
       = cov_interior_value a b mean cov i j k.
Proof.
  intros Hlen Em Ec Ha.
  destruct (cov_gauss_pce_entries n a b Hlen)
    as (mean' & sigma0 & cov' & Em' & _ & Ec' & _ & _ & _ & Hint & _ & Hfin).
  rewrite Em in Em'. apply Ok_inj in Em'. subst mean'.
  rewrite Ec in Ec'. apply Ok_inj in Ec'. subst cov'.
  specialize (Hfin k Ha).
  split; [intros i j; apply is_finite_real_part, Hfin |].
  intros i j Hi Hj. rewrite (Hint i j k Hi Hj).
  rewrite cov_interior_finite by (try exact Ha; apply Hfin). reflexivity.
Qed.

(** C8.  For every [n >= 2] and every pair [(a, b)] of one length in
    which some entry [a_k] is zero, [cov_gauss_pce] raises no
    exception (nothing guards against [a_k = 0]) and its interior
    recursion divides by zero: the divisor [(i+1) a_k^2] is 0, the
    factor [1 / ((i+1) a_k^2)] is an infinity, and every interior entry
    [(i+1, j+1)] that the recursion writes in column [k] of the
    returned array is an infinity or a NaN. *)
Theorem cov_gauss_pce_divides_by_zero (n : nat) (a b : vec) (k : nat) :
  (2 <= n)%nat -> vlen a = vlen b -> (k < vlen a)%nat -> vat a k = 0 ->
  exists (mean : mat) (cov : xten),
    mean_gauss_pce n a b = Ok mean
    /\ cov_gauss_pce mvn_cdf n a b = Ok cov
    /\ (forall i : nat,
          INR (i + 1) * vat a k ^ 2 = 0
          /\ xdiv 1 (INR (i + 1) * vat a k ^ 2) = PInf)
    /\ forall i j : nat, (i < n)%nat -> (j + 1 < n)%nat ->
         xat3 cov (i + 1) (j + 1) k = cov_interior a b mean cov i j k
         /\ is_finite (xat3 cov (i + 1) (j + 1) k) = false.
Proof.
  intros Hn Hlen Hk Hz.
  destruct (cov_gauss_pce_entries n a b Hlen)
    as (mean & sigma0 & cov & Em & _ & Ec & _ & _ & _ & Hint & _).
  exists mean, cov. split; [exact Em |]. split; [exact Ec |]. split.
  - intros i.
    assert (E : INR (i + 1) * vat a k ^ 2 = 0) by (rewrite Hz; ring).
    split; [exact E |]. rewrite E. apply xdiv_by_zero.
  - intros i j Hi Hj. split; [apply Hint; assumption |].
    rewrite (Hint i j k Hi Hj). apply cov_interior_not_finite, Hz.
Qed.

(** At [n = 2], [a = [0]], [b = [0]] the entry [(1, 1)] of the returned
    array is a NaN: the bracket of the recursion is 0 and the factor
    is an infinity. *)
Lemma cov_gauss_pce_nan_example :
  exists cov : xten,
    cov_gauss_pce mvn_cdf 2 (array [0]) (array [0]) = Ok cov
    /\ xat3 cov 1 1 0 = XNaN.
Proof.
  set (a := array [0]). set (b := array [0]).
  assert (Hlen : vlen a = vlen b) by reflexivity.
  destruct (cov_gauss_pce_entries 2 a b Hlen)
    as (mean & sigma0 & cov & Em & Es & Ec & _ & Hrow & _ & Hint & _).
  exists cov. split; [exact Ec |].
  pose proof (mean_gauss_pce_ok 2 (vmap (fun ak => ak / sqrt (1 + ak ^ 2)) a)
                (vmap2 (fun bk ak => bk / (1 + ak ^ 2)) b a) Hlen) as Em2.
  pose proof (sigma0_matrix_entries 2 a b mean _ sigma0 Em Em2 Es 0%nat)
    as (_ & _ & Hs).
  pose proof (Hs 2%nat ltac:(lia) ltac:(lia)) as Hs2.
  pose proof (Hint 0%nat 0%nat 0%nat ltac:(lia) ltac:(lia)) as H11.
  unfold cov_interior in H11. cbn [Nat.add] in H11.
  rewrite !Hrow in H11. rewrite H11.
  subst a b. cbn [vat array nth] in *.
  replace (INR 1 * 0 ^ 2) with 0 by (simpl; ring).
  rewrite xdiv_by_zero. cbn [xmul xadd xsub xopp].
  assert (E : - (1 + 0 ^ 2) * INR 2 * at2 sigma0 2 0 + 0 * at2 sigma0 1 0
              + - (INR 0 / INR 1 * at2 sigma0 0 0) = 0).
  { rewrite Hs2. cbn [INR]. field. }
  rewrite E. unfold scale_inf.
  destruct (Rlt_dec 0 0) as [H | _]; [lra |].
  destruct (Rlt_dec 0 0) as [H | _]; [lra |]. reflexivity.
Qed.

(** At [n = 3], [a = [1]], [b = [0]] the interior entry [(3, 1)] is
    positive while [(1, 3)], in the unwritten last column, is 0, and
    the diagonal entry [(2, 2)], which is read from [(1, 3)], is
    negative, whatever the bivariate distribution function is. *)
Lemma cov_gauss_pce_example :
  exists (cov : xten) (x y : R),
    cov_gauss_pce mvn_cdf 3 (array [1]) (array [0]) = Ok cov
    /\ xat3 cov 1 3 0 = Fin 0 /\ xat3 cov 3 1 0 = Fin x /\ 0 < x
    /\ xat3 cov 2 2 0 = Fin y /\ y < 0.
Proof.
  set (a := array [1]). set (b := array [0]).
  assert (Hlen : vlen a = vlen b) by reflexivity.
  destruct (cov_gauss_pce_entries 3 a b Hlen)
    as (mean & sigma0 & cov & Em & Es & Ec & _ & Hrow & Hcol & _ & Hzero & _).
  assert (Ha : vat a 0 <> 0) by (subst a; cbn [vat array nth]; lra).
  destruct (cov_gauss_pce_finite_column 3 a b mean cov 0 Hlen Em Ec Ha)
    as [Hfin Hint].
  exists cov, (real_part (xat3 cov 3 1 0)), (real_part (xat3 cov 2 2 0)).
  split; [exact Ec |].
  split; [apply Hzero; lia |]. split; [apply Hfin |].
  cut (0 < real_part (xat3 cov 3 1 0) /\ real_part (xat3 cov 2 2 0) < 0).
  { intros [H1 H2]. split; [exact H1 |]. split; [apply Hfin | exact H2]. }
  destruct (mean_gauss_pce_entries 3 a b mean Em) as (_ & _ & Hmean).
  pose proof (mean_gauss_pce_ok 3 (vmap (fun ak => ak / sqrt (1 + ak ^ 2)) a)
                (vmap2 (fun bk ak => bk / (1 + ak ^ 2)) b a) Hlen) as Em2.
  destruct (mean_gauss_pce_entries 3 _ _ _ Em2) as (_ & _ & Hmean2).
  pose proof (sigma0_matrix_entries 3 a b mean _ sigma0 Em Em2 Es 0%nat)
    as (_ & Hs1 & Hs).
  set (mu2 := fold_left _ _ _) in *.
  destruct (Hmean 0%nat) as (_ & Hm1 & Hm2 & Hm).
  destruct (Hmean2 0%nat) as (_ & Hn1 & _ & _).
  specialize (Hm1 ltac:(lia)). specialize (Hm2 ltac:(lia)).
  specialize (Hn1 ltac:(lia)).
  pose proof (Hm 3%nat ltac:(lia) ltac:(lia)) as Hm3.
  pose proof (Hs 2%nat ltac:(lia) ltac:(lia)) as Hs2.
  pose proof (Hint 2%nat 0%nat ltac:(lia) ltac:(lia)) as H31.
  pose proof (Hint 1%nat 1%nat ltac:(lia) ltac:(lia)) as H22.
  pose proof (Hint 0%nat 0%nat ltac:(lia) ltac:(lia)) as H11.
  pose proof (Hzero 1%nat 3%nat 0%nat ltac:(lia) ltac:(lia) ltac:(lia)) as H13.
  unfold cov_interior_value in H31, H22, H11.
  cbn [Nat.add Nat.sub] in *.
  rewrite !Hrow, ?H13 in *. cbn [real_part] in *.
  subst a b. cbn [vat array nth vmap vmap2] in *.
  rewrite !INR_IZR_INZ in *. cbn [Z.of_nat Pos.of_succ_nat Pos.succ] in *.
  set (mu1 := at2 mean 1 0) in *. set (nu1 := at2 mu2 1 0) in *.
  assert (E22 : real_part (xat3 cov 2 2 0) = - (mu1 * nu1 - mu1 ^ 2) / 4).
  { rewrite H22, H11, Hs2, Hm2. field. }
  assert (E31 : real_part (xat3 cov 3 1 0) = mu1 * nu1 / 3 - mu1 ^ 2 / 4).
  { rewrite H31, H22, H11, Hs2, Hm3, Hm2. field. }
  rewrite E31, E22.
  assert (Hexp : forall t, exp (- (0 / t) ^ 2 / 2) = 1).
  { intros t. replace (- (0 / t) ^ 2 / 2) with 0 by (unfold Rdiv; ring).
    apply exp_0. }
  replace (0 / (1 + 1 ^ 2)) with 0 in Hn1 by (unfold Rdiv; ring).
  rewrite Hexp in Hm1, Hn1.
  assert (P := sqrt_2PI_pos).
  assert (S2 := sqrt_one_plus_sq_pos 1).
  assert (S3 := sqrt_one_plus_sq_pos (1 / sqrt (1 + 1 ^ 2))).
  assert (Hlt : sqrt (1 + (1 / sqrt (1 + 1 ^ 2)) ^ 2) < sqrt (1 + 1 ^ 2)).
  { apply sqrt_lt_1_alt.
    assert (Hq : (1 / sqrt (1 + 1 ^ 2)) ^ 2 = 1 / 2).
    { replace ((1 / sqrt (1 + 1 ^ 2)) ^ 2)
        with (1 / (sqrt (1 + 1 ^ 2) * sqrt (1 + 1 ^ 2))) by (field; lra).
      rewrite sqrt_sqrt by nra. field. }
    rewrite Hq. nra. }
  assert (Hmu : 0 < mu1).
  { rewrite Hm1. apply Rdiv_lt_0_compat; [lra | apply Rmult_lt_0_compat; lra]. }
  assert (Hnu : mu1 < nu1).
  { rewrite Hm1, Hn1.
    assert (Hinv : forall x y, 0 < y -> y < x -> 1 / x < 1 / y).
    { intros x y Hy Hxy. unfold Rdiv. rewrite !Rmult_1_l.
      apply Rinv_lt_contravar; [nra | exact Hxy]. }
    apply Hinv; [apply Rmult_lt_0_compat; lra |].
    apply Rmult_lt_compat_l; lra. }
  clear - Hmu Hnu. split; nra.
Qed.

End AnalyticCovarianceProperties.

(** ** The quadrature moment engine *)

Lemma bdim_refl (n : nat) : bdim n n = Ok n.
Proof. unfold bdim. rewrite Nat.eqb_refl. reflexivity. Qed.

Lemma bdim_1_l (n : nat) : bdim 1 n = Ok n.
Proof.
  unfold bdim. destruct (1 =? n)%nat eqn:E; [| reflexivity].
  apply Nat.eqb_eq in E. subst n. reflexivity.
Qed.

Lemma bdim_1_r (n : nat) : bdim n 1 = Ok n.
Proof.
  unfold bdim. destruct (n =? 1)%nat eqn:E; [| reflexivity].
  reflexivity.
Qed.

Lemma bidx_lt (d k : nat) : (k < d)%nat -> bidx d k = k.
Proof.
  intros H. unfold bidx. destruct (d =? 1)%nat eqn:E; [| reflexivity].
  apply Nat.eqb_eq in E. lia.
Qed.

Lemma bidx_1 (k : nat) : bidx 1 k = 0%nat.
Proof. reflexivity. Qed.

Lemma bdim_fits_r (K d : nat) : fits d K -> bdim K d = Ok K.
Proof. intros [-> | ->]; [apply bdim_refl | apply bdim_1_r]. Qed.

Lemma bdim_fits_l (K d : nat) : fits d K -> bdim d K = Ok K.
Proof. intros [-> | ->]; [apply bdim_refl | apply bdim_1_l]. Qed.

Lemma vzip_fits_r (f : R -> R -> R) (u v : vec) :
  fits (vlen v) (vlen u) ->
  vzip f u v
  = Ok (mkvec (vlen u)
          (fun k => f (vat u (bidx (vlen u) k)) (vat v (bidx (vlen v) k)))).
Proof. intros H. unfold vzip. rewrite (bdim_fits_r _ _ H). reflexivity. Qed.

Lemma vzip_fits_l (f : R -> R -> R) (u v : vec) :
  fits (vlen u) (vlen v) ->
  vzip f u v
  = Ok (mkvec (vlen v)
          (fun k => f (vat u (bidx (vlen u) k)) (vat v (bidx (vlen v) k)))).
Proof. intros H. unfold vzip. rewrite (bdim_fits_l _ _ H). reflexivity. Qed.

Lemma mzip_fits (f : R -> R -> R) (x y : mat) (r c : nat) :
  bdim (rows x) (rows y) = Ok r -> bdim (cols x) (cols y) = Ok c ->
  mzip f x y
  = Ok (mkmat r c (fun q k =>
          f (at2 x (bidx (rows x) q) (bidx (cols x) k))
            (at2 y (bidx (rows y) q) (bidx (cols y) k)))).
Proof. intros Hr Hc. unfold mzip. rewrite Hr, Hc. reflexivity. Qed.

Lemma assign_row_fits (m : mat) (i : nat) (v : vec) :
  fits (vlen v) (cols m) ->
  assign_row m i v
  = Ok (mkmat (rows m) (cols m)
          (fun i' k => if (i' =? i)%nat then vat v (bidx (vlen v) k) else at2 m i' k)).
Proof.
  intros H. unfold assign_row.
  replace ((vlen v =? cols m) || (vlen v =? 1))%nat with true; [reflexivity |].
  symmetry. apply orb_true_iff.
  destruct H as [H | H]; [left | right]; apply Nat.eqb_eq; exact H.
Qed.

Lemma assign_fibre_fits (t : ten) (i j : nat) (v : vec) :
  fits (vlen v) (dim2 t) ->
  assign_fibre t i j v
  = Ok (mkten (dim0 t) (dim1 t) (dim2 t)
          (fun i' j' k =>
             if ((i' =? i) && (j' =? j))%nat then vat v (bidx (vlen v) k)
             else at3 t i' j' k)).
Proof.
  intros H. unfold assign_fibre.
  replace ((vlen v =? dim2 t) || (vlen v =? 1))%nat with true; [reflexivity |].
  symmetry. apply orb_true_iff.
  destruct H as [H | H]; [left | right]; apply Nat.eqb_eq; exact H.
Qed.

(** A loop whose body succeeds and keeps an invariant succeeds and
    keeps it. *)
Lemma for_each_invariant {S : Type} (P : S -> Prop) (body : nat -> S -> result S)
  (l : list nat) (s : S) :
  (forall i s, In i l -> P s -> exists s', body i s = Ok s' /\ P s') ->
  P s -> exists s', for_each l body s = Ok s' /\ P s'.
Proof.
  revert s. induction l as [| i l IH]; intros s Hbody Hs.
  - exists s. split; [reflexivity | exact Hs].
  - destruct (Hbody i s (or_introl eq_refl) Hs) as (s1 & E1 & P1).
    destruct (IH s1) as (s' & E' & P'); [| exact P1 |].
    + intros j t Hj. apply Hbody. right. exact Hj.
    + exists s'. split; [| exact P']. cbn [for_each]. rewrite E1. exact E'.
Qed.

(** What a successful loop leaves of a property that each body
    preserves. *)
Lemma for_each_preserves {S : Type} (P : S -> Prop) (body : nat -> S -> result S)
  (l : list nat) (s s' : S) :
  (forall i t t', In i l -> body i t = Ok t' -> P t -> P t') ->
  for_each l body s = Ok s' -> P s -> P s'.
Proof.
  revert s. induction l as [| i l IH]; intros s Hbody E Hs.
  - cbn [for_each] in E. apply Ok_inj in E. subst s'. exact Hs.
  - cbn [for_each] in E. destruct (body i s) as [s1 | e] eqn:E1; [| discriminate].
    cbn [bind] in E. apply (IH s1); [| exact E |].
    + intros j t t' Hj. apply Hbody. right. exact Hj.
    + apply (Hbody i s s1); [left; reflexivity | exact E1 | exact Hs].
Qed.

Lemma for_each_app {S : Type} (body : nat -> S -> result S) (l1 l2 : list nat) (s : S) :
  for_each (l1 ++ l2) body s
  = (let* s1 := for_each l1 body s in for_each l2 body s1).
Proof.
  revert s. induction l1 as [| i l1 IH]; intros s; [reflexivity |].
  cbn [app for_each]. destruct (body i s) as [s1 | e]; cbn [bind]; [apply IH | reflexivity].
Qed.

(** A loop over rows: each body succeeds under the invariant, keeps it
    and writes its own row only.  Then the loop succeeds, rows outside
    the index list are untouched, and each row of the list holds what
    its body wrote. *)
Lemma for_each_rows (Inv : mat -> Prop) (body : nat -> mat -> result mat)
  (l : list nat) :
  (forall i M, In i l -> Inv M ->
     exists M', body i M = Ok M' /\ Inv M'
                /\ forall r k, r <> i -> at2 M' r k = at2 M r k) ->
  NoDup l ->
  forall M, Inv M ->
    exists M', for_each l body M = Ok M' /\ Inv M'
      /\ (forall r k, ~ In r l -> at2 M' r k = at2 M r k)
      /\ (forall i, In i l ->
            exists Mi Mi', Inv Mi /\ body i Mi = Ok Mi'
                           /\ forall k, at2 M' i k = at2 Mi' i k).
Proof.
  induction l as [| i l IH]; intros Hbody Hnd M HM.
  - exists M. split; [reflexivity |]. split; [exact HM |].
    split; [reflexivity |]. intros i [].
  - inversion Hnd as [| ? ? Hnot Hnd']; subst.
    destruct (Hbody i M (or_introl eq_refl) HM) as (M1 & E1 & I1 & O1).
    destruct (IH (fun j N Hj => Hbody j N (or_intror Hj)) Hnd' M1 I1)
      as (M' & E' & I' & O' & W').
    exists M'. split; [cbn [for_each]; rewrite E1; exact E' |].
    split; [exact I' |]. split.
    + intros r k Hr. rewrite O' by (intros H; apply Hr; right; exact H).
      apply O1. intros ->. apply Hr. left. reflexivity.
    + intros j [-> | Hj].
      * exists M, M1. split; [exact HM |]. split; [exact E1 |].
        intros k. apply O'. exact Hnot.
      * apply W'. exact Hj.
Qed.

Section QuadratureProperties.
Variable hermgauss : nat -> vec * vec.

Lemma density_correction_ok (a b : vec) :
  fits (vlen b) (vlen a) ->
  exists c, density_correction a b = Ok c /\ vlen c = vlen a.
Proof.
  intros H. unfold density_correction.
  rewrite vzip_fits_l by exact H. cbn [bind]. eexists. split; reflexivity.
Qed.

(** One iteration of [compute_mean_pce]. *)
Lemma compute_mean_pce_step_spec (a b w_he : vec) (y_he_ab : mat) (sig : vec)
  (m : nat) (M : mat) :
  fits (vlen b) (vlen a) -> vlen sig = vlen a ->
  cols y_he_ab = vlen a -> vlen w_he = rows y_he_ab -> cols M = vlen a ->
  exists M',
    compute_mean_pce_step a b w_he y_he_ab sig m M = Ok M'
    /\ (rows M' = rows M /\ cols M' = vlen a)
    /\ (forall r k, r <> m -> at2 M' r k = at2 M r k)
    /\ (m = 0%nat -> forall k, (k < vlen a)%nat ->
          at2 M' 0 k
          = norm_cdf (- vat b (bidx (vlen b) k) / sqrt (1 + vat a k ^ 2)))
    /\ (m = 1%nat -> forall k, (k < vlen a)%nat ->
          at2 M' 1 k
          = norm_pdf (vat b (bidx (vlen b) k) / sqrt (1 + vat a k ^ 2))
            / sqrt (1 + vat a k ^ 2)).
Proof.
  intros Hb Hsig Hy Hw HM. unfold compute_mean_pce_step.
  destruct m as [| [| m]]; cbn [Nat.eqb].
  - rewrite vzip_fits_l by exact Hb. cbn [bind].
    rewrite assign_row_fits by (left; cbn [vlen vmap]; symmetry; exact HM).
    eexists. split; [reflexivity |]. cbn [rows cols at2 vlen vat vmap].
    split; [auto |]. split.
    + intros r k Hr. apply Nat.eqb_neq in Hr. rewrite Hr. reflexivity.
    + split; [| discriminate]. intros _ k Hk.
      cbn [Nat.eqb]. rewrite !(bidx_lt (vlen a) k Hk). reflexivity.
  - rewrite vzip_fits_l by exact Hb. cbn [bind].
    rewrite vzip_fits_r by (left; reflexivity). cbn [bind].
    rewrite assign_row_fits by (left; cbn [vlen vmap]; symmetry; exact HM).
    eexists. split; [reflexivity |]. cbn [rows cols at2 vlen vat vmap].
    split; [auto |]. split.
    + intros r k Hr. apply Nat.eqb_neq in Hr. rewrite Hr. reflexivity.
    + split; [discriminate |]. intros _ k Hk.
      cbn [Nat.eqb]. rewrite !(bidx_lt (vlen a) k Hk). reflexivity.
  - rewrite (mzip_fits _ _ _ (rows y_he_ab) (vlen a))
      by (cbn [rows cols as_col mmap]; first [rewrite Hw; apply bdim_refl | rewrite Hy; apply bdim_1_l]).
    cbn [bind].
    rewrite vzip_fits_r by (left; cbn [vlen sum_axis0 cols]; exact Hsig).
    cbn [bind].
    destruct (density_correction_ok a b Hb) as (c & Ec & Hc). rewrite Ec.
    cbn [bind].
    rewrite vzip_fits_r by (left; cbn [vlen sum_axis0 cols]; exact Hc).
    cbn [bind].
    rewrite assign_row_fits by (left; cbn [vlen vmap sum_axis0 cols]; symmetry; exact HM).
    eexists. split; [reflexivity |]. cbn [rows cols at2 vlen vat vmap].
    split; [auto |]. split.
    + intros r k Hr. apply Nat.eqb_neq in Hr. rewrite Hr. reflexivity.
    + split; discriminate.
Qed.


Lemma compute_mean_pce_spec (a b w_he : vec) (y_he_ab : mat) (sig : vec)
  (n_pce : nat) :
  fits (vlen b) (vlen a) -> vlen sig = vlen a ->
  cols y_he_ab = vlen a -> vlen w_he = rows y_he_ab ->
  exists mean,
    compute_mean_pce a b n_pce w_he y_he_ab sig = Ok mean
    /\ rows mean = (n_pce + 1)%nat /\ cols mean = vlen a
    /\ forall k, (k < vlen a)%nat ->
         at2 mean 0 k
         = norm_cdf (- vat b (bidx (vlen b) k) / sqrt (1 + vat a k ^ 2))
         /\ ((1 <= n_pce)%nat ->
             at2 mean 1 k
             = norm_pdf (vat b (bidx (vlen b) k) / sqrt (1 + vat a k ^ 2))
               / sqrt (1 + vat a k ^ 2)).
Proof.
  intros Hb Hsig Hy Hw. unfold compute_mean_pce.
  set (Inv := fun M : mat => rows M = (n_pce + 1)%nat /\ cols M = vlen a).
  destruct (for_each_rows Inv (compute_mean_pce_step a b w_he y_he_ab sig)
              (seq 0 (n_pce + 1))) with (M := zeros2 (n_pce + 1) (vlen a))
    as (mean & E & (Hr & Hc) & _ & Hwritten).
  - intros i M _ [HMr HMc].
    destruct (compute_mean_pce_step_spec a b w_he y_he_ab sig i M Hb Hsig Hy Hw HMc)
      as (M' & E' & (Hr' & Hc') & Ho & _).
    exists M'. split; [exact E' |]. split; [| exact Ho].
    split; [rewrite Hr'; exact HMr | exact Hc'].
  - apply seq_NoDup.
  - split; reflexivity.
  - exists mean. split; [exact E |]. split; [exact Hr |]. split; [exact Hc |].
    intros k Hk. split.
    + destruct (Hwritten 0%nat) as (Mi & Mi' & [_ HMc] & Ei & Hv);
        [apply in_seq; lia |].
      destruct (compute_mean_pce_step_spec a b w_he y_he_ab sig 0 Mi Hb Hsig Hy Hw HMc)
        as (M' & E' & _ & _ & H0 & _).
      rewrite Ei in E'. apply Ok_inj in E'. subst M'.
      rewrite Hv. apply H0; [reflexivity | exact Hk].
    + intros Hn.
      destruct (Hwritten 1%nat) as (Mi & Mi' & [_ HMc] & Ei & Hv);
        [apply in_seq; lia |].
      destruct (compute_mean_pce_step_spec a b w_he y_he_ab sig 1 Mi Hb Hsig Hy Hw HMc)
        as (M' & E' & _ & _ & _ & H1).
      rewrite Ei in E'. apply Ok_inj in E'. subst M'.
      rewrite Hv. apply H1; [reflexivity | exact Hk].
Qed.

Lemma cov_integrand_ok (a b : vec) (x_he_ab y_he_ab : mat) (sig : vec) (m : nat) :
  fits (vlen b) (vlen a) -> vlen sig = vlen a ->
  cols y_he_ab = vlen a -> cols x_he_ab = vlen a ->
  rows x_he_ab = rows y_he_ab ->
  exists integrand,
    cov_integrand a b x_he_ab y_he_ab sig m = Ok integrand
    /\ rows integrand = rows y_he_ab /\ cols integrand = vlen a.
Proof.
  intros Hb Hsig Hy Hx Hxy. unfold cov_integrand.
  destruct (m =? 0)%nat.
  - eexists. split; [reflexivity |]. cbn [rows cols mmap]. auto.
  - unfold mzip_row.
    rewrite (mzip_fits _ _ _ (rows y_he_ab) (vlen a))
      by (cbn [rows cols as_row mmap];
          first [apply bdim_1_r | rewrite Hy, Hsig; apply bdim_refl]).
    cbn [bind].
    destruct (density_correction_ok a b Hb) as (c & Ec & Hc). rewrite Ec.
    cbn [bind].
    rewrite (mzip_fits _ _ _ (rows y_he_ab) (vlen a))
      by (cbn [rows cols as_row mmap];
          first [apply bdim_1_r | rewrite Hc; apply bdim_refl]).
    cbn [bind]. eexists. split; [reflexivity |]. cbn [rows cols mmap]. auto.
Qed.

(** One iteration of the inner loop of [compute_cov_pce]: it writes
    the fibre [(m1, m2)] and nothing else. *)
Lemma compute_cov_pce_step_spec (a b : vec) (x_he_ab y_he_ab : mat)
  (w_he sig : vec) (mean integrand_m1 : mat) (m1 m2 : nat) (C : ten) :
  fits (vlen b) (vlen a) -> vlen sig = vlen a ->
  cols y_he_ab = vlen a -> cols x_he_ab = vlen a ->
  rows x_he_ab = rows y_he_ab -> vlen w_he = rows y_he_ab ->
  cols mean = vlen a ->
  rows integrand_m1 = rows y_he_ab -> cols integrand_m1 = vlen a ->
  dim2 C = vlen a ->
  exists C',
    compute_cov_pce_step a b x_he_ab y_he_ab w_he sig mean integrand_m1 m1 m2 C
    = Ok C'
    /\ (dim0 C' = dim0 C /\ dim1 C' = dim1 C /\ dim2 C' = vlen a)
    /\ forall r c k, (r <> m1 \/ c <> m2) -> at3 C' r c k = at3 C r c k.
Proof.
  intros Hb Hsig Hy Hx Hxy Hw Hm HIr HIc HC. unfold compute_cov_pce_step.
  destruct (cov_integrand_ok a b x_he_ab y_he_ab sig m2 Hb Hsig Hy Hx Hxy)
    as (I2 & E2 & HI2r & HI2c).
  rewrite E2. cbn [bind].
  rewrite (mzip_fits _ _ _ (rows y_he_ab) (vlen a))
    by (cbn [rows cols as_col];
        first [rewrite Hw, HIr; apply bdim_refl | rewrite HIc; apply bdim_1_l]).
  cbn [bind].
  rewrite (mzip_fits _ _ _ (rows y_he_ab) (vlen a))
    by (cbn [rows cols];
        first [rewrite HI2r; apply bdim_refl | rewrite HI2c; apply bdim_refl]).
  cbn [bind].
  rewrite assign_fibre_fits by (left; cbn [vlen sum_axis0 cols]; symmetry; exact HC).
  cbn [bind].
  rewrite vzip_fits_r by (left; reflexivity). cbn [bind].
  rewrite vzip_fits_r by (left; cbn [vlen fibre row dim2 cols]; rewrite Hm, HC; reflexivity).
  cbn [bind].
  rewrite assign_fibre_fits by (left; reflexivity).
  eexists. split; [reflexivity |]. cbn [dim0 dim1 dim2 at3].
  split; [auto |].
  intros r c k Hrc.
  replace ((r =? m1) && (c =? m2))%nat with false; [reflexivity |].
  symmetry. apply andb_false_iff.
  destruct Hrc as [H | H]; [left | right]; apply Nat.eqb_neq; exact H.
Qed.


Lemma compute_cov_pce_spec (a b : vec) (n_pce : nat) (x_he_ab y_he_ab : mat)
  (w_he sig : vec) (mean : mat) :
  fits (vlen b) (vlen a) -> vlen sig = vlen a ->
  cols y_he_ab = vlen a -> cols x_he_ab = vlen a ->
  rows x_he_ab = rows y_he_ab -> vlen w_he = rows y_he_ab ->
  cols mean = vlen a ->
  exists C,
    upper_only n_pce (vlen a) C
    /\ compute_cov_pce a b n_pce x_he_ab y_he_ab w_he sig mean
       = Ok (tadd (np_triu C 0) (np_tril (transpose_102 C) (-1))).
Proof.
  intros Hb Hsig Hy Hx Hxy Hw Hm. unfold compute_cov_pce.
  destruct (for_each_invariant (upper_only n_pce (vlen a))
              (fun m1 cov_pce_quad =>
                 let* integrand_m1 := cov_integrand a b x_he_ab y_he_ab sig m1 in
                 for_each (seq m1 (n_pce + 1 - m1))
                   (compute_cov_pce_step a b x_he_ab y_he_ab w_he sig mean
                      integrand_m1 m1) cov_pce_quad)
              (seq 0 (n_pce + 1)) (zeros3 (n_pce + 1) (n_pce + 1) (vlen a)))
    as (C & E & HC).
  - intros m1 C _ HC.
    destruct (cov_integrand_ok a b x_he_ab y_he_ab sig m1 Hb Hsig Hy Hx Hxy)
      as (I1 & E1 & HI1r & HI1c).
    rewrite E1. cbn [bind].
    apply for_each_invariant; [| exact HC].
    intros m2 C2 Hm2 [(H0 & H1 & H2) Hlow]. apply in_seq in Hm2.
    destruct (compute_cov_pce_step_spec a b x_he_ab y_he_ab w_he sig mean I1
                m1 m2 C2 Hb Hsig Hy Hx Hxy Hw Hm HI1r HI1c H2)
      as (C' & E' & (H0' & H1' & H2') & Ho).
    exists C'. split; [exact E' |]. split.
    + rewrite H0', H1', H2'. auto.
    + intros r c k Hrc. rewrite Ho by lia. apply Hlow. exact Hrc.
  - split; [cbn; auto | reflexivity].
  - exists C. split; [exact HC |]. rewrite E. reflexivity.
Qed.

(** The entries of the array after the last line of [compute_cov_pce],
    in terms of the array [C] before it: the masks of [np.triu] and
    [np.tril] compare the second index with the third. *)
Lemma mirrored_entry (C : ten) (r c k : nat) :
  at3 (tadd (np_triu C 0) (np_tril (transpose_102 C) (-1))) r c k
  = if (k <? c)%nat then 0 + at3 C c r k else at3 C r c k + 0.
Proof.
  cbn [at3 tadd np_triu np_tril transpose_102]. unfold np_tri.
  destruct (k <? c)%nat eqn:E.
  - apply Nat.ltb_lt in E.
    replace (Z.of_nat k <=? Z.of_nat c + (0 - 1))%Z with true
      by (symmetry; apply Z.leb_le; lia).
    replace (Z.of_nat k <=? Z.of_nat c + -1)%Z with true
      by (symmetry; apply Z.leb_le; lia).
    reflexivity.
  - apply Nat.ltb_ge in E.
    replace (Z.of_nat k <=? Z.of_nat c + (0 - 1))%Z with false
      by (symmetry; apply Z.leb_gt; lia).
    replace (Z.of_nat k <=? Z.of_nat c + -1)%Z with false
      by (symmetry; apply Z.leb_gt; lia).
    reflexivity.
Qed.

(** The quadrature engine on inputs that broadcast ([b] has the length
    of [a], or length 1) with a positive number of nodes. *)
Lemma mean_cov_pce_quad_spec (A B : array_like) (n_pce n_quad : nat) :
  let a := atleast_1d A in
  let b := atleast_1d B in
  fits (vlen b) (vlen a) -> (1 <= n_quad)%nat ->
  vlen (fst (hermgauss n_quad)) = vlen (snd (hermgauss n_quad)) ->
  exists (mean : mat) (C : ten),
    mean_cov_pce_quad hermgauss A B n_pce n_quad
    = Ok (mean, tadd (np_triu C 0) (np_tril (transpose_102 C) (-1)))
    /\ upper_only n_pce (vlen a) C
    /\ rows mean = (n_pce + 1)%nat /\ cols mean = vlen a
    /\ forall k, (k < vlen a)%nat ->
         at2 mean 0 k
         = norm_cdf (- vat b (bidx (vlen b) k) / sqrt (1 + vat a k ^ 2))
         /\ ((1 <= n_pce)%nat ->
             at2 mean 1 k
             = norm_pdf (vat b (bidx (vlen b) k) / sqrt (1 + vat a k ^ 2))
               / sqrt (1 + vat a k ^ 2)).
Proof.
  intros a b Hb Hq Hh. unfold mean_cov_pce_quad. fold a b.
  unfold gauss_hermite.
  replace (n_quad =? 0)%nat with false by (symmetry; apply Nat.eqb_neq; lia).
  destruct (hermgauss n_quad) as [knots weights]. cbn [fst snd] in Hh.
  cbn [bind].
  set (x_he := vmap _ knots). set (w_he := vmap _ weights).
  assert (Hx : vlen x_he = vlen knots) by reflexivity.
  assert (Hw : vlen w_he = vlen knots) by (cbn [w_he vlen vmap]; symmetry; exact Hh).
  rewrite (mzip_fits _ _ _ (vlen knots) (vlen a))
    by (cbn [rows cols as_row as_col]; first [apply bdim_1_l | apply bdim_1_r]).
  cbn [bind].
  rewrite (mzip_fits _ _ _ (vlen knots) (vlen a))
    by (cbn [rows cols as_row];
        first [apply bdim_1_r | apply bdim_fits_r; exact Hb]).
  cbn [bind].
  rewrite vzip_fits_r by exact Hb. cbn [bind].
  rewrite vzip_fits_r by (left; reflexivity). cbn [bind].
  rewrite (mzip_fits _ _ _ (vlen knots) (vlen a))
    by (cbn [rows cols as_row as_col vlen vmap];
        first [apply bdim_1_l | apply bdim_1_r]).
  cbn [bind].
  rewrite (mzip_fits _ _ _ (vlen knots) (vlen a))
    by (cbn [rows cols as_row vlen vmap];
        first [apply bdim_1_r | apply bdim_refl]).
  cbn [bind].
  rewrite (mzip_fits _ _ _ (vlen knots) (vlen a))
    by (cbn [rows cols as_row]; first [apply bdim_1_l | apply bdim_refl]).
  cbn [bind].
  rewrite (mzip_fits _ _ _ (vlen knots) (vlen a))
    by (cbn [rows cols as_row];
        first [apply bdim_1_r | apply bdim_fits_r; exact Hb]).
  cbn [bind].
  match goal with
  | |- context [compute_mean_pce a b n_pce w_he ?y ?s] =>
      set (y_he_ab := y); set (sig := s)
  end.
  match goal with
  | |- context [compute_cov_pce a b n_pce ?x y_he_ab w_he sig] =>
      set (x_he_ab := x)
  end.
  destruct (compute_mean_pce_spec a b w_he y_he_ab sig n_pce Hb eq_refl eq_refl Hw)
    as (mean & Em & Hr & Hc & Hv).
  rewrite Em. cbn [bind].
  destruct (compute_cov_pce_spec a b n_pce x_he_ab y_he_ab w_he sig mean
              Hb eq_refl eq_refl eq_refl eq_refl Hw Hc)
    as (C & HC & Ec).
  rewrite Ec. cbn [bind].
  exists mean, C. split; [reflexivity |]. split; [exact HC |].
  split; [exact Hr |]. split; [exact Hc |]. exact Hv.
Qed.

End QuadratureProperties.

Section QuadratureErrors.
Variable hermgauss : nat -> vec * vec.

Lemma bdim_incompatible (m n : nat) :
  m <> n -> m <> 1%nat -> n <> 1%nat -> bdim m n = Raise BroadcastError.
Proof.
  intros H1 H2 H3. unfold bdim.
  apply Nat.eqb_neq in H1, H2, H3. rewrite H1, H2, H3. reflexivity.
Qed.

(** Without a length check of its own, the quadrature engine rejects
    lengths that differ only where broadcasting fails: when [b] is
    not of length 1, in the construction of the nodes or at the first
    row assignment. *)
Lemma mean_cov_pce_quad_incompatible (A B : array_like) (n_pce n_quad : nat) :
  vlen (atleast_1d A) <> vlen (atleast_1d B) ->
  vlen (atleast_1d B) <> 1%nat ->
  mean_cov_pce_quad hermgauss A B n_pce n_quad
  = Raise (if (n_quad =? 0)%nat then QuadratureDegree else BroadcastError).
Proof.
  intros Hne Hb1. unfold mean_cov_pce_quad.
  set (a := atleast_1d A) in *. set (b := atleast_1d B) in *.
  unfold gauss_hermite. destruct (n_quad =? 0)%nat; [reflexivity |].
  destruct (hermgauss n_quad) as [knots weights]. cbn [bind].
  set (x_he := vmap _ knots). set (w_he := vmap _ weights).
  rewrite (mzip_fits _ _ _ (vlen knots) (vlen a))
    by (cbn [rows cols as_row as_col]; first [apply bdim_1_l | apply bdim_1_r]).
  cbn [bind].
  destruct (Nat.eq_dec (vlen a) 1) as [Ha1 | Ha1].
  - (* a has length 1: everything broadcasts to the length of b, and
       the first row assignment fails. *)
    rewrite (mzip_fits _ _ _ (vlen knots) (vlen b))
      by (cbn [rows cols as_row];
          first [apply bdim_1_r | rewrite Ha1; apply bdim_1_l]).
    cbn [bind].
    rewrite vzip_fits_l by (right; exact Ha1). cbn [bind].
    rewrite vzip_fits_r by (right; exact Ha1). cbn [bind].
    rewrite (mzip_fits _ _ _ (vlen knots) (vlen a))
      by (cbn [rows cols as_row as_col vlen vmap];
          first [apply bdim_1_l | apply bdim_1_r]).
    cbn [bind].
    rewrite (mzip_fits _ _ _ (vlen knots) (vlen b))
      by (cbn [rows cols as_row vlen vmap];
          first [apply bdim_1_r | rewrite Ha1; apply bdim_1_l]).
    cbn [bind].
    rewrite (mzip_fits _ _ _ (vlen knots) (vlen b))
      by (cbn [rows cols as_row];
          first [apply bdim_1_l | rewrite Ha1; apply bdim_1_l]).
    cbn [bind].
    rewrite (mzip_fits _ _ _ (vlen knots) (vlen b))
      by (cbn [rows cols as_row]; first [apply bdim_1_r | apply bdim_refl]).
    cbn [bind].
    unfold compute_mean_pce.
    replace (n_pce + 1)%nat with (S n_pce) by lia.
    cbn [seq for_each]. unfold compute_mean_pce_step at 1. cbn [Nat.eqb].
    rewrite vzip_fits_r by (right; exact Ha1). cbn [bind].
    unfold assign_row. cbn [vlen vmap cols zeros2].
    replace (vlen b =? vlen a)%nat with false
      by (symmetry; apply Nat.eqb_neq; congruence).
    replace (vlen b =? 1)%nat with false
      by (symmetry; apply Nat.eqb_neq; exact Hb1).
    reflexivity.
  - unfold mzip at 1. cbn [rows cols as_row].
    rewrite bdim_1_r. cbn [bind].
    rewrite bdim_incompatible by assumption. reflexivity.
Qed.

End QuadratureErrors.

(** ** Where the lengths of [a] and [b] are checked *)

(** C1, as the code has it.  For every pair [(a, b)] of unequal length,
    [mean_gauss_pce] and [cov_gauss_pce] raise the shape-mismatch
    error at their first statement, with no output.
    [mean_cov_pce_quad] has no such check and relies on broadcasting:
    when [b] is not of length 1 it fails inside the computation with
    a broadcasting error (after the quadrature rule was requested),
    and when [b] has length 1 it returns a mean array and a covariance
    array of the shape given by [a]. *)
Theorem shape_check_only_in_analytic_engines
  (mvn_cdf : R * R -> R * R -> (R * R) * (R * R) -> R)
  (hermgauss : nat -> vec * vec) (n : nat) (a b : vec) :
  vlen a <> vlen b ->
  mean_gauss_pce n a b = Raise ShapeMismatch
  /\ cov_gauss_pce mvn_cdf n a b = Raise ShapeMismatch
  /\ (forall n_quad : nat, vlen b <> 1%nat ->
        mean_cov_pce_quad hermgauss (Array a) (Array b) n n_quad
        = Raise (if (n_quad =? 0)%nat then QuadratureDegree else BroadcastError))
  /\ (forall n_quad : nat, vlen b = 1%nat -> (1 <= n_quad)%nat ->
        vlen (fst (hermgauss n_quad)) = vlen (snd (hermgauss n_quad)) ->
        exists (mean : mat) (cov : ten),
          mean_cov_pce_quad hermgauss (Array a) (Array b) n n_quad = Ok (mean, cov)
          /\ rows mean = (n + 1)%nat /\ cols mean = vlen a
          /\ dim0 cov = (n + 1)%nat /\ dim1 cov = (n + 1)%nat
          /\ dim2 cov = vlen a).
Proof.
  intros Hne.
  assert (E : (vlen a =? vlen b)%nat = false) by (apply Nat.eqb_neq; exact Hne).
  split; [unfold mean_gauss_pce; rewrite E; reflexivity |].
  split; [unfold cov_gauss_pce; rewrite E; reflexivity |].
  split.
  - intros n_quad Hb. apply mean_cov_pce_quad_incompatible; assumption.
  - intros n_quad Hb Hq Hh.
    destruct (mean_cov_pce_quad_spec hermgauss (Array a) (Array b) n n_quad)
      as (mean & C & E' & ((H0 & H1 & H2) & _) & Hr & Hc & _);
      [right; exact Hb | exact Hq | exact Hh |].
    exists mean. eexists. split; [exact E' |].
    cbn [dim0 dim1 dim2 tadd np_triu]. auto 6.
Qed.

(** C1 at [n = 2], [a = [1, 1]], [b = [0]], two quadrature nodes. *)
Lemma shape_check_only_in_analytic_engines_witness :
  vlen (array [1; 1]) <> vlen (array [0])
  /\ mean_gauss_pce 2 (array [1; 1]) (array [0]) = Raise ShapeMismatch
  /\ cov_gauss_pce mvn_cdf_at_mean 2 (array [1; 1]) (array [0])
     = Raise ShapeMismatch
  /\ exists (mean : mat) (cov : ten),
       mean_cov_pce_quad hermgauss_table (Array (array [1; 1]))
         (Array (array [0])) 2 2 = Ok (mean, cov)
       /\ rows mean = 3%nat /\ cols mean = 2%nat.
Proof.
  assert (Hne : vlen (array [1; 1]) <> vlen (array [0])) by (simpl; lia).
  destruct (shape_check_only_in_analytic_engines mvn_cdf_at_mean hermgauss_table
              2 (array [1; 1]) (array [0]) Hne) as (H1 & H2 & _ & H4).
  split; [exact Hne |]. split; [exact H1 |]. split; [exact H2 |].
  destruct (H4 2%nat eq_refl ltac:(lia) eq_refl)
    as (mean & cov & E & Hr & Hc & _).
  exists mean, cov. auto.
Defined.

(** C1 as stated fails: [mean_cov_pce_quad] returns a result for [a]
    of length 2 and [b] of length 1. *)
Lemma mean_cov_pce_quad_accepts_unequal_lengths :
  exists (mean : mat) (cov : ten),
    vlen (array [1; 1]) <> vlen (array [0])
    /\ mean_cov_pce_quad hermgauss_table (Array (array [1; 1]))
         (Array (array [0])) 1 1 = Ok (mean, cov).
Proof.
  destruct (mean_cov_pce_quad_spec hermgauss_table (Array (array [1; 1]))
              (Array (array [0])) 1 1)
    as (mean & C & E & _); [right; reflexivity | lia | reflexivity |].
  exists mean. eexists. split; [simpl; lia | exact E].
Qed.

(** ** The mirror of the quadrature covariance *)

(** In the quadrature engine the last line of [compute_cov_pce] is
    meant to mirror the computed upper triangle, but [np.triu] and
    [np.tril] mask the last two axes of the three-dimensional array:
    for [i < j <= k] the entry [(j, i, k)] is left at 0 and is not the
    mirror of [(i, j, k)]. *)
Lemma mean_cov_pce_quad_mirror_slip (hermgauss : nat -> vec * vec)
  (a b : vec) (n_pce n_quad : nat) (mean : mat) (cov : ten) :
  vlen a = vlen b -> (1 <= n_quad)%nat ->
  vlen (fst (hermgauss n_quad)) = vlen (snd (hermgauss n_quad)) ->
  mean_cov_pce_quad hermgauss (Array a) (Array b) n_pce n_quad = Ok (mean, cov) ->
  forall i j k : nat, (i < j)%nat -> (j <= k)%nat -> at3 cov j i k = 0.
Proof.
  intros Hlen Hq Hh E i j k Hij Hjk.
  destruct (mean_cov_pce_quad_spec hermgauss (Array a) (Array b) n_pce n_quad)
    as (mean' & C & E' & (_ & Hlow) & _);
    [left; symmetry; exact Hlen | exact Hq | exact Hh |].
  rewrite E in E'. apply Ok_inj in E'.
  assert (Hc : cov = tadd (np_triu C 0) (np_tril (transpose_102 C) (-1)))
    by congruence.
  rewrite Hc, mirrored_entry.
  replace (k <? i)%nat with false by (symmetry; apply Nat.ltb_ge; lia).
  rewrite (Hlow j i k Hij). ring.
Qed.

(** ** Division by zero in the analytic covariance engine *)

(** C8 at [n = 2], [a = [0]], [b = [0]]: the entry [(1, 1)] of the
    returned array is not finite. *)
Lemma cov_gauss_pce_divides_by_zero_witness :
  (2 <= 2)%nat /\ vlen (array [0]) = vlen (array [0])
  /\ (0 < vlen (array [0%R]))%nat /\ vat (array [0]) 0 = 0
  /\ exists cov : xten,
       cov_gauss_pce mvn_cdf_at_mean 2 (array [0]) (array [0]) = Ok cov
       /\ is_finite (xat3 cov 1 1 0) = false.
Proof.
  split; [lia |]. split; [reflexivity |]. split; [simpl; lia |].
  split; [reflexivity |].
  destruct (cov_gauss_pce_divides_by_zero mvn_cdf_at_mean 2 (array [0]) (array [0])
              0%nat ltac:(lia) eq_refl ltac:(simpl; lia) eq_refl)
    as (mean & cov & _ & E & _ & H).
  exists cov. split; [exact E |].
  apply (H 0%nat 0%nat); lia.
Defined.

(** ** The two mean engines at orders 0 and 1 *)

(** C5.  For every pair [(a, b)] of one length, every [n_pce >= 1] and
    every positive number of quadrature nodes (with as many weights as
    nodes), both engines return, and the rows of orders 0 and 1 of the
    quadrature engine's mean array are those of the analytic engine's:
    they are the closed forms in [a] and [b], in which the nodes and
    weights do not occur. *)
Theorem mean_engines_agree_at_orders_0_1 (hermgauss : nat -> vec * vec)
  (a b : vec) (n_pce n_quad : nat) :
  vlen a = vlen b -> (1 <= n_pce)%nat -> (1 <= n_quad)%nat ->
  vlen (fst (hermgauss n_quad)) = vlen (snd (hermgauss n_quad)) ->
  exists (mean_quad : mat) (cov_quad : ten) (mean : mat),
    mean_cov_pce_quad hermgauss (Array a) (Array b) n_pce n_quad
    = Ok (mean_quad, cov_quad)
    /\ mean_gauss_pce n_pce a b = Ok mean
    /\ forall k : nat, (k < vlen a)%nat ->
         at2 mean_quad 0 k = at2 mean 0 k
         /\ at2 mean_quad 1 k = at2 mean 1 k
         /\ at2 mean_quad 0 k = norm_cdf (- vat b k / sqrt (1 + vat a k ^ 2))
         /\ at2 mean_quad 1 k
            = norm_pdf (vat b k / sqrt (1 + vat a k ^ 2)) / sqrt (1 + vat a k ^ 2).
Proof.
  intros Hlen Hn Hq Hh.
  destruct (mean_cov_pce_quad_spec hermgauss (Array a) (Array b) n_pce n_quad)
    as (mean_quad & C & E & _ & _ & _ & Hv);
    [left; symmetry; exact Hlen | exact Hq | exact Hh |].
  cbn [atleast_1d] in Hv.
  pose proof (mean_gauss_pce_ok n_pce a b Hlen) as Em.
  destruct (mean_gauss_pce_entries n_pce a b _ Em) as (_ & _ & Hm).
  exists mean_quad. eexists. eexists.
  split; [exact E |]. split; [exact Em |].
  intros k Hk.
  destruct (Hv k Hk) as [Hq0 Hq1]. specialize (Hq1 Hn).
  destruct (Hm k) as (Hm0 & Hm1 & _). specialize (Hm1 Hn).
  rewrite (bidx_lt (vlen b) k) in Hq0, Hq1 by (rewrite <- Hlen; exact Hk).
  assert (S := sqrt_one_plus_sq_pos (vat a k)). assert (P := sqrt_2PI_pos).
  split; [| split; [| split]].
  - rewrite Hq0, Hm0. f_equal. unfold Rdiv. ring.
  - rewrite Hq1, Hm1. unfold norm_pdf. field. split; lra.
  - exact Hq0.
  - exact Hq1.
Qed.

(** C5 at [a = [1, 2]], [b = [0, 3]], [n_pce = 2], two nodes. *)
Lemma mean_engines_agree_at_orders_0_1_witness :
  vlen (array [1; 2]) = vlen (array [0; 3]) /\ (1 <= 2)%nat
  /\ vlen (fst (hermgauss_table 2)) = vlen (snd (hermgauss_table 2))
  /\ exists (mean_quad : mat) (cov_quad : ten) (mean : mat),
       mean_cov_pce_quad hermgauss_table (Array (array [1; 2]))
         (Array (array [0; 3])) 2 2 = Ok (mean_quad, cov_quad)
       /\ mean_gauss_pce 2 (array [1; 2]) (array [0; 3]) = Ok mean
       /\ at2 mean_quad 0 1 = at2 mean 0 1
       /\ at2 mean_quad 1 1 = at2 mean 1 1.
Proof.
  split; [reflexivity |]. split; [lia |]. split; [reflexivity |].
  destruct (mean_engines_agree_at_orders_0_1 hermgauss_table
              (array [1; 2]) (array [0; 3]) 2 2 eq_refl ltac:(lia) ltac:(lia) eq_refl)
    as (mq & cq & m & E & Em & H).
  exists mq, cq, m. split; [exact E |]. split; [exact Em |].
  destruct (H 1%nat ltac:(simpl; lia)) as (H0 & H1 & _). auto.
Defined.

(** ** Scalar arguments of the quadrature engine *)

(** C10.  [mean_cov_pce_quad] accepts scalar arguments: each is
    promoted to a vector of one entry, so for every positive number of
    quadrature nodes (with as many weights as nodes) the call returns
    a mean array of shape [(n_pce+1, 1)] and a covariance array of
    shape [(n_pce+1, n_pce+1, 1)], the same as for the one-entry
    vectors [[a]] and [[b]]. *)
Theorem mean_cov_pce_quad_scalars (hermgauss : nat -> vec * vec)
  (a b : R) (n_pce n_quad : nat) :
  (1 <= n_quad)%nat ->
  vlen (fst (hermgauss n_quad)) = vlen (snd (hermgauss n_quad)) ->
  exists (mean : mat) (cov : ten),
    mean_cov_pce_quad hermgauss (Scalar a) (Scalar b) n_pce n_quad
    = Ok (mean, cov)
    /\ (rows mean = (n_pce + 1)%nat /\ cols mean = 1%nat)
    /\ (dim0 cov = (n_pce + 1)%nat /\ dim1 cov = (n_pce + 1)%nat
        /\ dim2 cov = 1%nat)
    /\ mean_cov_pce_quad hermgauss (Array (array [a])) (Array (array [b]))
         n_pce n_quad = Ok (mean, cov).
Proof.
  intros Hq Hh.
  destruct (mean_cov_pce_quad_spec hermgauss (Scalar a) (Scalar b) n_pce n_quad)
    as (mean & C & E & ((H0 & H1 & H2) & _) & Hr & Hc & _);
    [left; reflexivity | exact Hq | exact Hh |].
  exists mean. eexists. split; [exact E |].
  split; [split; [exact Hr | exact Hc] |].
  split; [cbn [dim0 dim1 dim2 tadd np_triu]; auto |].
  exact E.
Qed.

(** C10 at [a = 1], [b = 0], [n_pce = 2], two nodes. *)
Lemma mean_cov_pce_quad_scalars_witness :
  (1 <= 2)%nat
  /\ vlen (fst (hermgauss_table 2)) = vlen (snd (hermgauss_table 2))
  /\ exists (mean : mat) (cov : ten),
       mean_cov_pce_quad hermgauss_table (Scalar 1) (Scalar 0) 2 2 = Ok (mean, cov)
       /\ rows mean = 3%nat /\ cols mean = 1%nat
       /\ dim0 cov = 3%nat /\ dim1 cov = 3%nat /\ dim2 cov = 1%nat.
Proof.
  split; [lia |]. split; [reflexivity |].
  destruct (mean_cov_pce_quad_scalars hermgauss_table 1 0 2 2 ltac:(lia) eq_refl)
    as (mean & cov & E & (Hr & Hc) & (H0 & H1 & H2) & _).
  exists mean, cov. auto 8.
Defined.

(** ** The sampling step of the loss simulator *)

Section SamplingProperties.

Variable rng : Type.
Variable next_normal : rng -> R * rng.
Variable np_linalg_cholesky : mat -> option mat.
Variable np_linalg_svd : mat -> mat * vec * mat.

Local Abbreviation drawn := (draws rng next_normal).
Local Abbreviation randn := (randn1 rng next_normal).

Lemma draws_length (n : nat) (g : rng) : length (fst (drawn n g)) = n.
Proof.
  revert g. induction n as [| n IH]; intros g; [reflexivity |].
  cbn [draws]. destruct (next_normal g) as [z g1].
  specialize (IH g1). destruct (drawn n g1) as [zs g2].
  cbn [fst length] in *. rewrite IH. reflexivity.
Qed.

Lemma draws_app (m n : nat) (g : rng) :
  drawn (m + n) g
  = (fst (drawn m g) ++ fst (drawn n (snd (drawn m g))),
     snd (drawn n (snd (drawn m g)))).
Proof.
  revert g. induction m as [| m IH]; intros g.
  - cbn [Nat.add draws fst snd app]. destruct (drawn n g); reflexivity.
  - cbn [Nat.add draws]. destruct (next_normal g) as [z g1].
    rewrite IH. destruct (drawn m g1) as [zs g2]. reflexivity.
Qed.

Lemma draws_nth (n i : nat) (g : rng) :
  (i < n)%nat -> nth i (fst (drawn n g)) 0 = stream rng next_normal g i.
Proof.
  intros Hi. unfold stream.
  replace n with (S i + (n - S i))%nat by lia.
  rewrite draws_app. cbn [fst].
  rewrite app_nth1 by (rewrite draws_length; lia). reflexivity.
Qed.

Lemma randn1_vlen (n : nat) (g : rng) : vlen (fst (randn n g)) = n.
Proof.
  unfold randn1. pose proof (draws_length n g) as H.
  destruct (drawn n g) as [zs g']. exact H.
Qed.

Lemma randn1_snd (n : nat) (g : rng) : snd (randn n g) = snd (drawn n g).
Proof. unfold randn1. destruct (drawn n g) as [zs g']. reflexivity. Qed.

(** Entry [s] of the vector drawn after [m] earlier drawn. *)
Lemma randn1_after (m n s : nat) (g : rng) :
  (s < n)%nat ->
  vat (fst (randn n (snd (drawn m g)))) s = stream rng next_normal g (m + s).
Proof.
  intros Hs. unfold randn1.
  pose proof (draws_app m n g) as E.
  pose proof (draws_nth (m + n) (m + s) g ltac:(lia)) as Hn.
  rewrite E in Hn. cbn [fst] in Hn.
  rewrite app_nth2 in Hn by (rewrite draws_length; lia).
  rewrite draws_length in Hn. replace (m + s - m)%nat with s in Hn by lia.
  destruct (drawn n (snd (drawn m g))) as [zs g']. exact Hn.
Qed.

(** The state of the fallback loop after [t] components. *)
Lemma simulate_vec_eps_pca_loop (n_mc : nat) (u : mat) (eigs : vec)
  (g : rng) (t : nat) :
  (t <= cols u)%nat -> (t <= vlen eigs)%nat -> rows u = vlen eigs ->
  exists vec_eps : mat,
    for_each (seq 0 t)
      (simulate_vec_eps_pca_step rng next_normal n_mc u eigs)
      (zeros2 (vlen eigs) n_mc, g)
    = Ok (vec_eps, snd (drawn (t * n_mc) g))
    /\ rows vec_eps = vlen eigs /\ cols vec_eps = n_mc
    /\ forall r s, (r < vlen eigs)%nat -> (s < n_mc)%nat ->
         at2 vec_eps r s
         = sum_n t (fun idx =>
             sqrt (vat eigs idx) * (at2 u r idx * stream rng next_normal g (idx * n_mc + s))).
Proof.
  intros Hu He Hr. induction t as [| t IH].
  - exists (zeros2 (vlen eigs) n_mc). repeat split.
  - destruct IH as (v & E & Hvr & Hvc & Hv); [lia | lia |].
    rewrite seq_S, for_each_app, E. cbn [bind Nat.add for_each].
    unfold simulate_vec_eps_pca_step.
    pose proof (fun s Hs => randn1_after (t * n_mc) n_mc s g Hs) as Hz.
    pose proof (randn1_vlen n_mc (snd (drawn (t * n_mc) g))) as Hzl.
    pose proof (randn1_snd n_mc (snd (drawn (t * n_mc) g))) as Hg.
    destruct (randn n_mc (snd (drawn (t * n_mc) g))) as [z g'].
    cbn [fst snd] in Hz, Hzl, Hg.
    unfold getcol. replace (t <? cols u)%nat with true
      by (symmetry; apply Nat.ltb_lt; lia).
    cbn [bind].
    rewrite (mzip_fits _ _ _ (vlen eigs) (vlen z))
      by (cbn [rows cols as_col as_row vlen];
          first [rewrite Hr; apply bdim_1_r | apply bdim_1_l]).
    cbn [bind].
    unfold getitem. replace (t <? vlen eigs)%nat with true
      by (symmetry; apply Nat.ltb_lt; lia).
    cbn [bind].
    unfold iadd. cbn [rows cols mmap].
    rewrite Hvr, Hvc, Hzl, !Nat.eqb_refl. cbn [orb andb bind].
    assert (Hg' : g' = snd (drawn (S t * n_mc) g)).
    { rewrite Hg. replace (S t * n_mc)%nat with (t * n_mc + n_mc)%nat by lia.
      rewrite (draws_app (t * n_mc) n_mc g). reflexivity. }
    rewrite Hg'. eexists. split; [reflexivity |].
    cbn [rows cols at2]. split; [reflexivity |]. split; [reflexivity |].
    intros r s Hrs Hs. cbn [sum_n].
    rewrite Hv by assumption. f_equal.
    cbn [as_col as_row rows cols at2 vat vlen mmap].
    rewrite ?Hzl, ?Hr.
    rewrite ?(bidx_lt (vlen eigs) r Hrs), ?(bidx_lt n_mc s Hs).
    rewrite (Hz s Hs). reflexivity.
Qed.

(** C7.  When the Cholesky factorisation of the eps covariance fails
    (the matrix is not positive definite), [simulate_vec_eps] raises
    nothing: it takes the singular value decomposition of the matrix
    and returns the samples
    [mean + sum over the components of
       sqrt(eigenvalue) * eigenvector * standard-normal draw],
    each component with [n_mc] fresh drawn of the generator. *)
Theorem simulate_vec_eps_fallback (n_eps n_mc : nat) (mean_eps : vec)
  (cov_eps : mat) (g : rng) (u vh : mat) (eigs : vec) :
  np_linalg_cholesky cov_eps = None ->
  np_linalg_svd cov_eps = (u, eigs, vh) ->
  rows u = n_eps -> cols u = n_eps -> vlen eigs = n_eps ->
  vlen mean_eps = n_eps ->
  exists vec_eps : mat,
    simulate_vec_eps rng next_normal np_linalg_cholesky np_linalg_svd
      n_eps n_mc mean_eps cov_eps g
    = Ok (vec_eps, snd (drawn (n_eps * n_mc) g))
    /\ rows vec_eps = n_eps /\ cols vec_eps = n_mc
    /\ forall r s : nat, (r < n_eps)%nat -> (s < n_mc)%nat ->
         at2 vec_eps r s
         = vat mean_eps r
           + sum_n n_eps (fun idx =>
               sqrt (vat eigs idx) * at2 u r idx * stream rng next_normal g (idx * n_mc + s)).
Proof.
  intros Hchol Hsvd Hur Huc He Hm. unfold simulate_vec_eps.
  rewrite Hchol, Hsvd.
  destruct (simulate_vec_eps_pca_loop n_mc u eigs g n_eps)
    as (v & E & Hvr & Hvc & Hv); [lia | lia | congruence |].
  rewrite E. cbn [bind].
  unfold iadd. cbn [rows cols as_col].
  rewrite Hvr, Hm, He, Nat.eqb_refl.
  replace ((1 =? cols v) || (1 =? 1))%nat with true
    by (symmetry; apply orb_true_iff; right; reflexivity).
  cbn [orb andb bind].
  eexists. split; [reflexivity |]. cbn [rows cols at2].
  split; [reflexivity |]. split; [exact Hvc |].
  intros r s Hr Hs. rewrite Hv by (rewrite ?He; assumption).
  cbn [as_col at2]. rewrite (bidx_lt n_eps r Hr).
  rewrite Rplus_comm. f_equal.
  clear. induction n_eps as [| n IH]; [reflexivity |].
  cbn [sum_n]. rewrite IH. ring.
Qed.

End SamplingProperties.

(** C7 for a covariance of one entry equal to 0 (positive
    semi-definite, not positive definite), mean [[2]] and three
    Monte-Carlo draws. *)
Lemma simulate_vec_eps_fallback_witness :
  cholesky_1x1 (zeros2 1 1) = None
  /\ svd_1x1 (zeros2 1 1)
     = (mkmat 1 1 (fun _ _ => 1), mkvec 1 (fun _ => 0), mkmat 1 1 (fun _ _ => 1))
  /\ exists vec_eps : mat,
       simulate_vec_eps nat replay_next cholesky_1x1 svd_1x1 1 3 (array [2])
         (zeros2 1 1) 0%nat
       = Ok (vec_eps, snd (draws nat replay_next (1 * 3) 0%nat))
       /\ rows vec_eps = 1%nat /\ cols vec_eps = 3%nat
       /\ at2 vec_eps 0 2
          = 2 + sum_n 1 (fun idx =>
                  sqrt 0 * 1 * stream nat replay_next 0%nat (idx * 3 + 2)).
Proof.
  assert (Hc : cholesky_1x1 (zeros2 1 1) = None).
  { unfold cholesky_1x1. cbn [at2 zeros2].
    destruct (Rlt_dec 0 0) as [H | H]; [exfalso; lra | reflexivity]. }
  split; [exact Hc |]. split; [reflexivity |].
  destruct (simulate_vec_eps_fallback nat replay_next cholesky_1x1 svd_1x1
              1 3 (array [2]) (zeros2 1 1) 0%nat
              (mkmat 1 1 (fun _ _ => 1)) (mkmat 1 1 (fun _ _ => 1))
              (mkvec 1 (fun _ => 0)) Hc eq_refl eq_refl eq_refl eq_refl eq_refl)
    as (v & E & Hr & Hcs & Hv).
  exists v. split; [exact E |]. split; [exact Hr |]. split; [exact Hcs |].
  apply (Hv 0%nat 2%nat); lia.
Defined.

(** ** The early returns of the loss simulator *)

Section EarlyReturns.

Variable special_comb : nat -> nat -> R.
Variable hermgauss : nat -> vec * vec.
Variable rng : Type.
Variable seed_rng : nat -> rng.
Variable next_normal : rng -> R * rng.
Variable np_linalg_cholesky : mat -> option mat.
Variable np_linalg_svd : mat -> mat * vec * mat.

Lemma sum_n_ext (n : nat) (f h : nat -> R) :
  (forall q, (q < n)%nat -> f q = h q) -> sum_n n f = sum_n n h.
Proof.
  intros H. induction n as [| n IH]; [reflexivity |].
  cbn [sum_n]. rewrite IH by (intros; apply H; lia).
  rewrite H by lia. reflexivity.
Qed.

Lemma hermite_products_length (t1 t2 : list nat) (n_mc : nat) (ps : list nat)
  (g : rng) :
  length (fst (hermite_products rng next_normal t1 t2 n_mc ps g)) = length ps.
Proof.
  revert g. induction ps as [| q ps IH]; intros g; [reflexivity |].
  cbn [hermite_products].
  destruct (randn1 rng next_normal n_mc g) as [z1 g1].
  destruct (randn1 rng next_normal n_mc g1) as [z2 g2].
  specialize (IH g2).
  destruct (hermite_products rng next_normal t1 t2 n_mc ps g2) as [rest g3].
  cbn [fst length] in *. rewrite IH. reflexivity.
Qed.

Lemma tab_m1_length (n_pce : nat) :
  length (tab_m1 special_comb n_pce) = eps_size n_pce.
Proof.
  unfold tab_m1, eps_size, compute_multi_index. cbn [fst].
  rewrite length_map, multi_index_rows_enumeration, enumeration_length.
  symmetry. apply eps_size_triangle.
Qed.

(** C9.  The early-return flags are consulted in a fixed order.  When
    [return_eps_full] is set, the call returns the raw simulated eps
    array right after simulating it, whatever [return_loss_full] and
    [return_mean_cov_eps] are: the only stage performed after the
    optional seeding is the full simulation (no Hermite products, no
    moments, no eps sampling).  When [return_eps_full] is not set and
    [return_loss_full] is, the call returns the raw loss after the
    full simulation and the Hermite products, whatever
    [return_mean_cov_eps] is: no moments are computed and no eps is
    sampled. *)
Theorem early_returns_in_order (n_pce n_firms n_mc : nat) (p : params)
  (kw : kwargs) (w : world rng) :
  well_formed n_firms p ->
  let call :=
    compute_loss_pca_pce special_comb hermgauss rng seed_rng next_normal
      np_linalg_cholesky np_linalg_svd n_pce n_firms n_mc p kw w in
  let w0 := seeded rng seed_rng kw w in
  let full := simulate_vec_eps_full special_comb rng next_normal n_pce n_firms n_mc p (gen rng w0) in
  let he :=
    hermite_products rng next_normal (tab_m1 special_comb n_pce) (tab_m2 special_comb n_pce) n_mc
      (seq 0 (eps_size n_pce)) (snd full) in
  (flag (return_eps_full kw) = true ->
     call = Ok (EpsFull (fst full),
                mkworld rng (snd full) (performed rng w0 ++ [SimulateEpsFull])))
  /\ (flag (return_eps_full kw) = false -> flag (return_loss_full kw) = true ->
      exists loss : vec,
        call = Ok (Loss loss,
                   mkworld rng (snd he)
                     (performed rng w0 ++ [SimulateEpsFull; SampleHermiteProducts]))
        /\ vlen loss = n_mc
        /\ forall s : nat, (s < n_mc)%nat ->
             vat loss s
             = sum_n (eps_size n_pce)
                 (fun q => at2 (fst full) q s * vat (nth q (fst he) (zeros1 n_mc)) s)).
Proof.
  intros _ call w0 full he. split.
  - intros He. unfold call, compute_loss_pca_pce. fold (seeded rng seed_rng kw w). fold w0.
    rewrite He. cbn [orb]. fold full.
    destruct full as [v g1]. reflexivity.
  - intros He Hl. unfold call, compute_loss_pca_pce. fold (seeded rng seed_rng kw w). fold w0.
    rewrite He, Hl. cbn [orb]. fold full.
    assert (Hfr : rows (fst full) = eps_size n_pce).
    { unfold full, simulate_vec_eps_full.
      destruct (randn2 rng next_normal n_firms n_mc (gen rng w0)) as [z g'].
      cbn [fst rows]. apply tab_m1_length. }
    assert (Hfc : cols (fst full) = n_mc).
    { unfold full, simulate_vec_eps_full.
      destruct (randn2 rng next_normal n_firms n_mc (gen rng w0)) as [z g'].
      reflexivity. }
    destruct full as [v g1]. cbn [fst snd] in *.
    unfold after_eps_full. cbn [gen note]. fold he.
    pose proof (hermite_products_length (tab_m1 special_comb n_pce) (tab_m2 special_comb n_pce) n_mc
                  (seq 0 (eps_size n_pce)) g1) as Hhl.
    fold he in Hhl. rewrite length_seq in Hhl.
    destruct he as [he_rows g2]. cbn [fst snd] in *.
    rewrite Hl. unfold loss_of.
    rewrite (mzip_fits _ _ _ (eps_size n_pce) n_mc)
      by (cbn [rows cols stack]; rewrite ?Hfr, ?Hfc, ?Hhl; apply bdim_refl).
    cbn [bind]. unfold note. cbn [performed gen]. rewrite <- app_assoc.
    eexists. split; [reflexivity |].
    cbn [vlen sum_axis0 cols rows vat at2 stack].
    split; [reflexivity |].
    intros s Hs. rewrite Hfr, Hfc, Hhl.
    apply sum_n_ext. intros q Hq.
    rewrite !(bidx_lt n_mc s Hs), !(bidx_lt (eps_size n_pce) q Hq). reflexivity.
Qed.

End EarlyReturns.

(** C9 for one firm, order 1 and two draws, with all three flags set
    and a seed: the call returns the raw eps array, and the stages
    performed are the seeding and the full simulation. *)
Lemma early_returns_in_order_witness :
  let p := mkparams (array [1]) (array [1]) (array [0]) (array [1]) (array [1]) in
  let kw := mkkwargs (Some true) (Some true) (Some true) None (Some 7%nat) in
  well_formed 1 p
  /\ flag (return_eps_full kw) = true
  /\ compute_loss_pca_pce special_comb_exact hermgauss_table nat replay_seed replay_next
       cholesky_1x1 svd_1x1 1 1 2 p kw (mkworld nat 0%nat [])
     = Ok (EpsFull (fst (simulate_vec_eps_full special_comb_exact nat replay_next 1 1 2 p 7%nat)),
           mkworld nat (snd (simulate_vec_eps_full special_comb_exact nat replay_next 1 1 2 p 7%nat))
             [SeedGenerator; SimulateEpsFull]).
Proof.
  intros p kw.
  assert (Hwf : well_formed 1 p) by (repeat split).
  split; [exact Hwf |]. split; [reflexivity |].
  exact (proj1 (early_returns_in_order special_comb_exact hermgauss_table nat replay_seed replay_next
                  cholesky_1x1 svd_1x1 1 1 2 p kw (mkworld nat 0%nat []) Hwf)
               eq_refl).
Defined.

(** ** Sums *)

Lemma sum_n_scal (n : nat) (c : R) (f : nat -> R) :
  sum_n n (fun i => c * f i) = c * sum_n n f.
Proof.
  induction n as [| n IH]; simpl; [ring | rewrite IH; ring].
Qed.

Lemma sum_n_plus (n : nat) (f g : nat -> R) :
  sum_n n (fun i => f i + g i) = sum_n n f + sum_n n g.
Proof.
  induction n as [| n IH]; simpl; [ring | rewrite IH; ring].
Qed.

Lemma sum_n_zero (n : nat) (f : nat -> R) :
  (forall i, (i < n)%nat -> f i = 0) -> sum_n n f = 0.
Proof.
  intros H. induction n as [| n IH]; [reflexivity |].
  cbn [sum_n]. rewrite IH by (intros; apply H; lia). rewrite H by lia. ring.
Qed.

(** A sum against the indicator of one index. *)
Lemma sum_n_delta (n k : nat) (f : nat -> R) :
  sum_n n (fun l => (if (k =? l)%nat then 1 else 0) * f l)
  = if (k <? n)%nat then f k else 0.
Proof.
  induction n as [| n IH]; [reflexivity |].
  cbn [sum_n]. rewrite IH.
  destruct (k =? n)%nat eqn:E.
  - apply Nat.eqb_eq in E. subst k.
    rewrite Nat.ltb_irrefl.
    replace (n <? S n)%nat with true by (symmetry; apply Nat.ltb_lt; lia).
    ring.
  - apply Nat.eqb_neq in E.
    destruct (k <? n)%nat eqn:L.
    + apply Nat.ltb_lt in L.
      replace (k <? S n)%nat with true by (symmetry; apply Nat.ltb_lt; lia).
      ring.
    + apply Nat.ltb_ge in L.
      replace (k <? S n)%nat with false by (symmetry; apply Nat.ltb_ge; lia).
      ring.
Qed.

Lemma sum_n_exchange (n m : nat) (f : nat -> nat -> R) :
  sum_n n (fun i => sum_n m (fun j => f i j))
  = sum_n m (fun j => sum_n n (fun i => f i j)).
Proof.
  induction n as [| n IH].
  - cbn [sum_n]. symmetry. apply sum_n_zero. reflexivity.
  - cbn [sum_n]. rewrite IH, <- sum_n_plus. reflexivity.
Qed.

Lemma sum_n_scal_r (n : nat) (c : R) (f : nat -> R) :
  sum_n n (fun i => f i * c) = sum_n n f * c.
Proof.
  rewrite Rmult_comm, <- sum_n_scal. apply sum_n_ext. intros; ring.
Qed.

(** ** Quadrature rules *)

Section GaussLegendreProperties.

Variable leggauss : nat -> vec * vec.

(** The rule on [[a, b]] has the reference rule's numbers of nodes and
    weights and integrates through the affine change of variable
    [t = (b - a) x / 2 + (b + a) / 2]; when the reference rule has
    total weight 2 and first moment 0, every affine function
    [t |-> c t + d] is integrated exactly: the sum is
    [c (b^2 - a^2) / 2 + d (b - a)]. *)
Theorem gauss_legendre_affine_exact (a b : R) (n : nat) :
  (1 <= n)%nat ->
  quadrature (leggauss n) (fun _ => 1) = 2 ->
  quadrature (leggauss n) (fun x => x) = 0 ->
  exists rule : vec * vec,
    gauss_legendre leggauss a b n = Ok rule
    /\ vlen (fst rule) = vlen (fst (leggauss n))
    /\ vlen (snd rule) = vlen (snd (leggauss n))
    /\ (forall f : R -> R,
          quadrature rule f
          = (b - a) / 2
            * quadrature (leggauss n)
                (fun x => f ((b - a) / 2 * x + (b + a) / 2)))
    /\ forall c d : R,
         quadrature rule (fun t => c * t + d)
         = c * (b ^ 2 - a ^ 2) / 2 + d * (b - a).
Proof.
  intros Hn H0 H1. unfold gauss_legendre.
  replace (n =? 0)%nat with false by (symmetry; apply Nat.eqb_neq; lia).
  destruct (leggauss n) as [knots weights]. unfold quadrature in *.
  cbn [fst snd] in *. eexists. split; [reflexivity |].
  cbn [fst snd vlen vat vmap].
  split; [reflexivity |]. split; [reflexivity |].
  assert (Hf : forall f : R -> R,
    sum_n (vlen weights)
      (fun i => 1 / 2 * (b - a) * vat weights i
                * f (1 / 2 * (b - a) * vat knots i + 1 / 2 * (b + a)))
    = (b - a) / 2
      * sum_n (vlen weights)
          (fun i => vat weights i * f ((b - a) / 2 * vat knots i + (b + a) / 2))).
  { intros f. rewrite <- sum_n_scal. apply sum_n_ext. intros i _.
    replace (1 / 2 * (b - a) * vat knots i + 1 / 2 * (b + a))
      with ((b - a) / 2 * vat knots i + (b + a) / 2) by field.
    field. }
  split; [exact Hf |].
  intros c d. rewrite (Hf (fun t => c * t + d)).
  rewrite (sum_n_ext _ _
             (fun i => c * ((b - a) / 2) * (vat weights i * vat knots i)
                       + (c * ((b + a) / 2) + d) * (vat weights i * 1)))
    by (intros i _; ring).
  rewrite sum_n_plus, !sum_n_scal, H0, H1. field.
Qed.

(** On an interval [a <= b] the nodes of the rule lie in [[a, b]]
    whenever the reference nodes lie in [[-1, 1]], and non-negative
    reference weights stay non-negative; the degree 0 is refused. *)
Theorem gauss_legendre_nodes_in_interval (a b : R) (n : nat) :
  a <= b ->
  gauss_legendre leggauss a b 0 = Raise QuadratureDegree
  /\ forall rule : vec * vec,
       gauss_legendre leggauss a b n = Ok rule ->
       (forall i : nat,
          -1 <= vat (fst (leggauss n)) i <= 1 -> a <= vat (fst rule) i <= b)
       /\ (forall i : nat,
             0 <= vat (snd (leggauss n)) i -> 0 <= vat (snd rule) i).
Proof.
  intros Hab. split; [reflexivity |].
  intros rule. unfold gauss_legendre.
  destruct (n =? 0)%nat; [discriminate |].
  destruct (leggauss n) as [knots weights]. intros E.
  apply Ok_inj in E. subst rule. cbn [fst snd vat vmap].
  split.
  - intros i [Hl Hu]. split; nra.
  - intros i Hw. nra.
Qed.

End GaussLegendreProperties.

Lemma sqrt_3_pos : 0 < sqrt 3.
Proof. apply sqrt_lt_R0. lra. Qed.

(** [gauss_legendre_affine_exact] for the two-point rule on [[1, 4]]. *)
Lemma gauss_legendre_affine_exact_witness :
  (1 <= 2)%nat
  /\ quadrature (leggauss_table 2) (fun _ => 1) = 2
  /\ quadrature (leggauss_table 2) (fun x => x) = 0
  /\ exists rule : vec * vec,
       gauss_legendre leggauss_table 1 4 2 = Ok rule
       /\ quadrature rule (fun t => 2 * t + 3) = 2 * (4 ^ 2 - 1 ^ 2) / 2 + 3 * (4 - 1).
Proof.
  assert (H0 : quadrature (leggauss_table 2) (fun _ => 1) = 2)
    by (unfold quadrature; simpl; ring).
  assert (H1 : quadrature (leggauss_table 2) (fun x => x) = 0)
    by (unfold quadrature; simpl; ring).
  split; [lia |]. split; [exact H0 |]. split; [exact H1 |].
  destruct (gauss_legendre_affine_exact leggauss_table 1 4 2 ltac:(lia) H0 H1)
    as (rule & E & _ & _ & _ & H).
  exists rule. split; [exact E |]. apply H.
Defined.

(** [gauss_legendre_nodes_in_interval] for the two-point rule on
    [[1, 4]]. *)
Lemma gauss_legendre_nodes_in_interval_witness :
  1 <= 4
  /\ exists rule : vec * vec,
       gauss_legendre leggauss_table 1 4 2 = Ok rule
       /\ 1 <= vat (fst rule) 0 <= 4.
Proof.
  split; [lra |].
  destruct (gauss_legendre_nodes_in_interval leggauss_table 1 4 2 ltac:(lra))
    as [_ H].
  eexists. split; [reflexivity |].
  apply (H _ eq_refl). cbn [leggauss_table fst array vat nth].
  assert (Hs := sqrt_3_pos).
  assert (H1 : 1 <= sqrt 3).
  { rewrite <- sqrt_1. apply sqrt_le_1; lra. }
  assert (Hi : 0 < / sqrt 3 <= 1).
  { split; [apply Rinv_0_lt_compat; exact Hs |].
    rewrite <- Rinv_1. apply Rinv_le_contravar; lra. }
  lra.
Defined.

Section GaussHermiteProperties.

Variable hermgauss : nat -> vec * vec.

(** The rule of [gauss_hermite] integrates against the standard
    normal density: its sums are those of the physicist's rule after
    the change of variable [x sqrt 2] and the division by [sqrt pi].
    When the library's weights add up to [sqrt pi], the returned
    weights add up to 1, and a physicist's second moment [sqrt pi / 2]
    becomes the variance 1. *)
Theorem gauss_hermite_normalised (n : nat) :
  (1 <= n)%nat ->
  exists rule : vec * vec,
    gauss_hermite hermgauss n = Ok rule
    /\ vlen (fst rule) = vlen (fst (hermgauss n))
    /\ vlen (snd rule) = vlen (snd (hermgauss n))
    /\ (forall f : R -> R,
          quadrature rule f
          = quadrature (hermgauss n) (fun x => f (x * sqrt 2)) / sqrt PI)
    /\ (quadrature (hermgauss n) (fun _ => 1) = sqrt PI ->
        quadrature rule (fun _ => 1) = 1)
    /\ (quadrature (hermgauss n) (fun x => x ^ 2) = sqrt PI / 2 ->
        quadrature rule (fun x => x ^ 2) = 1).
Proof.
  intros Hn. unfold gauss_hermite.
  replace (n =? 0)%nat with false by (symmetry; apply Nat.eqb_neq; lia).
  destruct (hermgauss n) as [knots weights]. unfold quadrature.
  cbn [fst snd]. eexists. split; [reflexivity |].
  cbn [fst snd vlen vat vmap].
  split; [reflexivity |]. split; [reflexivity |].
  assert (Hpi : 0 < sqrt PI) by (apply sqrt_lt_R0, PI_RGT_0).
  assert (Hf : forall f : R -> R,
    sum_n (vlen weights)
      (fun i => vat weights i / sqrt PI * f (vat knots i * sqrt 2))
    = sum_n (vlen weights) (fun i => vat weights i * f (vat knots i * sqrt 2))
      / sqrt PI).
  { intros f. unfold Rdiv at 2. rewrite Rmult_comm, <- sum_n_scal.
    apply sum_n_ext. intros i _. field. lra. }
  split; [exact Hf |]. split.
  - intros H. rewrite (Hf (fun _ => 1)), H. field. lra.
  - intros H. rewrite (Hf (fun x => x ^ 2)).
    rewrite (sum_n_ext _ _ (fun i => 2 * (vat weights i * vat knots i ^ 2))).
    + rewrite sum_n_scal, H. field. lra.
    + intros i _.
      replace ((vat knots i * sqrt 2) ^ 2)
        with (vat knots i ^ 2 * (sqrt 2 * sqrt 2)) by ring.
      rewrite sqrt_sqrt by lra. ring.
Qed.

End GaussHermiteProperties.

(** [gauss_hermite_normalised] for the two-point rule. *)
Lemma gauss_hermite_normalised_witness :
  (1 <= 2)%nat
  /\ exists rule : vec * vec,
       gauss_hermite hermgauss_table 2 = Ok rule
       /\ quadrature rule (fun _ => 1) = 1
       /\ quadrature rule (fun x => x ^ 2) = 1.
Proof.
  split; [lia |].
  destruct (gauss_hermite_normalised hermgauss_table 2 ltac:(lia))
    as (rule & E & _ & _ & _ & H0 & H2).
  exists rule. split; [exact E |].
  assert (Hs : sqrt 2 * sqrt 2 = 2) by (apply sqrt_sqrt; lra).
  assert (Hp : 0 < sqrt 2) by (apply sqrt_lt_R0; lra).
  split.
  - apply H0. unfold quadrature. simpl. field.
  - apply H2. unfold quadrature. simpl.
    replace (/ sqrt 2) with (sqrt 2 / 2) by (field_simplify_eq; lra).
    replace (sqrt 2 / 2 * (sqrt 2 / 2 * 1)) with (sqrt 2 * sqrt 2 / 4) by field.
    replace (- (sqrt 2 / 2) * (- (sqrt 2 / 2) * 1)) with (sqrt 2 * sqrt 2 / 4)
      by field.
    rewrite Hs. field.
Defined.

(** ** The factor from the singular value decomposition *)

(** The Gram matrix of the columns of a product [q r] whose left
    factor has orthonormal columns is that of [r]. *)
Lemma gram_of_qr (n : nat) (b q r : mat) (i j : nat) :
  (forall k c, (k < n)%nat -> (c < n)%nat ->
     at2 b k c = sum_n n (fun l => at2 q k l * at2 r l c)) ->
  (forall l m, (l < n)%nat -> (m < n)%nat ->
     sum_n n (fun k => at2 q k l * at2 q k m) = if (l =? m)%nat then 1 else 0) ->
  (i < n)%nat -> (j < n)%nat ->
  sum_n n (fun k => at2 b k i * at2 b k j)
  = sum_n n (fun k => at2 r k i * at2 r k j).
Proof.
  intros Hb Hq Hi Hj.
  rewrite (sum_n_ext _ _
    (fun k => sum_n n (fun l => sum_n n (fun m =>
       at2 r l i * at2 r m j * (at2 q k l * at2 q k m))))).
  2:{ intros k Hk. rewrite (Hb k i Hk Hi), (Hb k j Hk Hj).
      rewrite <- sum_n_scal_r. apply sum_n_ext. intros l _.
      rewrite <- sum_n_scal. apply sum_n_ext. intros m _. ring. }
  rewrite sum_n_exchange.
  apply sum_n_ext. intros l Hl.
  rewrite sum_n_exchange.
  rewrite (sum_n_ext _ _
    (fun m => (if (l =? m)%nat then 1 else 0) * (at2 r l i * at2 r m j))).
  2:{ intros m Hm. rewrite sum_n_scal, (Hq l m Hl Hm). ring. }
  rewrite sum_n_delta.
  replace (l <? n)%nat with true by (symmetry; apply Nat.ltb_lt; exact Hl).
  reflexivity.
Qed.

Section CholeskyFromSvdProperties.

Variable np_linalg_svd : mat -> mat * vec * mat.
Variable np_linalg_qr : mat -> mat * mat.

(** For a matrix [a] that the decomposition reproduces as
    [u diag(s) u^T] with non-negative [s] (a symmetric positive
    semi-definite [a]), and a factorisation [b = q r] with orthonormal
    columns of [q] and upper triangular [r], the returned matrix [L] is
    lower triangular and is a square-root factor of [a]:
    [L L^T = a]. *)
Theorem cholesky_from_svd_factor (n : nat) (a u vh b q r : mat) (s : vec) :
  np_linalg_svd a = (u, s, vh) ->
  rows u = n -> cols u = n -> vlen s = n ->
  (forall k, (k < n)%nat -> 0 <= vat s k) ->
  (forall i j, (i < n)%nat -> (j < n)%nat ->
     at2 a i j = sum_n n (fun k => at2 u i k * vat s k * at2 u j k)) ->
  matmul (np_diag (vmap sqrt s)) (transpose u) = Ok b ->
  np_linalg_qr b = (q, r) ->
  rows r = n -> cols r = n ->
  (forall k c, (k < n)%nat -> (c < n)%nat ->
     at2 b k c = sum_n n (fun l => at2 q k l * at2 r l c)) ->
  (forall l m, (l < n)%nat -> (m < n)%nat ->
     sum_n n (fun k => at2 q k l * at2 q k m) = if (l =? m)%nat then 1 else 0) ->
  (forall i j, (j < i)%nat -> (i < n)%nat -> at2 r i j = 0) ->
  exists L : mat,
    cholesky_from_svd np_linalg_svd np_linalg_qr a = Ok L
    /\ rows L = n /\ cols L = n
    /\ (forall i j, (i < j)%nat -> (j < n)%nat -> at2 L i j = 0)
    /\ forall i j, (i < n)%nat -> (j < n)%nat ->
         sum_n (cols L) (fun k => at2 L i k * at2 L j k) = at2 a i j.
Proof.
  intros Hsvd Hur Huc Hs Hpos Ha Hb Hqr Hrr Hrc Hbqr Hq Hup.
  unfold cholesky_from_svd. rewrite Hsvd, Hb. cbn [bind]. rewrite Hqr.
  eexists. split; [reflexivity |].
  cbn [rows cols at2 transpose].
  split; [exact Hrc |]. split; [exact Hrr |].
  split; [intros i j Hij Hjn; apply Hup; assumption |].
  intros i j Hi Hj. rewrite Hrr.
  rewrite <- (gram_of_qr n b q r i j Hbqr Hq Hi Hj).
  rewrite (Ha i j Hi Hj).
  unfold matmul in Hb. cbn [rows cols np_diag transpose vlen vmap] in Hb.
  rewrite Hs, Huc, Nat.eqb_refl in Hb. apply Ok_inj in Hb. subst b.
  cbn [at2 np_diag transpose vat vmap].
  apply sum_n_ext. intros k Hk.
  assert (E : forall c : nat,
    sum_n n (fun l => (if (k =? l)%nat then sqrt (vat s k) else 0) * at2 u c l)
    = sqrt (vat s k) * at2 u c k).
  { intros c.
    rewrite (sum_n_ext _ _
      (fun l => (if (k =? l)%nat then 1 else 0) * (sqrt (vat s k) * at2 u c l))).
    - rewrite sum_n_delta.
      replace (k <? n)%nat with true by (symmetry; apply Nat.ltb_lt; exact Hk).
      reflexivity.
    - intros l _. destruct (k =? l)%nat; ring. }
  rewrite !E.
  replace (sqrt (vat s k) * at2 u i k * (sqrt (vat s k) * at2 u j k))
    with (at2 u i k * (sqrt (vat s k) * sqrt (vat s k)) * at2 u j k) by ring.
  rewrite sqrt_sqrt by (apply Hpos; exact Hk). reflexivity.
Qed.

End CholeskyFromSvdProperties.

(** [cholesky_from_svd_factor] for the matrix [[4]]. *)
Lemma cholesky_from_svd_factor_witness :
  exists L : mat,
    cholesky_from_svd svd_1x1 qr_1x1 (mkmat 1 1 (fun _ _ => 4)) = Ok L
    /\ rows L = 1%nat /\ cols L = 1%nat
    /\ at2 L 0 0 * at2 L 0 0 = 4.
Proof.
  pose (a := mkmat 1 1 (fun _ _ => 4)).
  edestruct (cholesky_from_svd_factor svd_1x1 qr_1x1 1 a)
    as (L & E & Hr & Hc & _ & H).
  - reflexivity.
  - reflexivity.
  - reflexivity.
  - reflexivity.
  - intros k _. cbn [vat at2 a]. lra.
  - intros i j _ _. cbn [at2 vat sum_n a]. ring.
  - reflexivity.
  - reflexivity.
  - reflexivity.
  - reflexivity.
  - intros k c Hk Hc'. replace k with 0%nat by lia. replace c with 0%nat by lia.
    cbn [at2 sum_n]. ring.
  - intros l m Hl Hm. replace l with 0%nat by lia. replace m with 0%nat by lia.
    cbn [at2 sum_n Nat.eqb]. ring.
  - intros i j Hij Hi. exfalso. lia.
  - exists L. split; [exact E |]. split; [exact Hr |]. split; [exact Hc |].
    specialize (H 0%nat 0%nat ltac:(lia) ltac:(lia)).
    rewrite Hc in H. cbn [sum_n] in H. cbn [at2 a] in H. lra.
Defined.

(** ** The exposure weights *)

(** [np_ceil] is the least integer not below its argument. *)
Lemma np_ceil_spec (x : R) : IZR (np_ceil x) - 1 < x <= IZR (np_ceil x).
Proof.
  unfold np_ceil. destruct (archimed (- x)) as [H1 H2].
  rewrite minus_IZR. simpl (IZR 1). lra.
Qed.

Lemma np_ceil_unique (x : R) (k : Z) :
  IZR k - 1 < x <= IZR k -> np_ceil x = k.
Proof.
  intros [H1 H2]. destruct (np_ceil_spec x) as [H3 H4].
  assert (A : (np_ceil x - 1 < k)%Z).
  { apply lt_IZR. rewrite minus_IZR. simpl (IZR 1). lra. }
  assert (B : (k - 1 < np_ceil x)%Z).
  { apply lt_IZR. rewrite minus_IZR. simpl (IZR 1). lra. }
  lia.
Qed.

(** The ceiling of a quotient of integers is the integer ceiling
    division. *)
Lemma np_ceil_quotient (p n k : Z) :
  (0 < n)%Z -> ((k - 1) * n < p <= k * n)%Z ->
  np_ceil (IZR p / IZR n) = k.
Proof.
  intros Hn [H1 H2]. apply np_ceil_unique.
  assert (Hn' : 0 < IZR n) by (apply IZR_lt; exact Hn).
  apply IZR_lt in H1. apply IZR_le in H2.
  rewrite mult_IZR, minus_IZR in H1. rewrite mult_IZR in H2. simpl (IZR 1) in H1.
  split.
  - apply (Rmult_lt_reg_r (IZR n)); [exact Hn' |].
    unfold Rdiv. rewrite Rmult_assoc, Rinv_l by lra. lra.
  - apply (Rmult_le_reg_r (IZR n)); [exact Hn' |].
    unfold Rdiv. rewrite Rmult_assoc, Rinv_l by lra. lra.
Qed.

Lemma bucket_bounds (idx n_firms : Z) :
  (0 < n_firms)%Z ->
  ((bucket idx n_firms - 1) * n_firms < 5 * idx <= bucket idx n_firms * n_firms)%Z.
Proof.
  intros Hn. unfold bucket.
  pose proof (Z.div_mod (5 * idx + n_firms - 1) n_firms ltac:(lia)) as E.
  pose proof (Z.mod_pos_bound (5 * idx + n_firms - 1) n_firms Hn) as B.
  nia.
Qed.



(** The weight of [opt = 2] does not decrease along the portfolio. *)
Theorem lambda_lgd_ead_monotone (idx idx' n_firms : Z) :
  (1 <= idx)%Z -> (idx <= idx')%Z -> (0 < n_firms)%Z ->
  exists x x' : R,
    lambda_lgd_ead idx n_firms 2 = inr (Finite x)
    /\ lambda_lgd_ead idx' n_firms 2 = inr (Finite x')
    /\ x <= x'.
Proof.
  intros H1 H2 Hn.
  pose proof (bucket_bounds idx n_firms Hn) as B.
  pose proof (bucket_bounds idx' n_firms Hn) as B'.
  unfold lambda_lgd_ead. cbn [Z.eqb negb orb].
  replace (n_firms =? 0)%Z with false by (symmetry; apply Z.eqb_neq; lia).
  rewrite (np_ceil_quotient _ _ _ Hn B), (np_ceil_quotient _ _ _ Hn B').
  eexists. eexists. split; [reflexivity |]. split; [reflexivity |].
  assert (K : (1 <= bucket idx n_firms <= bucket idx' n_firms)%Z) by nia.
  destruct K as [K1 K2]. apply IZR_le in K1, K2.
  apply pow_incr. lra.
Qed.

Lemma lambda_lgd_ead_monotone_witness :
  (1 <= 2)%Z /\ (2 <= 7)%Z /\ (0 < 10)%Z
  /\ exists x x' : R,
       lambda_lgd_ead 2 10 2 = inr (Finite x)
       /\ lambda_lgd_ead 7 10 2 = inr (Finite x')
       /\ x <= x'.
Proof.
  split; [lia |]. split; [lia |]. split; [lia |].
  apply (lambda_lgd_ead_monotone 2 7 10); lia.
Defined.

(** The check of [opt] comes first: any other option is refused
    whatever the other arguments are, and a portfolio of no firm is a
    [ZeroDivisionError] only under [opt = 2]; under [opt = 1] the
    number of firms is never read. *)
Theorem lambda_lgd_ead_errors (idx n_firms opt : Z) :
  (opt <> 1%Z -> opt <> 2%Z ->
   lambda_lgd_ead idx n_firms opt = inl CheckValueForOpt)
  /\ lambda_lgd_ead idx 0 2 = inl ZeroDivisionError
  /\ lambda_lgd_ead idx n_firms 1 = lambda_lgd_ead idx 0 1.
Proof.
  split; [| split; reflexivity].
  intros H1 H2. unfold lambda_lgd_ead.
  apply Z.eqb_neq in H1, H2. rewrite H1, H2. reflexivity.
Qed.

(** With [opt = 1] the weight of an obligor [idx >= 1] is the positive
    number [x <= 1] with [x^2 * idx = 1]; the index 0 gives an
    infinity, not an exception. *)
Theorem lambda_lgd_ead_homogeneous (idx n_firms : Z) :
  (1 <= idx)%Z ->
  lambda_lgd_ead 0 n_firms 1 = inr Inf
  /\ exists x : R,
       lambda_lgd_ead idx n_firms 1 = inr (Finite x)
       /\ 0 < x <= 1 /\ x * x * IZR idx = 1.
Proof.
  intros H. split; [reflexivity |].
  unfold lambda_lgd_ead, inv_sqrt. cbn [Z.eqb negb orb].
  replace (idx <? 0)%Z with false by (symmetry; apply Z.ltb_ge; lia).
  replace (idx =? 0)%Z with false by (symmetry; apply Z.eqb_neq; lia).
  eexists. split; [reflexivity |].
  assert (Hi : 1 <= IZR idx) by (apply IZR_le; exact H).
  assert (Hs : 1 <= sqrt (IZR idx)).
  { rewrite <- sqrt_1. apply sqrt_le_1; lra. }
  assert (Hsq : sqrt (IZR idx) * sqrt (IZR idx) = IZR idx) by (apply sqrt_sqrt; lra).
  split.
  - split.
    + apply Rdiv_lt_0_compat; lra.
    + apply (Rmult_le_reg_r (sqrt (IZR idx))); [lra |].
      unfold Rdiv. rewrite Rmult_assoc, Rinv_l by lra. lra.
  - rewrite <- Hsq at 3. field. lra.
Qed.

Lemma lambda_lgd_ead_homogeneous_witness :
  (1 <= 4)%Z
  /\ lambda_lgd_ead 0 9 1 = inr Inf
  /\ exists x : R,
       lambda_lgd_ead 4 9 1 = inr (Finite x)
       /\ 0 < x <= 1 /\ x * x * IZR 4 = 1.
Proof.
  split; [lia |]. apply (lambda_lgd_ead_homogeneous 4 9). lia.
Defined.

(** ** The analytic mean engine without dispersion *)

Lemma INR_fact_S (n : nat) : INR (fact (S n)) = INR (S n) * INR (fact n).
Proof. rewrite fact_simpl, mult_INR. reflexivity. Qed.

(** For [a = 0] the variable [a X + b] is the constant [b], and the
    mean of the coefficient of order [i] is the coefficient itself:
    every row of [mean_gauss_pce] is [coef_gauss_pce] at [b]. *)
Theorem mean_gauss_pce_degenerate (n : nat) (a b : vec) :
  vlen a = vlen b ->
  (forall k : nat, (k < vlen a)%nat -> vat a k = 0) ->
  exists mean : mat,
    mean_gauss_pce n a b = Ok mean
    /\ forall i k : nat, (i <= n)%nat -> (k < vlen a)%nat ->
         at2 mean i k = coef_gauss_pce i (vat b k).
Proof.
  intros Hlen Ha. eexists. split; [apply mean_gauss_pce_ok, Hlen |].
  destruct (mean_gauss_pce_entries n a b _ (mean_gauss_pce_ok n a b Hlen))
    as (_ & _ & Hk).
  set (mean := fold_left _ _ _) in *.
  intros i k Hi Hkk. specialize (Hk k). destruct Hk as (H0 & H1 & H2 & H3).
  rewrite (Ha k Hkk) in *.
  assert (Hone : sqrt (1 + 0 ^ 2) = 1).
  { replace (1 + 0 ^ 2) with 1 by ring. apply sqrt_1. }
  rewrite Hone in *.
  assert (Hpi := sqrt_2PI_pos).
  assert (E1 : (1 <= n)%nat -> at2 mean 1 k = coef_gauss_pce 1 (vat b k)).
  { intros H. rewrite (H1 H). unfold coef_gauss_pce, norm_pdf.
    cbn [Nat.eqb Nat.sub hermitenorm fact Nat.mul Nat.add]. simpl INR.
    replace (vat b k / 1) with (vat b k) by field. field. lra. }
  assert (E2 : (2 <= n)%nat -> at2 mean 2 k = coef_gauss_pce 2 (vat b k)).
  { intros H. rewrite (H2 H), (E1 ltac:(lia)). unfold coef_gauss_pce.
    cbn [Nat.eqb Nat.sub hermitenorm fact Nat.mul Nat.add]. simpl INR. field. }
  (* two consecutive orders at a time *)
  assert (Hpair : forall m : nat, (m + 1 <= n)%nat ->
            at2 mean m k = coef_gauss_pce m (vat b k)
            /\ at2 mean (m + 1) k = coef_gauss_pce (m + 1) (vat b k)).
  { induction m as [| m IH]; intros Hm.
    - split.
      + rewrite H0. unfold coef_gauss_pce. cbn [Nat.eqb].
        replace (vat b k / 1) with (vat b k) by field. reflexivity.
      + apply E1. lia.
    - destruct (IH ltac:(lia)) as [IHa IHb]. split.
      + replace (S m) with (m + 1)%nat by lia. exact IHb.
      + destruct m as [| m].
        * apply E2. lia.
        * replace (S (S m) + 1)%nat with (S (S (S m))) by lia.
          rewrite (H3 (S (S (S m))) ltac:(lia) ltac:(lia)).
          replace (S (S (S m)) - 1)%nat with (S m + 1)%nat by lia.
          replace (S (S (S m)) - 2)%nat with (S m) by lia.
          rewrite IHa, IHb.
          replace (S m + 1)%nat with (S (S m)) by lia.
          unfold coef_gauss_pce. cbn [Nat.eqb].
          replace (S (S (S m)) - 1)%nat with (S (S m)) by lia.
          replace (S (S m) - 1)%nat with (S m) by lia.
          replace (S m - 1)%nat with m by lia.
          rewrite (hermitenorm_rec m).
          rewrite (INR_fact_S (S (S m))), (INR_fact_S (S m)).
          assert (F := INR_fact_neq_0 (S m)).
          assert (P1 : 0 < INR (S m)) by (apply lt_0_INR; lia).
          rewrite !S_INR in *. field. repeat split; lra. }
  destruct i as [| i].
  - destruct n as [| n].
    + rewrite H0. unfold coef_gauss_pce. cbn [Nat.eqb].
      replace (vat b k / 1) with (vat b k) by field. reflexivity.
    + apply (Hpair 0%nat). lia.
  - replace (S i) with (i + 1)%nat by lia. apply (Hpair i). lia.
Qed.

(** [mean_gauss_pce_degenerate] at order 3 for [a = [0]], [b = [2]]. *)
Lemma mean_gauss_pce_degenerate_witness :
  exists mean : mat,
    mean_gauss_pce 3 (array [0]) (array [2]) = Ok mean
    /\ at2 mean 3 0 = coef_gauss_pce 3 2.
Proof.
  destruct (mean_gauss_pce_degenerate 3 (array [0]) (array [2]) eq_refl)
    as (mean & E & H).
  - intros k Hk. cbn [vlen array length] in Hk.
    replace k with 0%nat by lia. reflexivity.
  - exists mean. split; [exact E |].
    apply (H 3%nat 0%nat); cbn [vlen array length]; lia.
Defined.

(** ** The rows of the analytic covariance *)

Section AnalyticCovarianceRows.

Variable mvn_cdf : R * R -> R * R -> (R * R) * (R * R) -> R.

Lemma sigma0_loop_shape (a b : vec) (mu_n mu_n2 : mat) (l : list nat) (M : mat) :
  rows (fold_left (sigma0_step a b mu_n mu_n2) l M) = rows M
  /\ cols (fold_left (sigma0_step a b mu_n mu_n2) l M) = cols M.
Proof.
  revert M. induction l as [| i l IH]; intros M; [split; reflexivity |].
  cbn [fold_left]. destruct (IH (sigma0_step a b mu_n mu_n2 M i)) as [Hr Hc].
  rewrite Hr, Hc. split; reflexivity.
Qed.

(** [_sigma0_matrix] has no length check of its own: for vectors of
    unequal length the error is that of its first call of
    [mean_gauss_pce].  For vectors of one length it returns an array
    of shape [(n+1, K)] whose row 0 is the bivariate distribution
    function minus the squared mean of order 0, whose row 1 is
    [mu[1] (mu2[0] - mu[0])], and whose rows [i >= 2] follow the
    three-term recursion of the source. *)
Theorem sigma0_matrix_rows (n : nat) (a b : vec) :
  (vlen a <> vlen b -> _sigma0_matrix mvn_cdf n a b = Raise ShapeMismatch)
  /\ (vlen a = vlen b ->
      exists mu_n mu_n2 sigma0 : mat,
        mean_gauss_pce n a b = Ok mu_n
        /\ mean_gauss_pce n (vmap (fun ak => ak / sqrt (1 + ak ^ 2)) a)
             (vmap2 (fun bk ak => bk / (1 + ak ^ 2)) b a) = Ok mu_n2
        /\ _sigma0_matrix mvn_cdf n a b = Ok sigma0
        /\ rows sigma0 = (n + 1)%nat /\ cols sigma0 = vlen a
        /\ forall k : nat,
             at2 sigma0 0 k
             = mvn_cdf (- vat b k, - vat b k) (0, 0)
                 ((1 + vat a k ^ 2, vat a k ^ 2), (vat a k ^ 2, 1 + vat a k ^ 2))
               - at2 mu_n 0 k ^ 2
             /\ ((1 <= n)%nat ->
                 at2 sigma0 1 k = at2 mu_n 1 k * (at2 mu_n2 0 k - at2 mu_n 0 k))
             /\ (forall i : nat, (2 <= i)%nat -> (i <= n)%nat ->
                 at2 sigma0 i k
                 = (vat b k * at2 sigma0 (i - 1) k
                    - (INR i - 2) / (INR i - 1) * at2 sigma0 (i - 2) k
                    - vat a k ^ 2 * at2 mu_n 1 k * at2 mu_n2 (i - 1) k)
                   / (INR i * (1 + vat a k ^ 2)))).
Proof.
  split.
  - intros Hne. unfold _sigma0_matrix, mean_gauss_pce.
    replace (vlen a =? vlen b)%nat with false
      by (symmetry; apply Nat.eqb_neq; exact Hne).
    reflexivity.
  - intros Hlen.
    assert (Hlen2 : vlen (vmap (fun ak => ak / sqrt (1 + ak ^ 2)) a)
                    = vlen (vmap2 (fun bk ak => bk / (1 + ak ^ 2)) b a))
      by exact Hlen.
    pose proof (mean_gauss_pce_ok n a b Hlen) as E1.
    pose proof (mean_gauss_pce_ok n _ _ Hlen2) as E2.
    destruct (sigma0_matrix_ok mvn_cdf n a b Hlen) as [sigma0 Es].
    eexists. eexists. exists sigma0.
    split; [exact E1 |]. split; [exact E2 |]. split; [exact Es |].
    split; [| split].
    + unfold _sigma0_matrix in Es. rewrite E1, E2 in Es. cbn [bind] in Es.
      destruct (n =? 0)%nat; [apply Ok_inj in Es; subst sigma0; reflexivity |].
      destruct (n =? 1)%nat; [apply Ok_inj in Es; subst sigma0; reflexivity |].
      apply Ok_inj in Es. subst sigma0.
      rewrite (proj1 (sigma0_loop_shape _ _ _ _ _ _)). reflexivity.
    + unfold _sigma0_matrix in Es. rewrite E1, E2 in Es. cbn [bind] in Es.
      destruct (n =? 0)%nat; [apply Ok_inj in Es; subst sigma0; reflexivity |].
      destruct (n =? 1)%nat; [apply Ok_inj in Es; subst sigma0; reflexivity |].
      apply Ok_inj in Es. subst sigma0.
      rewrite (proj2 (sigma0_loop_shape _ _ _ _ _ _)). reflexivity.
    + exact (sigma0_matrix_entries mvn_cdf n a b _ _ sigma0 E1 E2 Es).
Qed.

(** Without dispersion ([a = 0]) the orders [i >= 1] are uncorrelated
    with order 0: the rows 1, ..., n of [_sigma0_matrix] vanish,
    whatever the bivariate distribution function returns. *)
Theorem sigma0_matrix_degenerate (n : nat) (a b : vec) :
  vlen a = vlen b ->
  (forall k : nat, (k < vlen a)%nat -> vat a k = 0) ->
  exists sigma0 : mat,
    _sigma0_matrix mvn_cdf n a b = Ok sigma0
    /\ forall i k : nat, (1 <= i)%nat -> (i <= n)%nat -> (k < vlen a)%nat ->
         at2 sigma0 i k = 0.
Proof.
  intros Hlen Ha.
  assert (Hlen2 : vlen (vmap (fun ak => ak / sqrt (1 + ak ^ 2)) a)
                  = vlen (vmap2 (fun bk ak => bk / (1 + ak ^ 2)) b a))
    by exact Hlen.
  assert (Hmu : exists mu_n mu_n2 : mat,
            mean_gauss_pce n a b = Ok mu_n
            /\ mean_gauss_pce n (vmap (fun ak => ak / sqrt (1 + ak ^ 2)) a)
                 (vmap2 (fun bk ak => bk / (1 + ak ^ 2)) b a) = Ok mu_n2).
  { eexists. eexists. split; [apply mean_gauss_pce_ok, Hlen |].
    apply mean_gauss_pce_ok, Hlen2. }
  destruct Hmu as (mu_n & mu_n2 & E1 & E2).
  destruct (sigma0_matrix_ok mvn_cdf n a b Hlen) as [sigma0 Es].
  exists sigma0. split; [exact Es |].
  intros i k Hi Hn Hk.
  destruct (sigma0_matrix_entries mvn_cdf n a b _ _ sigma0 E1 E2 Es k)
    as (_ & S1 & S2).
  destruct (mean_gauss_pce_entries n a b _ E1) as (_ & _ & M1).
  destruct (mean_gauss_pce_entries n _ _ _ E2) as (_ & _ & M2).
  destruct (M1 k) as (M10 & _). destruct (M2 k) as (M20 & _).
  cbn [vat vmap vmap2] in M20. rewrite (Ha k Hk) in M10, M20, S2.
  assert (Hone : sqrt (1 + 0 ^ 2) = 1).
  { replace (1 + 0 ^ 2) with 1 by ring. apply sqrt_1. }
  assert (Hsame : at2 mu_n2 0 k = at2 mu_n 0 k).
  { rewrite M10, M20, Hone. f_equal. f_equal.
    replace (0 / 1) with 0 by field.
    replace (1 + 0 ^ 2) with 1 by ring. rewrite sqrt_1. field. }
  assert (Z1 : at2 sigma0 1 k = 0).
  { rewrite (S1 ltac:(lia)), Hsame. ring. }
  (* two consecutive rows at a time *)
  assert (Hpair : forall m : nat, (1 <= m)%nat -> (m + 1 <= n)%nat ->
            at2 sigma0 m k = 0 /\ at2 sigma0 (m + 1) k = 0).
  { induction m as [| m IH]; intros Hm1 Hm; [lia |].
    destruct m as [| m].
    - split; [exact Z1 |].
      change (1 + 1)%nat with 2%nat.
      rewrite (S2 2%nat ltac:(lia) ltac:(lia)).
      replace (2 - 1)%nat with 1%nat by lia. rewrite Z1.
      simpl INR. unfold Rdiv. ring.
    - destruct (IH ltac:(lia) ltac:(lia)) as [IHa IHb]. split.
      + replace (S (S m)) with (S m + 1)%nat by lia. exact IHb.
      + rewrite (S2 (S (S m) + 1)%nat ltac:(lia) ltac:(lia)).
        replace (S (S m) + 1 - 1)%nat with (S m + 1)%nat by lia.
        replace (S (S m) + 1 - 2)%nat with (S m) by lia.
        rewrite IHa, IHb. unfold Rdiv. ring. }
  destruct (Nat.eq_dec i 1) as [-> | Hi1]; [exact Z1 |].
  replace i with ((i - 1) + 1)%nat by lia.
  apply (Hpair (i - 1)%nat); lia.
Qed.


End AnalyticCovarianceRows.

(** [sigma0_matrix_degenerate] at [n = 2], [a = [0]], [b = [1]]. *)
Lemma sigma0_matrix_degenerate_witness :
  exists sigma0 : mat,
    _sigma0_matrix mvn_cdf_at_mean 2 (array [0]) (array [1]) = Ok sigma0
    /\ at2 sigma0 2 0 = 0.
Proof.
  destruct (sigma0_matrix_degenerate mvn_cdf_at_mean 2 (array [0]) (array [1])
              eq_refl) as (sigma0 & E & H).
  - intros k Hk. cbn [vlen array length] in Hk.
    replace k with 0%nat by lia. reflexivity.
  - exists sigma0. split; [exact E |].
    apply (H 2%nat 0%nat); cbn [vlen array length]; lia.
Defined.


(** ** The multi-index table as a set *)

Lemma NoDup_flat_map_disjoint {A B : Type} (f : A -> list B) (l : list A) :
  NoDup l ->
  (forall a, In a l -> NoDup (f a)) ->
  (forall a a' x, In a l -> In a' l -> In x (f a) -> In x (f a') -> a = a') ->
  NoDup (flat_map f l).
Proof.
  induction l as [| a l IH]; intros Hl Hf Hd; [constructor |].
  cbn [flat_map]. inversion Hl as [| ? ? Hna Hl']; subst.
  apply NoDup_app.
  - apply Hf. left. reflexivity.
  - apply IH; [exact Hl' | |].
    + intros a' Ha'. apply Hf. right. exact Ha'.
    + intros a1 a2 x H1 H2. apply Hd; right; assumption.
  - intros x Hx Hin. apply in_flat_map in Hin. destruct Hin as (a' & Ha' & Hx').
    assert (a = a')
      by (apply (Hd a a' x);
          [left; reflexivity | right; exact Ha' | exact Hx | exact Hx']).
    subst a'. contradiction.
Qed.

Lemma enumeration_NoDup {C : Type} (g : nat -> nat -> C) (n : nat) :
  NoDup (enumeration g n).
Proof.
  unfold enumeration. apply NoDup_flat_map_disjoint.
  - apply seq_NoDup.
  - intros m _. apply NoDup_map_NoDup_ForallPairs; [| apply seq_NoDup].
    intros x y _ _ E. injection E as E1 _ _. exact E1.
  - intros m m' x Hm Hm' Hx Hx'.
    apply in_map_iff in Hx. destruct Hx as (k & <- & Hk).
    apply in_map_iff in Hx'. destruct Hx' as (k' & E & Hk').
    apply in_seq in Hk, Hk'. injection E as E1 E2 _. lia.
Qed.

(** The table of [compute_multi_index] lists every pair [(m1, m2)]
    of total degree [m1 + m2 <= n_pce] exactly once, with the
    coefficient [int(special.comb(m1 + m2, m1))], and nothing else: no
    triple is repeated, every total degree is at most [n_pce], so that
    [tab_m1 + tab_m2] indexes the [n_pce + 1] rows of a moment array
    within bounds. *)
Theorem compute_multi_index_members (special_comb : nat -> nat -> R)
  (n_pce : nat) :
  let '(m1, m2, m_comb) := compute_multi_index special_comb n_pce in
  NoDup (zip3 m1 m2 m_comb)
  /\ (forall (i j : nat) (c : Z),
        In (i, j, c) (zip3 m1 m2 m_comb)
        <-> (i + j <= n_pce)%nat
            /\ c = python_int (special_comb (i + j)%nat i))
  /\ forall q : nat,
       (nth q m1 0 + nth q m2 0 <= n_pce)%nat.
Proof.
  unfold compute_multi_index.
  rewrite multi_index_rows_enumeration, zip3_columns.
  set (g := fun m k => python_int (special_comb m k)).
  split; [apply enumeration_NoDup |]. split.
  - intros i j c. apply (enumeration_In g).
  - intros q.
    destruct (Nat.lt_ge_cases q (length (enumeration g n_pce))) as [Hq | Hq].
    + rewrite !(nth_map_in _ _ _ (0%nat, 0%nat, 0%Z)) by exact Hq.
      pose proof (nth_In (enumeration g n_pce) (0%nat, 0%nat, 0%Z) Hq) as Hin.
      destruct (nth q (enumeration g n_pce) (0%nat, 0%nat, 0%Z)) as [[i j] c].
      apply enumeration_In in Hin. cbn [fst snd]. lia.
    + rewrite !nth_overflow by (rewrite length_map; exact Hq). lia.
Qed.

(** ** The return paths of the loss simulator *)

Section LossSimulatorPaths.

Variable special_comb : nat -> nat -> R.
Variable hermgauss : nat -> vec * vec.
Variable rng : Type.
Variable seed_rng : nat -> rng.
Variable next_normal : rng -> R * rng.
Variable np_linalg_cholesky : mat -> option mat.
Variable np_linalg_svd : mat -> mat * vec * mat.

Local Abbreviation drawn := (draws rng next_normal).
Local Abbreviation call :=
  (compute_loss_pca_pce special_comb hermgauss rng seed_rng next_normal
     np_linalg_cholesky np_linalg_svd).
Local Abbreviation sample_eps :=
  (simulate_vec_eps rng next_normal np_linalg_cholesky np_linalg_svd).
Local Abbreviation hermite :=
  (hermite_products rng next_normal).

(** The Hermite products take two vectors of [n_mc] draws per
    multi-index. *)
Lemma hermite_products_gen (t1 t2 : list nat) (n_mc : nat) (ps : list nat)
  (g : rng) :
  snd (hermite t1 t2 n_mc ps g) = snd (drawn (length ps * (2 * n_mc)) g).
Proof.
  revert g. induction ps as [| q ps IH]; intros g; [reflexivity |].
  cbn [hermite_products length].
  pose proof (randn1_snd rng next_normal n_mc g) as E1.
  destruct (randn1 rng next_normal n_mc g) as [z1 g1]. cbn [snd] in E1.
  pose proof (randn1_snd rng next_normal n_mc g1) as E2.
  destruct (randn1 rng next_normal n_mc g1) as [z2 g2]. cbn [snd] in E2.
  specialize (IH g2).
  destruct (hermite t1 t2 n_mc ps g2) as [rest g3]. cbn [snd] in *.
  replace (S (length ps) * (2 * n_mc))%nat
    with (n_mc + (n_mc + length ps * (2 * n_mc)))%nat by lia.
  rewrite draws_app. cbn [snd]. rewrite draws_app. cbn [snd].
  rewrite <- E1, <- E2. exact IH.
Qed.

(** When the factorisation succeeds, [simulate_vec_eps] draws one
    array of [n_eps * n_mc] numbers, row by row, and returns
    [mean + L z]: sample [s] of component [r] is
    [mean[r] + sum_l L[r, l] z[l, s]], where [z[l, s]] is the draw
    number [l * n_mc + s]; the same draws, in the same positions, as in
    the fallback. *)
Theorem simulate_vec_eps_cholesky (n_eps n_mc : nat) (mean_eps : vec)
  (cov_eps L : mat) (g : rng) :
  np_linalg_cholesky cov_eps = Some L ->
  rows L = n_eps -> cols L = n_eps -> vlen mean_eps = n_eps ->
  exists vec_eps : mat,
    sample_eps n_eps n_mc mean_eps cov_eps g
    = Ok (vec_eps, snd (drawn (n_eps * n_mc) g))
    /\ rows vec_eps = n_eps /\ cols vec_eps = n_mc
    /\ forall r s : nat, (r < n_eps)%nat -> (s < n_mc)%nat ->
         at2 vec_eps r s
         = vat mean_eps r
           + sum_n n_eps (fun l =>
               at2 L r l * stream rng next_normal g (l * n_mc + s)).
Proof.
  intros Hchol Hr Hc Hm. unfold simulate_vec_eps. rewrite Hchol.
  unfold randn2.
  pose proof (fun i => draws_nth rng next_normal (n_eps * n_mc) i g) as Hnth.
  destruct (drawn (n_eps * n_mc) g) as [zs g'] eqn:Ed. cbn [fst snd] in *.
  unfold matmul. cbn [rows cols]. rewrite Hc, Nat.eqb_refl. cbn [bind].
  rewrite (mzip_fits _ _ _ n_eps n_mc)
    by (cbn [rows cols as_col];
        first [rewrite Hm, Hr; apply bdim_refl | apply bdim_1_l]).
  cbn [bind]. eexists. split; [reflexivity |].
  cbn [rows cols at2 as_col].
  split; [reflexivity |]. split; [reflexivity |].
  intros r s Hrr Hs.
  rewrite Hm, Hr, !(bidx_lt n_eps r Hrr), (bidx_lt n_mc s Hs).
  f_equal. apply sum_n_ext. intros l Hl. f_equal.
  apply Hnth. nia.
Qed.

Section CallPaths.

Variables n_pce n_firms n_mc : nat.
Variable p : params.
Variable kw : kwargs.

Local Abbreviation moments := (get_cov_eps special_comb hermgauss n_pce n_firms p kw).
Local Abbreviation init := (seeded rng seed_rng kw).

Lemma call_without_full (w : world rng) :
  flag (return_eps_full kw) = false -> flag (return_loss_full kw) = false ->
  call n_pce n_firms n_mc p kw w
  = after_eps_full special_comb hermgauss rng next_normal np_linalg_cholesky np_linalg_svd
      n_pce n_firms n_mc p kw None (init w).
Proof.
  intros He Hl. unfold compute_loss_pca_pce. rewrite He, Hl. reflexivity.
Qed.

(** With [return_mean_cov_eps] as the only flag set, the call returns
    the mean and covariance of [get_cov_eps], which do not depend on
    the generator; the Hermite products are nevertheless sampled
    before the flag is consulted, so the generator has advanced by
    [2 n_mc] draws per multi-index when the call returns. *)
Theorem moments_return_consumes_draws (w : world rng) (mean_eps : vec)
  (cov_eps : mat) :
  flag (return_eps_full kw) = false -> flag (return_loss_full kw) = false ->
  flag (return_mean_cov_eps kw) = true ->
  moments = Ok (mean_eps, cov_eps) ->
  call n_pce n_firms n_mc p kw w
  = Ok (MeanCovEps mean_eps cov_eps,
        mkworld rng
          (snd (drawn (eps_size n_pce * (2 * n_mc)) (gen rng (init w))))
          (performed rng (init w) ++ [SampleHermiteProducts; ComputeMoments])).
Proof.
  intros He Hl Hm Hg. rewrite (call_without_full w He Hl).
  unfold after_eps_full.
  pose proof (hermite_products_gen (tab_m1 special_comb n_pce) (tab_m2 special_comb n_pce) n_mc
                (seq 0 (eps_size n_pce)) (gen rng (init w))) as Egen.
  rewrite length_seq in Egen.
  destruct (hermite _ _ _ _ _) as [he_rows g]. cbn [snd] in Egen.
  rewrite Hl, Hm, Hg. cbn [bind]. unfold note. cbn [gen performed].
  rewrite <- app_assoc, Egen. reflexivity.
Qed.

(** A number of quadrature nodes [n_quad = 0] is refused by the
    library's quadrature rule: unless one of the two raw returns is
    requested, the call ends in that [ValueError], whether or not
    [return_mean_cov_eps] is set. *)
Theorem zero_quadrature_nodes_refused (w : world rng) :
  flag (return_eps_full kw) = false -> flag (return_loss_full kw) = false ->
  n_quad kw = Some 0%nat ->
  call n_pce n_firms n_mc p kw w = Raise QuadratureDegree.
Proof.
  intros He Hl Hq. rewrite (call_without_full w He Hl).
  unfold after_eps_full.
  destruct (hermite _ _ _ _ _) as [he_rows g].
  assert (Hg : moments = Raise QuadratureDegree).
  { unfold get_cov_eps. rewrite Hq. reflexivity. }
  rewrite Hl, Hg. destruct (flag (return_mean_cov_eps kw)); reflexivity.
Qed.

(** The default return path.  With no flag set, the Hermite products
    are sampled first, then the moments are computed, then eps is
    sampled from the generator the Hermite products left; when the
    sampling returns an array of shape [(n_eps, n_mc)], the call
    returns the loss [sum_q eps[q, s] * he[q, s]], one entry per
    Monte Carlo sample. *)
Theorem default_path_loss (w : world rng) (mean_eps : vec) (cov_eps vec_eps : mat)
  (g' : rng) :
  flag (return_eps_full kw) = false -> flag (return_loss_full kw) = false ->
  flag (return_mean_cov_eps kw) = false ->
  let he :=
    hermite (tab_m1 special_comb n_pce) (tab_m2 special_comb n_pce) n_mc (seq 0 (eps_size n_pce))
      (gen rng (init w)) in
  moments = Ok (mean_eps, cov_eps) ->
  sample_eps (eps_size n_pce) n_mc mean_eps cov_eps (snd he) = Ok (vec_eps, g') ->
  rows vec_eps = eps_size n_pce -> cols vec_eps = n_mc ->
  exists loss : vec,
    call n_pce n_firms n_mc p kw w
    = Ok (Loss loss,
          mkworld rng g'
            (performed rng (init w)
             ++ [SampleHermiteProducts; ComputeMoments; SampleEps]))
    /\ vlen loss = n_mc
    /\ forall s : nat, (s < n_mc)%nat ->
         vat loss s
         = sum_n (eps_size n_pce)
             (fun q => at2 vec_eps q s * vat (nth q (fst he) (zeros1 n_mc)) s).
Proof.
  intros He Hl Hm he Hg Hs Hvr Hvc. rewrite (call_without_full w He Hl).
  unfold after_eps_full. fold he.
  pose proof (hermite_products_length rng next_normal (tab_m1 special_comb n_pce)
                (tab_m2 special_comb n_pce) n_mc (seq 0 (eps_size n_pce))
                (gen rng (init w))) as Hhl.
  fold he in Hhl. rewrite length_seq in Hhl.
  destruct he as [he_rows g]. cbn [fst snd] in *.
  rewrite Hl, Hm, Hg. cbn [bind]. unfold note. cbn [gen performed].
  rewrite Hs. cbn [bind]. unfold loss_of.
  rewrite (mzip_fits _ _ _ (eps_size n_pce) n_mc)
    by (cbn [rows cols stack]; rewrite ?Hvr, ?Hvc, ?Hhl; apply bdim_refl).
  cbn [bind]. rewrite <- !app_assoc.
  eexists. split; [reflexivity |].
  cbn [vlen sum_axis0 cols rows vat at2 stack].
  split; [reflexivity |].
  intros s Hss. rewrite Hvr, Hvc, Hhl.
  apply sum_n_ext. intros q Hq.
  rewrite !(bidx_lt n_mc s Hss), !(bidx_lt (eps_size n_pce) q Hq). reflexivity.
Qed.

Lemma after_eps_full_returned (v : option mat) (w w' : world rng) :
  gen rng w = gen rng w' ->
  returned
    (after_eps_full special_comb hermgauss rng next_normal np_linalg_cholesky np_linalg_svd
       n_pce n_firms n_mc p kw v w)
  = returned
      (after_eps_full special_comb hermgauss rng next_normal np_linalg_cholesky np_linalg_svd
         n_pce n_firms n_mc p kw v w').
Proof.
  intros E. unfold after_eps_full. rewrite <- E.
  destruct (hermite _ _ _ _ _) as [he_rows g].
  destruct (flag (return_loss_full kw)).
  - destruct v as [v |]; [| reflexivity].
    destruct (loss_of _ _) as [loss | e]; reflexivity.
  - destruct (flag (return_mean_cov_eps kw)).
    + destruct moments as [[m c] | e]; reflexivity.
    + destruct moments as [[m c] | e]; [| reflexivity].
      cbn [bind]. unfold note. cbn [gen].
      destruct (sample_eps _ _ _ _ _) as [[ve g2] | e]; [| reflexivity].
      cbn [bind]. destruct (loss_of _ _) as [loss | e]; reflexivity.
Qed.

(** With a seed among the keyword arguments the generator is reseeded
    before the first draw, on every return path: what the call
    returns does not depend on the state the generator was in. *)
Theorem seed_makes_call_reproducible (s : nat) (w w' : world rng) :
  seed kw = Some s ->
  returned (call n_pce n_firms n_mc p kw w)
  = returned (call n_pce n_firms n_mc p kw w').
Proof.
  intros Hs. unfold compute_loss_pca_pce. rewrite Hs.
  unfold note at 1 3. cbn [gen].
  destruct (flag (return_eps_full kw) || flag (return_loss_full kw)).
  - destruct (simulate_vec_eps_full _ _ _ _ _ _ _ _) as [v g].
    destruct (flag (return_eps_full kw)); [reflexivity |].
    apply after_eps_full_returned. reflexivity.
  - apply after_eps_full_returned. reflexivity.
Qed.

End CallPaths.

End LossSimulatorPaths.

(** [simulate_vec_eps_cholesky] for the covariance [[4]] and two
    samples. *)
Lemma simulate_vec_eps_cholesky_witness :
  exists vec_eps : mat,
    simulate_vec_eps nat replay_next cholesky_1x1 svd_1x1 1 2
      (array [3]) (mkmat 1 1 (fun _ _ => 4)) 0%nat
    = Ok (vec_eps, snd (draws nat replay_next (1 * 2) 0%nat))
    /\ at2 vec_eps 0 1
       = 3 + sum_n 1 (fun l => sqrt 4 * stream nat replay_next 0%nat (l * 2 + 1)).
Proof.
  destruct (simulate_vec_eps_cholesky nat replay_next cholesky_1x1 svd_1x1 1 2
              (array [3]) (mkmat 1 1 (fun _ _ => 4))
              (mkmat 1 1 (fun _ _ => sqrt 4)) 0%nat)
    as (v & E & _ & _ & H).
  - unfold cholesky_1x1. cbn [at2].
    destruct (Rlt_dec 0 4) as [_ | n]; [reflexivity | exfalso; lra].
  - reflexivity.
  - reflexivity.
  - reflexivity.
  - exists v. split; [exact E |].
    apply (H 0%nat 1%nat); lia.
Defined.

(** [moments_return_consumes_draws] for one firm, order 0, three
    Monte Carlo samples and one quadrature node: six draws are
    consumed. *)
Lemma moments_return_consumes_draws_witness :
  let p := mkparams (array [1]) (array [1]) (array [0]) (array [1]) (array [1]) in
  let kw := mkkwargs (Some true) None None (Some 1%nat) None in
  exists (mean_eps : vec) (cov_eps : mat),
    compute_loss_pca_pce special_comb_exact hermgauss_table nat replay_seed replay_next
      cholesky_1x1 svd_1x1 0 1 3 p kw (mkworld nat 0%nat [])
    = Ok (MeanCovEps mean_eps cov_eps,
          mkworld nat 6%nat [SampleHermiteProducts; ComputeMoments]).
Proof.
  intros p kw. eexists. eexists.
  apply (moments_return_consumes_draws special_comb_exact hermgauss_table nat replay_seed replay_next
           cholesky_1x1 svd_1x1 0 1 3 p kw (mkworld nat 0%nat [])).
  - reflexivity.
  - reflexivity.
  - reflexivity.
  - reflexivity.
Defined.

(** [zero_quadrature_nodes_refused] for one firm. *)
Lemma zero_quadrature_nodes_refused_witness :
  let p := mkparams (array [1]) (array [1]) (array [0]) (array [1]) (array [1]) in
  let kw := mkkwargs (Some true) None None (Some 0%nat) None in
  compute_loss_pca_pce special_comb_exact hermgauss_table nat replay_seed replay_next
    cholesky_1x1 svd_1x1 0 1 3 p kw (mkworld nat 0%nat [])
  = Raise QuadratureDegree.
Proof.
  intros p kw.
  apply (zero_quadrature_nodes_refused special_comb_exact hermgauss_table nat replay_seed replay_next
           cholesky_1x1 svd_1x1 0 1 3 p kw (mkworld nat 0%nat []));
    reflexivity.
Defined.

(** [seed_makes_call_reproducible] for two different states of the
    generator. *)
Lemma seed_makes_call_reproducible_witness :
  let p := mkparams (array [1]) (array [1]) (array [0]) (array [1]) (array [1]) in
  let kw := mkkwargs None None (Some true) None (Some 7%nat) in
  returned
    (compute_loss_pca_pce special_comb_exact hermgauss_table nat replay_seed replay_next
       cholesky_1x1 svd_1x1 1 1 2 p kw (mkworld nat 0%nat []))
  = returned
      (compute_loss_pca_pce special_comb_exact hermgauss_table nat replay_seed replay_next
         cholesky_1x1 svd_1x1 1 1 2 p kw (mkworld nat 5%nat [SampleEps])).
Proof.
  intros p kw.
  apply (seed_makes_call_reproducible special_comb_exact hermgauss_table nat replay_seed replay_next
           cholesky_1x1 svd_1x1 1 1 2 p kw 7%nat).
  reflexivity.
Defined.

Lemma cholesky_1x1_refuses (m : mat) :
  at2 m 0 0 <= 0 -> cholesky_1x1 m = None.
Proof.
  intros H. unfold cholesky_1x1.
  destruct (Rlt_dec 0 (at2 m 0 0)) as [Hpos | _]; [exfalso; lra | reflexivity].
Qed.

Lemma scaled_sum_of_zeros (c : R) (n : nat) (f : nat -> R) :
  (forall i, (i < n)%nat -> f i = 0) -> c * sum_n n f <= 0.
Proof.
  intros H. rewrite (sum_n_ext n f (fun _ => 0) H). clear H.
  replace (sum_n n (fun _ => 0)) with 0; [lra |].
  induction n as [| n IH]; [reflexivity |].
  cbn [sum_n]. rewrite <- IH. ring.
Qed.

Lemma zero_weight_term (l x a b c d : R) :
  l = 0 -> l ^ 2 * x * a * b * c * d = 0.
Proof. intros ->. ring. Qed.

(** The moments of a portfolio of one firm of weight 0, at order 0
    with one quadrature node: the covariance of eps is not positive. *)
Lemma zero_weight_moments :
  exists (mean_eps : vec) (cov_eps : mat),
    get_cov_eps special_comb_exact hermgauss_table 0 1
      (mkparams (array [1]) (array [1]) (array [0]) (array [1]) (array [0]))
      (mkkwargs None None None (Some 1%nat) None)
    = Ok (mean_eps, cov_eps)
    /\ vlen mean_eps = 1%nat /\ at2 cov_eps 0 0 <= 0.
Proof.
  eexists. eexists. split; [reflexivity |]. split; [reflexivity |].
  cbn [at2]. apply scaled_sum_of_zeros.
  intros i Hi. replace i with 0%nat by lia.
  apply zero_weight_term. reflexivity.
Qed.

(** The fallback on a covariance of one entry that is not positive,
    for two samples. *)
Lemma fallback_sampling_one_component (mean_eps : vec) (cov_eps : mat) (g : nat) :
  vlen mean_eps = 1%nat -> at2 cov_eps 0 0 <= 0 ->
  exists (vec_eps : mat) (g' : nat),
    simulate_vec_eps nat replay_next cholesky_1x1 svd_1x1 1 2 mean_eps cov_eps g
    = Ok (vec_eps, g')
    /\ rows vec_eps = 1%nat /\ cols vec_eps = 2%nat.
Proof.
  intros Hm Hc. unfold simulate_vec_eps. rewrite (cholesky_1x1_refuses _ Hc).
  cbn [svd_1x1 for_each seq simulate_vec_eps_pca_step randn1 draws replay_next].
  cbn [getcol cols Nat.ltb Nat.leb bind].
  unfold mzip, getitem, iadd.
  cbn [rows cols as_col as_row vlen array length bdim bidx Nat.eqb bind
       Nat.ltb Nat.leb zeros2 mmap orb andb].
  rewrite Hm. cbn [Nat.eqb orb andb bind].
  eexists. eexists. split; [reflexivity |]. split; reflexivity.
Qed.

(** [default_path_loss] for one firm of weight 0, order 0 and two
    Monte Carlo samples: the covariance of eps is [[0]], the
    factorisation fails and eps is sampled by the fallback. *)
Lemma default_path_loss_witness :
  let p := mkparams (array [1]) (array [1]) (array [0]) (array [1]) (array [0]) in
  let kw := mkkwargs None None None (Some 1%nat) None in
  exists (loss : vec) (g' : nat),
    compute_loss_pca_pce special_comb_exact hermgauss_table nat replay_seed replay_next
      cholesky_1x1 svd_1x1 0 1 2 p kw (mkworld nat 0%nat [])
    = Ok (Loss loss,
          mkworld nat g' [SampleHermiteProducts; ComputeMoments; SampleEps])
    /\ vlen loss = 2%nat.
Proof.
  intros p kw.
  destruct zero_weight_moments as (m & c & Eg & Hm & Hc).
  destruct (fallback_sampling_one_component m c
              (snd (hermite_products nat replay_next (tab_m1 special_comb_exact 0) (tab_m2 special_comb_exact 0) 2
                      (seq 0 (eps_size 0)) 0%nat)) Hm Hc)
    as (v & g' & Es & Hr & Hcv).
  destruct (default_path_loss special_comb_exact hermgauss_table nat replay_seed replay_next
              cholesky_1x1 svd_1x1 0 1 2 p kw (mkworld nat 0%nat [])
              m c v g' eq_refl eq_refl eq_refl Eg Es Hr Hcv)
    as (loss & E & Hlen & _).
  exists loss, g'. split; [exact E | exact Hlen].
Defined.

(** ** The entries of the quadrature moment engine *)

(** A loop whose body extends a property of the indices done so far. *)
Lemma for_each_progress {S : Type} (P : list nat -> S -> Prop)
  (body : nat -> S -> result S) (l : list nat) :
  (forall d i t t', In i l -> body i t = Ok t' -> P d t -> P (d ++ [i]) t') ->
  forall (d : list nat) (s s' : S),
    for_each l body s = Ok s' -> P d s -> P (d ++ l) s'.
Proof.
  induction l as [| i l IH]; intros Hbody d s s' E Hs.
  - cbn [for_each] in E. apply Ok_inj in E. subst s'. rewrite app_nil_r. exact Hs.
  - cbn [for_each] in E. destruct (body i s) as [s1 | e] eqn:E1; [| discriminate].
    cbn [bind] in E.
    replace (d ++ i :: l) with ((d ++ [i]) ++ l) by (rewrite <- app_assoc; reflexivity).
    apply (IH (fun d' j t t' Hj => Hbody d' j t t' (or_intror Hj)) _ s1 s' E).
    apply (Hbody d i s s1 (or_introl eq_refl) E1 Hs).
Qed.

Section QuadratureValues.

Variable hermgauss : nat -> vec * vec.

(** The value one iteration of [compute_mean_pce] writes for an order
    [m >= 2]. *)
Lemma compute_mean_pce_step_value (a b w_he : vec) (y_he_ab : mat) (sig : vec)
  (m : nat) (M M' : mat) :
  vlen b = vlen a -> vlen sig = vlen a ->
  cols y_he_ab = vlen a -> vlen w_he = rows y_he_ab -> cols M = vlen a ->
  (2 <= m)%nat ->
  compute_mean_pce_step a b w_he y_he_ab sig m M = Ok M' ->
  forall k, (k < vlen a)%nat ->
    at2 M' m k
    = sum_n (rows y_he_ab)
        (fun q => vat w_he q * hermitenorm (m - 1) (at2 y_he_ab q k))
      * vat sig k
      * exp (- (1 / 2) * vat b k ^ 2 / (vat a k ^ 2 + 1))
      / (sqrt (2 * PI) * INR (fact m)).
Proof.
  intros Hb Hsig Hy Hw HM Hm. unfold compute_mean_pce_step.
  destruct m as [| [| m]]; [lia | lia |]. cbn [Nat.eqb].
  rewrite (mzip_fits _ _ _ (rows y_he_ab) (vlen a))
    by (cbn [rows cols as_col mmap];
        first [rewrite Hw; apply bdim_refl | rewrite Hy; apply bdim_1_l]).
  cbn [bind].
  rewrite vzip_fits_r by (left; cbn [vlen sum_axis0 cols]; exact Hsig).
  cbn [bind].
  unfold density_correction.
  rewrite vzip_fits_l by (left; exact Hb). cbn [bind].
  rewrite vzip_fits_r by (left; reflexivity).
  cbn [bind].
  rewrite assign_row_fits by (left; cbn [vlen vmap sum_axis0 cols]; symmetry; exact HM).
  intros E. apply Ok_inj in E. subst M'. intros k Hk.
  cbn [at2 vat vlen vmap sum_axis0 rows cols as_col mmap].
  rewrite Nat.eqb_refl.
  rewrite ?Hb, ?Hsig, ?Hy, ?Hw, !(bidx_lt (vlen a) k Hk).
  f_equal. f_equal. f_equal.
  apply sum_n_ext. intros q Hq.
  rewrite !(bidx_lt (rows y_he_ab) q Hq). reflexivity.
Qed.


(** The rows of order [m >= 2] of [compute_mean_pce]. *)
Lemma compute_mean_pce_values (a b w_he : vec) (y_he_ab : mat) (sig : vec)
  (n_pce : nat) (mean : mat) :
  vlen b = vlen a -> vlen sig = vlen a ->
  cols y_he_ab = vlen a -> vlen w_he = rows y_he_ab ->
  compute_mean_pce a b n_pce w_he y_he_ab sig = Ok mean ->
  forall m k, (2 <= m)%nat -> (m <= n_pce)%nat -> (k < vlen a)%nat ->
    at2 mean m k
    = sum_n (rows y_he_ab)
        (fun q => vat w_he q * hermitenorm (m - 1) (at2 y_he_ab q k))
      * vat sig k
      * exp (- (1 / 2) * vat b k ^ 2 / (vat a k ^ 2 + 1))
      / (sqrt (2 * PI) * INR (fact m)).
Proof.
  intros Hb Hsig Hy Hw E m k Hm Hn Hk. unfold compute_mean_pce in E.
  pose (F := fun m k =>
    sum_n (rows y_he_ab)
      (fun q => vat w_he q * hermitenorm (m - 1) (at2 y_he_ab q k))
    * vat sig k
    * exp (- (1 / 2) * vat b k ^ 2 / (vat a k ^ 2 + 1))
    / (sqrt (2 * PI) * INR (fact m))).
  pose (P := fun (d : list nat) (M : mat) =>
    cols M = vlen a
    /\ forall m k, In m d -> (2 <= m)%nat -> (k < vlen a)%nat ->
         at2 M m k = F m k).
  assert (HP : P ([] ++ seq 0 (n_pce + 1)) mean).
  { apply (for_each_progress P (compute_mean_pce_step a b w_he y_he_ab sig)
             (seq 0 (n_pce + 1))) with (s := zeros2 (n_pce + 1) (vlen a)).
    - intros d i t t' _ Ei [Hc Hv].
      destruct (compute_mean_pce_step_spec a b w_he y_he_ab sig i t
                  (or_introl Hb) Hsig Hy Hw Hc)
        as (M' & E' & (_ & Hc') & Ho & _).
      rewrite Ei in E'. apply Ok_inj in E'. subst M'.
      split; [exact Hc' |].
      intros m' k' Hin Hm' Hk'.
      destruct (Nat.eq_dec m' i) as [-> | Hne].
      + apply (compute_mean_pce_step_value a b w_he y_he_ab sig i t t'
                 Hb Hsig Hy Hw Hc Hm' Ei k' Hk').
      + rewrite (Ho m' k' Hne). apply Hv; [| exact Hm' | exact Hk'].
        apply in_app_or in Hin. destruct Hin as [Hin | [Hin | []]];
          [exact Hin | exfalso; apply Hne; symmetry; exact Hin].
    - exact E.
    - split; [reflexivity |]. intros m' k' [].
  }
  destruct HP as [_ Hv]. apply Hv; [| exact Hm | exact Hk].
  cbn [app]. apply in_seq. lia.
Qed.

(** The entry [(q, k)] of the integrand of order [m]. *)
Lemma cov_integrand_value (a b : vec) (x_he_ab y_he_ab : mat) (sig : vec)
  (m : nat) (integrand : mat) :
  vlen b = vlen a -> vlen sig = vlen a ->
  cols y_he_ab = vlen a -> cols x_he_ab = vlen a ->
  rows x_he_ab = rows y_he_ab ->
  cov_integrand a b x_he_ab y_he_ab sig m = Ok integrand ->
  forall q k, (q < rows y_he_ab)%nat -> (k < vlen a)%nat ->
    at2 integrand q k
    = if (m =? 0)%nat then coef_gauss_pce 0 (at2 x_he_ab q k)
      else hermitenorm (m - 1) (at2 y_he_ab q k) * vat sig k
           * exp (- (1 / 2) * vat b k ^ 2 / (vat a k ^ 2 + 1))
           / (sqrt (2 * PI) * INR (fact m)).
Proof.
  intros Hb Hsig Hy Hx Hxy. unfold cov_integrand.
  destruct (m =? 0)%nat.
  - intros E. apply Ok_inj in E. subst integrand. reflexivity.
  - unfold mzip_row.
    rewrite (mzip_fits _ _ _ (rows y_he_ab) (vlen a))
      by (cbn [rows cols as_row mmap];
          first [apply bdim_1_r | rewrite Hy, Hsig; apply bdim_refl]).
    cbn [bind]. unfold density_correction.
    rewrite vzip_fits_l by (left; exact Hb). cbn [bind].
    rewrite (mzip_fits _ _ _ (rows y_he_ab) (vlen a))
      by (cbn [rows cols as_row mmap vlen vmap];
          first [apply bdim_1_r | apply bdim_refl]).
    cbn [bind]. intros E. apply Ok_inj in E. subst integrand.
    intros q k Hq Hk.
    cbn [at2 vat vlen vmap rows cols as_row mmap].
    rewrite ?Hb, ?Hsig, ?Hy, !(bidx_lt (vlen a) k Hk),
      !(bidx_lt (rows y_he_ab) q Hq).
    reflexivity.
Qed.

(** The value one iteration of the inner loop of [compute_cov_pce]
    leaves at [(m1, m2)]. *)
Lemma compute_cov_pce_step_value (a b : vec) (x_he_ab y_he_ab : mat)
  (w_he sig : vec) (mean integrand_m1 integrand_m2 : mat) (m1 m2 : nat)
  (C C' : ten) :
  vlen b = vlen a -> vlen sig = vlen a ->
  cols y_he_ab = vlen a -> cols x_he_ab = vlen a ->
  rows x_he_ab = rows y_he_ab -> vlen w_he = rows y_he_ab ->
  cols mean = vlen a ->
  rows integrand_m1 = rows y_he_ab -> cols integrand_m1 = vlen a ->
  dim2 C = vlen a ->
  cov_integrand a b x_he_ab y_he_ab sig m2 = Ok integrand_m2 ->
  compute_cov_pce_step a b x_he_ab y_he_ab w_he sig mean integrand_m1 m1 m2 C
  = Ok C' ->
  forall k, (k < vlen a)%nat ->
    at3 C' m1 m2 k
    = sum_n (rows y_he_ab)
        (fun q => vat w_he q * at2 integrand_m1 q k * at2 integrand_m2 q k)
      - at2 mean m1 k * at2 mean m2 k.
Proof.
  intros Hb Hsig Hy Hx Hxy Hw Hm HIr HIc HC E2. unfold compute_cov_pce_step.
  destruct (cov_integrand_ok a b x_he_ab y_he_ab sig m2 (or_introl Hb) Hsig Hy Hx Hxy)
    as (I2 & E2' & HI2r & HI2c).
  rewrite E2 in E2'. apply Ok_inj in E2'. subst I2.
  rewrite E2. cbn [bind].
  rewrite (mzip_fits _ _ _ (rows y_he_ab) (vlen a))
    by (cbn [rows cols as_col];
        first [rewrite Hw, HIr; apply bdim_refl | rewrite HIc; apply bdim_1_l]).
  cbn [bind].
  rewrite (mzip_fits _ _ _ (rows y_he_ab) (vlen a))
    by (cbn [rows cols];
        first [rewrite HI2r; apply bdim_refl | rewrite HI2c; apply bdim_refl]).
  cbn [bind].
  rewrite assign_fibre_fits by (left; cbn [vlen sum_axis0 cols]; symmetry; exact HC).
  cbn [bind].
  rewrite vzip_fits_r by (left; reflexivity). cbn [bind].
  rewrite vzip_fits_r by (left; cbn [vlen fibre row dim2 cols]; rewrite Hm, HC; reflexivity).
  cbn [bind].
  rewrite assign_fibre_fits by (left; reflexivity).
  intros E. apply Ok_inj in E. subst C'. intros k Hk.
  cbn [at3 dim0 dim1 dim2 vat vlen fibre row sum_axis0 rows cols at2 as_col].
  rewrite !Nat.eqb_refl. cbn [andb].
  rewrite ?HC, ?Hm, ?HIr, ?HIc, ?HI2r, ?HI2c, ?Hw, !(bidx_lt (vlen a) k Hk).
  f_equal.
  apply sum_n_ext. intros q Hq.
  rewrite !(bidx_lt (rows y_he_ab) q Hq). reflexivity.
Qed.

(** The array of [compute_cov_pce]: before the last line its upper
    triangle holds the centred quadrature sums. *)
Lemma compute_cov_pce_values (a b : vec) (n_pce : nat) (x_he_ab y_he_ab : mat)
  (w_he sig : vec) (mean : mat) :
  vlen b = vlen a -> vlen sig = vlen a ->
  cols y_he_ab = vlen a -> cols x_he_ab = vlen a ->
  rows x_he_ab = rows y_he_ab -> vlen w_he = rows y_he_ab ->
  cols mean = vlen a ->
  exists C,
    upper_only n_pce (vlen a) C
    /\ compute_cov_pce a b n_pce x_he_ab y_he_ab w_he sig mean
       = Ok (tadd (np_triu C 0) (np_tril (transpose_102 C) (-1)))
    /\ forall r c k, (r <= c)%nat -> (c <= n_pce)%nat -> (k < vlen a)%nat ->
         at3 C r c k
         = sum_n (rows y_he_ab)
             (fun q => vat w_he q
                       * integrand_entry a b x_he_ab y_he_ab sig r q k
                       * integrand_entry a b x_he_ab y_he_ab sig c q k)
           - at2 mean r k * at2 mean c k.
Proof.
  intros Hb Hsig Hy Hx Hxy Hw Hm. unfold compute_cov_pce.
  set (outer := fun m1 cov_pce_quad =>
         let* integrand_m1 := cov_integrand a b x_he_ab y_he_ab sig m1 in
         for_each (seq m1 (n_pce + 1 - m1))
           (compute_cov_pce_step a b x_he_ab y_he_ab w_he sig mean
              integrand_m1 m1) cov_pce_quad).
  pose (V := fun r c k =>
    sum_n (rows y_he_ab)
      (fun q => vat w_he q
                * integrand_entry a b x_he_ab y_he_ab sig r q k
                * integrand_entry a b x_he_ab y_he_ab sig c q k)
    - at2 mean r k * at2 mean c k).
  assert (Hstep : forall I1 m1 m2 C2, rows I1 = rows y_he_ab -> cols I1 = vlen a ->
            dim2 C2 = vlen a ->
            exists C',
              compute_cov_pce_step a b x_he_ab y_he_ab w_he sig mean I1 m1 m2 C2 = Ok C'
              /\ (dim0 C' = dim0 C2 /\ dim1 C' = dim1 C2 /\ dim2 C' = vlen a)
              /\ forall r c k, (r <> m1 \/ c <> m2) -> at3 C' r c k = at3 C2 r c k).
  { intros I1 m1 m2 C2 HIr HIc H2.
    exact (compute_cov_pce_step_spec a b x_he_ab y_he_ab w_he sig mean I1
             m1 m2 C2 (or_introl Hb) Hsig Hy Hx Hxy Hw Hm HIr HIc H2). }
  destruct (for_each_invariant (upper_only n_pce (vlen a)) outer
              (seq 0 (n_pce + 1)) (zeros3 (n_pce + 1) (n_pce + 1) (vlen a)))
    as (C & E & HC).
  - intros m1 C0 _ HC0. unfold outer.
    destruct (cov_integrand_ok a b x_he_ab y_he_ab sig m1 (or_introl Hb) Hsig Hy Hx Hxy)
      as (I1 & E1 & HI1r & HI1c).
    rewrite E1. cbn [bind].
    apply for_each_invariant; [| exact HC0].
    intros m2 C2 Hm2 [(H0 & H1 & H2) Hlow]. apply in_seq in Hm2.
    destruct (Hstep I1 m1 m2 C2 HI1r HI1c H2) as (C' & E' & (H0' & H1' & H2') & Ho).
    exists C'. split; [exact E' |]. split.
    + rewrite H0', H1', H2'. auto.
    + intros r c k Hrc. rewrite Ho by lia. apply Hlow. exact Hrc.
  - split; [cbn; auto | reflexivity].
  - exists C. split; [exact HC |]. rewrite E. cbn [bind]. split; [reflexivity |].
    pose (Pout := fun (d : list nat) (T : ten) =>
      dim2 T = vlen a
      /\ forall r c k, In r d -> (r <= c)%nat -> (c <= n_pce)%nat ->
           (k < vlen a)%nat -> at3 T r c k = V r c k).
    assert (HP : Pout ([] ++ seq 0 (n_pce + 1)) C).
    { apply (for_each_progress Pout outer (seq 0 (n_pce + 1)))
        with (s := zeros3 (n_pce + 1) (n_pce + 1) (vlen a)); [| exact E |].
      2:{ split; [reflexivity |]. intros r c k []. }
      intros d m1 T T' _ ET [HT2 HTv]. unfold outer in ET.
      destruct (cov_integrand_ok a b x_he_ab y_he_ab sig m1 (or_introl Hb) Hsig Hy Hx Hxy)
        as (I1 & E1 & HI1r & HI1c).
      rewrite E1 in ET. cbn [bind] in ET.
      pose proof (cov_integrand_value a b x_he_ab y_he_ab sig m1 I1
                    Hb Hsig Hy Hx Hxy E1) as HI1v.
      pose (Pin := fun (d2 : list nat) (U : ten) =>
        dim2 U = vlen a
        /\ (forall r c k, In r d -> (r <= c)%nat -> (c <= n_pce)%nat ->
              (k < vlen a)%nat -> at3 U r c k = V r c k)
        /\ forall c k, In c d2 -> (k < vlen a)%nat -> at3 U m1 c k = V m1 c k).
      assert (HPin : Pin ([] ++ seq m1 (n_pce + 1 - m1)) T').
      { apply (for_each_progress Pin
                 (compute_cov_pce_step a b x_he_ab y_he_ab w_he sig mean I1 m1)
                 (seq m1 (n_pce + 1 - m1))) with (s := T); [| exact ET |].
        2:{ split; [exact HT2 |]. split; [exact HTv |]. intros c k []. }
        intros d2 m2 U U' _ EU (HU2 & HUo & HUi).
        destruct (Hstep I1 m1 m2 U HI1r HI1c HU2) as (U'' & EU' & (_ & _ & HU2') & Ho).
        rewrite EU in EU'. apply Ok_inj in EU'. subst U''.
        destruct (cov_integrand_ok a b x_he_ab y_he_ab sig m2 (or_introl Hb) Hsig Hy Hx Hxy)
          as (I2 & E2 & HI2r & HI2c).
        pose proof (cov_integrand_value a b x_he_ab y_he_ab sig m2 I2
                      Hb Hsig Hy Hx Hxy E2) as HI2v.
        assert (Hval : forall k, (k < vlen a)%nat -> at3 U' m1 m2 k = V m1 m2 k).
        { intros k Hk.
          rewrite (compute_cov_pce_step_value a b x_he_ab y_he_ab w_he sig mean
                     I1 I2 m1 m2 U U' Hb Hsig Hy Hx Hxy Hw Hm HI1r HI1c HU2 E2 EU k Hk).
          unfold V. f_equal. apply sum_n_ext. intros q Hq.
          rewrite (HI1v q k Hq Hk), (HI2v q k Hq Hk). reflexivity. }
        split; [exact HU2' |]. split.
        - intros r c k Hr Hrc Hc Hk.
          destruct (Nat.eq_dec r m1) as [-> | Hne1];
            [destruct (Nat.eq_dec c m2) as [-> | Hne2] |].
          + apply Hval. exact Hk.
          + rewrite Ho by (right; exact Hne2). apply HUo; assumption.
          + rewrite Ho by (left; exact Hne1). apply HUo; assumption.
        - intros c k Hc Hk.
          destruct (Nat.eq_dec c m2) as [-> | Hne2]; [apply Hval; exact Hk |].
          rewrite Ho by (right; exact Hne2). apply HUi; [| exact Hk].
          apply in_app_or in Hc. destruct Hc as [Hc | [Hc | []]];
            [exact Hc | exfalso; apply Hne2; symmetry; exact Hc]. }
      destruct HPin as (HT2' & HTo & HTi).
      split; [exact HT2' |].
      intros r c k Hr Hrc Hc Hk.
      apply in_app_or in Hr. destruct Hr as [Hr | [<- | []]].
      - apply HTo; assumption.
      - apply HTi; [| exact Hk]. cbn [app]. apply in_seq. lia. }
    destruct HP as [_ Hv]. intros r c k Hrc Hc Hk.
    apply Hv; [| exact Hrc | exact Hc | exact Hk].
    cbn [app]. apply in_seq. lia.
Qed.

(** The quadrature engine on vectors of one length, entry by entry. *)
Lemma mean_cov_pce_quad_full (a b : vec) (n_pce n_quad : nat) :
  vlen a = vlen b -> (1 <= n_quad)%nat ->
  vlen (fst (hermgauss n_quad)) = vlen (snd (hermgauss n_quad)) ->
  let Q := vlen (fst (hermgauss n_quad)) in
  let x := fun q => vat (fst (hermgauss n_quad)) q * sqrt 2 in
  let w := fun q => vat (snd (hermgauss n_quad)) q / sqrt PI in
  exists (mean : mat) (C : ten),
    mean_cov_pce_quad hermgauss (Array a) (Array b) n_pce n_quad
    = Ok (mean, tadd (np_triu C 0) (np_tril (transpose_102 C) (-1)))
    /\ upper_only n_pce (vlen a) C
    /\ (rows mean = (n_pce + 1)%nat /\ cols mean = vlen a)
    /\ (forall k, (k < vlen a)%nat ->
          at2 mean 0 k = norm_cdf (- vat b k / sqrt (1 + vat a k ^ 2))
          /\ ((1 <= n_pce)%nat ->
              at2 mean 1 k
              = norm_pdf (vat b k / sqrt (1 + vat a k ^ 2))
                / sqrt (1 + vat a k ^ 2)))
    /\ (forall m k, (2 <= m)%nat -> (m <= n_pce)%nat -> (k < vlen a)%nat ->
          at2 mean m k
          = sum_n Q (fun q => w q * hermitenorm (m - 1) (quad_shifted_node a b (x q) k))
            * (1 / sqrt (1 + vat a k ^ 2))
            * exp (- (1 / 2) * vat b k ^ 2 / (vat a k ^ 2 + 1))
            / (sqrt (2 * PI) * INR (fact m)))
    /\ forall r c k, (r <= c)%nat -> (c <= n_pce)%nat -> (k < vlen a)%nat ->
         at3 C r c k
         = sum_n Q (fun q => w q * quad_integrand a b (x q) r k
                                 * quad_integrand a b (x q) c k)
           - at2 mean r k * at2 mean c k.
Proof.
  intros Hlen Hq Hh Q x w. unfold mean_cov_pce_quad. cbn [atleast_1d].
  assert (Hb : fits (vlen b) (vlen a)) by (left; symmetry; exact Hlen).
  assert (Hba : vlen b = vlen a) by (symmetry; exact Hlen).
  unfold gauss_hermite.
  replace (n_quad =? 0)%nat with false by (symmetry; apply Nat.eqb_neq; lia).
  subst Q x w.
  destruct (hermgauss n_quad) as [knots weights]. cbn [fst snd] in *.
  cbn [bind].
  set (x_he := vmap _ knots). set (w_he := vmap _ weights).
  assert (Hw : vlen w_he = vlen knots) by (cbn [w_he vlen vmap]; symmetry; exact Hh).
  rewrite (mzip_fits _ _ _ (vlen knots) (vlen a))
    by (cbn [rows cols as_row as_col]; first [apply bdim_1_l | apply bdim_1_r]).
  cbn [bind].
  rewrite (mzip_fits _ _ _ (vlen knots) (vlen a))
    by (cbn [rows cols as_row];
        first [apply bdim_1_r | apply bdim_fits_r; exact Hb]).
  cbn [bind].
  rewrite vzip_fits_r by exact Hb. cbn [bind].
  rewrite vzip_fits_r by (left; reflexivity). cbn [bind].
  rewrite (mzip_fits _ _ _ (vlen knots) (vlen a))
    by (cbn [rows cols as_row as_col vlen vmap];
        first [apply bdim_1_l | apply bdim_1_r]).
  cbn [bind].
  rewrite (mzip_fits _ _ _ (vlen knots) (vlen a))
    by (cbn [rows cols as_row vlen vmap];
        first [apply bdim_1_r | apply bdim_refl]).
  cbn [bind].
  rewrite (mzip_fits _ _ _ (vlen knots) (vlen a))
    by (cbn [rows cols as_row]; first [apply bdim_1_l | apply bdim_refl]).
  cbn [bind].
  rewrite (mzip_fits _ _ _ (vlen knots) (vlen a))
    by (cbn [rows cols as_row];
        first [apply bdim_1_r | apply bdim_fits_r; exact Hb]).
  cbn [bind].
  match goal with
  | |- context [compute_mean_pce a b n_pce w_he ?y ?s] =>
      set (y_he_ab := y); set (sig := s)
  end.
  match goal with
  | |- context [compute_cov_pce a b n_pce ?x y_he_ab w_he sig] =>
      set (x_he_ab := x)
  end.
  assert (Hxe : forall q k, (q < vlen knots)%nat -> (k < vlen a)%nat ->
            at2 x_he_ab q k = vat a k * (vat knots q * sqrt 2) + vat b k).
  { intros q k Hq' Hk. unfold x_he_ab.
    cbn [at2 rows cols as_row as_col vat vlen vmap x_he].
    rewrite ?Hba, ?bidx_1, !(bidx_lt (vlen a) k Hk), !(bidx_lt (vlen knots) q Hq').
    reflexivity. }
  assert (Hye : forall q k, (q < vlen knots)%nat -> (k < vlen a)%nat ->
            at2 y_he_ab q k = quad_shifted_node a b (vat knots q * sqrt 2) k).
  { intros q k Hq' Hk. unfold y_he_ab, quad_shifted_node.
    cbn [at2 rows cols as_row as_col vat vlen vmap x_he].
    rewrite ?Hba, ?bidx_1, !(bidx_lt (vlen a) k Hk), !(bidx_lt (vlen knots) q Hq').
    reflexivity. }
  destruct (compute_mean_pce_spec a b w_he y_he_ab sig n_pce Hb eq_refl eq_refl Hw)
    as (mean & Em & Hr & Hc & Hv).
  rewrite Em. cbn [bind].
  destruct (compute_cov_pce_values a b n_pce x_he_ab y_he_ab w_he sig mean
              Hba eq_refl eq_refl eq_refl eq_refl Hw Hc)
    as (C & HC & Ec & HCv).
  rewrite Ec. cbn [bind].
  exists mean, C. split; [reflexivity |]. split; [exact HC |].
  split; [split; [exact Hr | exact Hc] |]. split; [| split].
  - intros k Hk. destruct (Hv k Hk) as [H0 H1].
    rewrite (bidx_lt (vlen b) k) in H0, H1 by (rewrite Hba; exact Hk).
    split; [exact H0 | exact H1].
  - intros m k Hm Hn Hk.
    rewrite (compute_mean_pce_values a b w_he y_he_ab sig n_pce mean
               Hba eq_refl eq_refl Hw Em m k Hm Hn Hk).
    change (rows y_he_ab) with (vlen knots).
    f_equal. f_equal. f_equal.
    apply sum_n_ext. intros q Hq'. rewrite (Hye q k Hq' Hk). reflexivity.
  - intros r c k Hrc Hcn Hk. rewrite (HCv r c k Hrc Hcn Hk).
    change (rows y_he_ab) with (vlen knots).
    f_equal. apply sum_n_ext. intros q Hq'.
    assert (Hie : forall m, integrand_entry a b x_he_ab y_he_ab sig m q k
                            = quad_integrand a b (vat knots q * sqrt 2) m k).
    { intros m. unfold integrand_entry, quad_integrand.
      rewrite (Hxe q k Hq' Hk), (Hye q k Hq' Hk). reflexivity. }
    rewrite !Hie. reflexivity.
Qed.

(** The rows of order [m >= 2] of the mean returned by
    [mean_cov_pce_quad], for vectors of one length: the quadrature sum
    of the Hermite polynomial of degree [m - 1] at the shifted nodes,
    times [1 / sqrt (1 + a^2)], the density correction and
    [1 / (sqrt (2 pi) m!)]. *)
Theorem mean_cov_pce_quad_mean_orders (a b : vec) (n_pce n_quad : nat) :
  vlen a = vlen b -> (1 <= n_quad)%nat ->
  vlen (fst (hermgauss n_quad)) = vlen (snd (hermgauss n_quad)) ->
  exists (mean : mat) (cov : ten),
    mean_cov_pce_quad hermgauss (Array a) (Array b) n_pce n_quad = Ok (mean, cov)
    /\ forall m k, (2 <= m)%nat -> (m <= n_pce)%nat -> (k < vlen a)%nat ->
         at2 mean m k
         = sum_n (vlen (fst (hermgauss n_quad)))
             (fun q =>
                vat (snd (hermgauss n_quad)) q / sqrt PI
                * hermitenorm (m - 1)
                    (quad_shifted_node a b
                       (vat (fst (hermgauss n_quad)) q * sqrt 2) k))
           * (1 / sqrt (1 + vat a k ^ 2))
           * exp (- (1 / 2) * vat b k ^ 2 / (vat a k ^ 2 + 1))
           / (sqrt (2 * PI) * INR (fact m)).
Proof.
  intros Hlen Hq Hh.
  destruct (mean_cov_pce_quad_full a b n_pce n_quad Hlen Hq Hh)
    as (mean & C & E & _ & _ & _ & Hm & _).
  exists mean. eexists. split; [exact E |]. exact Hm.
Qed.

(** Without dispersion ([a = 0]) and with library weights that add up
    to [sqrt pi], the quadrature is exact at every order: each row of
    the mean returned by [mean_cov_pce_quad] is the PCE coefficient at
    [b], as for the analytic engine. *)
Theorem mean_cov_pce_quad_degenerate (a b : vec) (n_pce n_quad : nat) :
  vlen a = vlen b -> (1 <= n_quad)%nat ->
  vlen (fst (hermgauss n_quad)) = vlen (snd (hermgauss n_quad)) ->
  (forall k, (k < vlen a)%nat -> vat a k = 0) ->
  sum_n (vlen (snd (hermgauss n_quad))) (vat (snd (hermgauss n_quad))) = sqrt PI ->
  exists (mean : mat) (cov : ten),
    mean_cov_pce_quad hermgauss (Array a) (Array b) n_pce n_quad = Ok (mean, cov)
    /\ forall m k, (m <= n_pce)%nat -> (k < vlen a)%nat ->
         at2 mean m k = coef_gauss_pce m (vat b k).
Proof.
  intros Hlen Hq Hh Ha Hsum.
  destruct (mean_cov_pce_quad_full a b n_pce n_quad Hlen Hq Hh)
    as (mean & C & E & _ & _ & H01 & Hm & _).
  exists mean. eexists. split; [exact E |].
  intros m k Hmn Hk.
  assert (Hone : sqrt (1 + 0 ^ 2) = 1).
  { replace (1 + 0 ^ 2) with 1 by ring. apply sqrt_1. }
  assert (Hpi : 0 < sqrt PI) by (apply sqrt_lt_R0, PI_RGT_0).
  assert (H2pi := sqrt_2PI_pos).
  destruct m as [| [| m]].
  - destruct (H01 k Hk) as [H0 _]. rewrite H0, (Ha k Hk), Hone.
    unfold coef_gauss_pce. cbn [Nat.eqb]. f_equal. field.
  - destruct (H01 k Hk) as [_ H1]. rewrite (H1 ltac:(lia)), (Ha k Hk), Hone.
    unfold coef_gauss_pce. cbn [Nat.eqb Nat.sub hermitenorm fact Nat.mul Nat.add].
    simpl INR. replace (vat b k / 1) with (vat b k) by field. field.
  - rewrite (Hm (S (S m)) k ltac:(lia) Hmn Hk).
    rewrite (sum_n_ext _ _
      (fun q => hermitenorm (S (S m) - 1) (vat b k) / sqrt PI
                * vat (snd (hermgauss n_quad)) q)).
    2:{ intros q _. unfold quad_shifted_node. rewrite (Ha k Hk).
        replace (0 * (1 / sqrt (1 + 0 ^ 2) * (vat (fst (hermgauss n_quad)) q * sqrt 2)
                      + - 0 * vat b k / (1 + 0 ^ 2)) + vat b k)
          with (vat b k) by (rewrite Hone; field).
        field. lra. }
    rewrite sum_n_scal, Hh, Hsum, (Ha k Hk), Hone.
    unfold coef_gauss_pce, norm_pdf. cbn [Nat.eqb].
    replace (- (1 / 2) * vat b k ^ 2 / (0 ^ 2 + 1)) with (- vat b k ^ 2 / 2) by field.
    assert (F := INR_fact_neq_0 (S (S m))).
    field. repeat split; lra.
Qed.

(** What the last line of [compute_cov_pce] leaves in the returned
    covariance, for vectors of one length.  The quadrature sums
    [V(r, c, k)], centred by the product of the means, are computed
    for [r <= c].  The masks of [np.triu] and [np.tril] compare the
    second index with the entry index [k], not with the first index:
    the diagonal keeps its value; for [r < c] the entry [(r, c, k)]
    keeps [V] only when [c <= k], and the entry [(c, r, k)] receives
    [V] only when [k < r]; every other off-diagonal entry is 0. *)
Theorem mean_cov_pce_quad_covariance_layout (a b : vec) (n_pce n_quad : nat) :
  vlen a = vlen b -> (1 <= n_quad)%nat ->
  vlen (fst (hermgauss n_quad)) = vlen (snd (hermgauss n_quad)) ->
  exists (mean : mat) (cov : ten),
    mean_cov_pce_quad hermgauss (Array a) (Array b) n_pce n_quad = Ok (mean, cov)
    /\ forall r c k, (r <= c)%nat -> (c <= n_pce)%nat -> (k < vlen a)%nat ->
         let V :=
           sum_n (vlen (fst (hermgauss n_quad)))
             (fun q =>
                vat (snd (hermgauss n_quad)) q / sqrt PI
                * quad_integrand a b (vat (fst (hermgauss n_quad)) q * sqrt 2) r k
                * quad_integrand a b (vat (fst (hermgauss n_quad)) q * sqrt 2) c k)
           - at2 mean r k * at2 mean c k in
         at3 cov r c k = (if ((c <=? k) || (r =? c))%nat then V else 0)
         /\ at3 cov c r k = (if ((k <? r) || (r =? c))%nat then V else 0).
Proof.
  intros Hlen Hq Hh.
  destruct (mean_cov_pce_quad_full a b n_pce n_quad Hlen Hq Hh)
    as (mean & C & E & (_ & Hlow) & _ & _ & _ & HC).
  exists mean. eexists. split; [exact E |].
  intros r c k Hrc Hcn Hk V.
  pose proof (HC r c k Hrc Hcn Hk) as HV. fold V in HV.
  rewrite !mirrored_entry. split.
  - destruct (c <=? k)%nat eqn:Eck.
    + apply Nat.leb_le in Eck.
      replace (k <? c)%nat with false by (symmetry; apply Nat.ltb_ge; exact Eck).
      cbn [orb]. rewrite HV. ring.
    + apply Nat.leb_gt in Eck.
      replace (k <? c)%nat with true by (symmetry; apply Nat.ltb_lt; exact Eck).
      cbn [orb]. destruct (r =? c)%nat eqn:Erc.
      * apply Nat.eqb_eq in Erc. subst c. rewrite HV. ring.
      * apply Nat.eqb_neq in Erc. rewrite (Hlow c r k) by lia. ring.
  - destruct (k <? r)%nat eqn:Ekr; cbn [orb].
    + rewrite HV. ring.
    + destruct (r =? c)%nat eqn:Erc.
      * apply Nat.eqb_eq in Erc. subst c. rewrite HV. ring.
      * apply Nat.eqb_neq in Erc. rewrite (Hlow c r k) by lia. ring.
Qed.

End QuadratureValues.

(** [mean_cov_pce_quad_mean_orders] at order 2 for [a = [1]],
    [b = [0]] and the two-point rule. *)
Lemma mean_cov_pce_quad_mean_orders_witness :
  exists (mean : mat) (cov : ten),
    mean_cov_pce_quad hermgauss_table (Array (array [1])) (Array (array [0])) 2 2
    = Ok (mean, cov)
    /\ at2 mean 2 0
       = sum_n 2
           (fun q =>
              vat (snd (hermgauss_table 2)) q / sqrt PI
              * hermitenorm 1
                  (quad_shifted_node (array [1]) (array [0])
                     (vat (fst (hermgauss_table 2)) q * sqrt 2) 0))
         * (1 / sqrt (1 + 1 ^ 2))
         * exp (- (1 / 2) * 0 ^ 2 / (1 ^ 2 + 1))
         / (sqrt (2 * PI) * INR (fact 2)).
Proof.
  destruct (mean_cov_pce_quad_mean_orders hermgauss_table (array [1]) (array [0])
              2 2 eq_refl ltac:(lia) eq_refl)
    as (mean & cov & E & H).
  exists mean, cov. split; [exact E |].
  apply (H 2%nat 0%nat); cbn [vlen array length]; lia.
Defined.

(** [mean_cov_pce_quad_degenerate] at order 3 for [a = [0]],
    [b = [2]] and the two-point rule. *)
Lemma mean_cov_pce_quad_degenerate_witness :
  exists (mean : mat) (cov : ten),
    mean_cov_pce_quad hermgauss_table (Array (array [0])) (Array (array [2])) 3 2
    = Ok (mean, cov)
    /\ at2 mean 3 0 = coef_gauss_pce 3 2.
Proof.
  destruct (mean_cov_pce_quad_degenerate hermgauss_table (array [0]) (array [2])
              3 2 eq_refl ltac:(lia) eq_refl)
    as (mean & cov & E & H).
  - intros k Hk. cbn [vlen array length] in Hk.
    replace k with 0%nat by lia. reflexivity.
  - cbn [hermgauss_table snd vlen array length sum_n vat nth]. field.
  - exists mean, cov. split; [exact E |].
    apply (H 3%nat 0%nat); cbn [vlen array length]; lia.
Defined.

(** [mean_cov_pce_quad_covariance_layout] for two obligors at order
    1: for the second obligor the entry [(0, 1)] holds the quadrature
    value and its mirror [(1, 0)] is 0. *)
Lemma mean_cov_pce_quad_covariance_layout_witness :
  exists (mean : mat) (cov : ten),
    mean_cov_pce_quad hermgauss_table (Array (array [1; 1])) (Array (array [0; 0])) 1 1
    = Ok (mean, cov)
    /\ at3 cov 0 1 1
       = sum_n 1
           (fun q =>
              vat (snd (hermgauss_table 1)) q / sqrt PI
              * quad_integrand (array [1; 1]) (array [0; 0])
                  (vat (fst (hermgauss_table 1)) q * sqrt 2) 0 1
              * quad_integrand (array [1; 1]) (array [0; 0])
                  (vat (fst (hermgauss_table 1)) q * sqrt 2) 1 1)
         - at2 mean 0 1 * at2 mean 1 1
    /\ at3 cov 1 0 1 = 0.
Proof.
  destruct (mean_cov_pce_quad_covariance_layout hermgauss_table
              (array [1; 1]) (array [0; 0]) 1 1 eq_refl ltac:(lia) eq_refl)
    as (mean & cov & E & H).
  exists mean, cov. split; [exact E |].
  destruct (H 0%nat 1%nat 1%nat ltac:(lia) ltac:(lia)
              ltac:(cbn [vlen array length]; lia)) as [H01 H10].
  split; [exact H01 | exact H10].
Defined.

(** ** Symmetry of the covariance arrays *)

(** With one quadrature node, [a = [1, 1]] and [b = [1, 1]], the
    entry [(0, 1)] of the covariance of [mean_cov_pce_quad] for
    [k = 1] is negative while its mirror [(1, 0)] is 0. *)
Lemma mean_cov_pce_quad_example :
  exists (mean : mat) (cov : ten),
    mean_cov_pce_quad hermgauss_table (Array (array [1; 1]))
      (Array (array [1; 1])) 1 1 = Ok (mean, cov)
    /\ at3 cov 0 1 1 < 0 /\ at3 cov 1 0 1 = 0.
Proof.
  set (a := array [1; 1]).
  destruct (mean_cov_pce_quad_full hermgauss_table a a 1 1 eq_refl (le_n 1) eq_refl)
    as (mean & C & E & [_ Hlow] & _ & Hmean & _ & HC).
  exists mean. eexists. split; [exact E |].
  rewrite !mirrored_entry. cbn [Nat.ltb Nat.leb].
  split; [| rewrite (Hlow 1%nat 0%nat 1%nat) by lia; ring].
  rewrite (HC 0%nat 1%nat 1%nat) by (cbn [vlen a array length]; lia).
  destruct (Hmean 1%nat) as [Hm0 Hm1]; [cbn [vlen a array length]; lia |].
  specialize (Hm1 (le_n 1)). rewrite Hm0, Hm1.
  unfold quad_integrand, coef_gauss_pce, quad_shifted_node.
  cbn [hermgauss_table fst snd vlen vat array length nth a sum_n Nat.eqb
       Nat.sub hermitenorm fact Nat.mul Nat.add INR].
  assert (Hs2 : 0 < sqrt (1 + 1 ^ 2)) by (apply sqrt_lt_R0; lra).
  assert (HP : 0 < sqrt PI) by (apply sqrt_lt_R0, PI_RGT_0).
  assert (H2P : 0 < sqrt (2 * PI)).
  { apply sqrt_lt_R0. assert (H := PI_RGT_0). lra. }
  assert (Hsq : sqrt (1 + 1 ^ 2) * sqrt (1 + 1 ^ 2) = 2).
  { rewrite sqrt_sqrt; lra. }
  assert (Hpdf : norm_pdf (1 / sqrt (1 + 1 ^ 2))
                 = exp (- (1 / 2) * 1 ^ 2 / (1 ^ 2 + 1)) / sqrt (2 * PI)).
  { unfold norm_pdf. f_equal. f_equal.
    replace ((1 / sqrt (1 + 1 ^ 2)) ^ 2)
      with (1 / (sqrt (1 + 1 ^ 2) * sqrt (1 + 1 ^ 2))) by (field; lra).
    rewrite Hsq. field. }
  rewrite Hpdf.
  set (e := exp (- (1 / 2) * 1 ^ 2 / (1 ^ 2 + 1))).
  assert (He : 0 < e) by apply exp_pos.
  set (I := e / sqrt (2 * PI) / sqrt (1 + 1 ^ 2)).
  assert (HI : 0 < I).
  { unfold I. repeat apply Rdiv_lt_0_compat; assumption. }
  set (P1 := norm_cdf (- (1 * (0 * sqrt 2) + 1))).
  set (P2 := norm_cdf (- (1) / sqrt (1 + 1 ^ 2))).
  assert (Hlt : P1 < P2).
  { apply norm_cdf_increasing.
    replace (- (1 * (0 * sqrt 2) + 1)) with (- (1)) by ring.
    assert (1 < sqrt (1 + 1 ^ 2)).
    { rewrite <- sqrt_1 at 1. apply sqrt_lt_1_alt. lra. }
    apply Rmult_lt_reg_r with (sqrt (1 + 1 ^ 2)); [exact Hs2 |].
    unfold Rdiv. rewrite Rmult_assoc, Rinv_l by lra. lra. }
  match goal with
  | |- ?l < 0 => replace l with ((P1 - P2) * I) by (unfold I; field; lra)
  end.
  nra.
Qed.

(** C2.  Neither engine returns a covariance array that is symmetric
    under the swap of its two leading axes.  The analytic engine, at
    [n = 3], [a = [1]], [b = [0]], whatever the bivariate distribution
    function: the entry [(3, 1)] is positive while [(1, 3)], in the
    last column that the recursion never writes, is 0, and the
    diagonal entry [(2, 2)], read from it, is negative.  The quadrature
    engine, at [n_pce = 1], one node, [a = [1, 1]], [b = [1, 1]]: the
    entry [(0, 1)] for [k = 1] is negative while its mirror [(1, 0)] is
    0, because [np.triu] and [np.tril] mask the last two axes of the
    three-dimensional array. *)
Theorem covariance_arrays_not_symmetric :
  (forall mvn_cdf : R * R -> R * R -> (R * R) * (R * R) -> R,
     exists (cov : xten) (x y : R),
       vlen (array [1]) = vlen (array [0])
       /\ cov_gauss_pce mvn_cdf 3 (array [1]) (array [0]) = Ok cov
       /\ xat3 cov 1 3 0 = Fin 0 /\ xat3 cov 3 1 0 = Fin x /\ 0 < x
       /\ xat3 cov 2 2 0 = Fin y /\ y < 0)
  /\ exists (mean : mat) (cov : ten),
       vlen (array [1; 1]) = vlen (array [1; 1])
       /\ mean_cov_pce_quad hermgauss_table (Array (array [1; 1]))
            (Array (array [1; 1])) 1 1 = Ok (mean, cov)
       /\ at3 cov 0 1 1 < 0 /\ at3 cov 1 0 1 = 0.
Proof.
  split.
  - intros mvn_cdf.
    destruct (cov_gauss_pce_example mvn_cdf) as (cov & x & y & H).
    exists cov, x, y. split; [reflexivity | exact H].
  - destruct mean_cov_pce_quad_example as (mean & cov & H).
    exists mean, cov. split; [reflexivity | exact H].
Qed.
